(** * Build orchestration of gemini_api: error parser, fix route, status
    and log routes, and the retry loop of [bash.sh].

    The development follows the sources one component at a time:
    - [JS]: the ECMAScript string primitives the TypeScript code calls
      ([trim], [split], [includes], [endsWith], [match], [replace]) and
      Node's POSIX [path] functions;
    - [ErrorParser]: [parseErrors] of the fix route;
    - [FileSystem]: the [fs] calls of the routes;
    - [FixRoute]: the POST handler of the fix route and [writeFixedFiles];
    - [StatusRoute]: the GET handler of [routes/buildStatus.ts];
    - [LogStream]: [broadcastLogMessage], the SSE handler of
      [routes/buildLogs.ts] and the output handlers of [routes/build.ts];
    - [Shell], [BashSh]: the build, fix and fallback block of [bash.sh];
    - [BashShRevised]: the path check its later revision adds, and what
      that revision does as the file stands;
    - [Auth], [App]: the token middleware, the routes mounted behind it
      and [attemptFix], the client of the fix route;
    - [FirstFixRoute]: the POST handler of [routes/fix.ts];
    - [BuildRoute]: the POST handler of [routes/build.ts] and the handlers
      of the build process;
    - [Startup]: the command line of [bash.sh];
    - [Paths], [Diagnostics], [Patches], [Accounting], [Streams]: notions
      the properties are stated with.
    The properties come after the definitions, component by component. *)

From Stdlib Require Import ZArith NArith Ascii String DecimalString.
From stdpp Require Import gmap strings list.

Local Open Scope N_scope.

(* ===================================================================== *)
(** * ECMAScript strings and regular expressions *)
(* ===================================================================== *)

Module JS.

(** A JavaScript string is a sequence of UTF-16 code units. *)
Abbreviation jsstring := (list N).

(** ASCII literal to code units. *)
Definition js (s : string) : list N :=
  map N_of_ascii (list_ascii_of_string s).

(** ECMAScript [WhiteSpace] and [LineTerminator] code points: the set
    removed by [String.prototype.trim] and matched by [\s]. *)
Definition is_white_space (c : N) : bool :=
  (c =? 9) || (c =? 10) || (c =? 11) || (c =? 12) || (c =? 13) || (c =? 32)
  || (c =? 160) || (c =? 5760) || ((8192 <=? c) && (c <=? 8202))
  || (c =? 8232) || (c =? 8233) || (c =? 8239) || (c =? 8287)
  || (c =? 12288) || (c =? 65279).

(** [LineTerminator]: what [.] does not match. *)
Definition is_line_terminator (c : N) : bool :=
  (c =? 10) || (c =? 13) || (c =? 8232) || (c =? 8233).

Definition is_digit (c : N) : bool := (48 <=? c) && (c <=? 57).
Definition not_colon (c : N) : bool := negb (c =? 58).
Definition any_char (c : N) : bool := negb (is_line_terminator c).

Fixpoint drop_while (p : N → bool) (s : list N) : list N :=
  match s with
  | c :: s' => if p c then drop_while p s' else s
  | [] => []
  end.

Fixpoint take_while (p : N → bool) (s : list N) : list N :=
  match s with
  | c :: s' => if p c then c :: take_while p s' else []
  | [] => []
  end.

(** [s.trim()] *)
Definition trim (s : list N) : list N :=
  rev (drop_while is_white_space (rev (drop_while is_white_space s))).

(** [s.split(sep)] for a one-unit separator: never the empty array. *)
Fixpoint split_on (sep : N) (s : list N) : list (list N) :=
  match s with
  | [] => [[]]
  | c :: s' =>
      if c =? sep then [] :: split_on sep s'
      else match split_on sep s' with
           | l :: ls => (c :: l) :: ls
           | [] => [[c]]
           end
  end.

Fixpoint starts_with (p s : list N) : bool :=
  match p, s with
  | [], _ => true
  | a :: p', b :: s' => (a =? b) && starts_with p' s'
  | _ :: _, [] => false
  end.

(** [s.includes(sub)] *)
Fixpoint includes (s sub : list N) : bool :=
  starts_with sub s
  || match s with
     | [] => false
     | _ :: s' => includes s' sub
     end.

(** [s.endsWith(suf)] *)
Definition ends_with (s suf : list N) : bool :=
  starts_with (rev suf) (rev s).

(** The fragment of the regular-expression syntax the sources use:
    literals, greedy [+] and [*] over a character class, a greedy optional
    group, sequence, alternation and numbered capture groups. *)
Inductive regex :=
| Lit (s : list N)
| Plus (cls : N → bool)
| Star (cls : N → bool)
| Opt (r : regex)
| Seq (r1 r2 : regex)
| Alt (r1 r2 : regex)
| Group (i : nat) (r : regex).

(** Greedy repetition with backtracking: longest run first, then shorter
    ones, until the continuation accepts. *)
Fixpoint star_k {A} (cls : N → bool) (s : list N)
    (k : list N → option A) : option A :=
  match s with
  | c :: s' =>
      if cls c then
        match star_k cls s' k with
        | Some r => Some r
        | None => k s
        end
      else k s
  | [] => k s
  end.

(** Backtracking matcher in continuation-passing style; [s] is the input
    that is left, [caps] the captures made so far. *)
Fixpoint rmatch {A} (r : regex) (s : list N) (caps : gmap nat (list N))
    (k : list N → gmap nat (list N) → option A) : option A :=
  match r with
  | Lit l => if starts_with l s then k (drop (length l) s) caps else None
  | Plus cls =>
      match s with
      | c :: s' => if cls c then star_k cls s' (λ s'', k s'' caps) else None
      | [] => None
      end
  | Star cls => star_k cls s (λ s'', k s'' caps)
  | Opt r' =>
      match rmatch r' s caps k with
      | Some x => Some x
      | None => k s caps
      end
  | Seq r1 r2 => rmatch r1 s caps (λ s1 c1, rmatch r2 s1 c1 k)
  | Alt r1 r2 =>
      match rmatch r1 s caps k with
      | Some x => Some x
      | None => rmatch r2 s caps k
      end
  | Group i r' =>
      rmatch r' s caps
        (λ s1 c1, k s1 (<[i := take (length s - length s1)%nat s]> c1))
  end.

Record match_result := {
  m_index : nat;
  m_full : list N;
  m_groups : gmap nat (list N)
}.

(** Leftmost match: try every start offset in turn ([re.exec] without the
    global flag). *)
Fixpoint search (r : regex) (index : nat) (s : list N) : option match_result :=
  match rmatch r s ∅ (λ rest caps, Some (rest, caps)) with
  | Some (rest, caps) =>
      Some {| m_index := index;
              m_full := take (length s - length rest)%nat s;
              m_groups := caps |}
  | None =>
      match s with
      | [] => None
      | _ :: s' => search r (S index) s'
      end
  end.

(** [s.match(re)] *)
Definition js_match (r : regex) (s : list N) : option match_result :=
  search r 0 s.

Definition group (m : match_result) (i : nat) : list N :=
  default [] (m_groups m !! i).

(** [s.replace(re, repl)] for a non-global [re] and a replacement without
    [$] patterns: only the first match is replaced. *)
Definition replace (r : regex) (repl : list N) (s : list N) : list N :=
  match js_match r s with
  | Some m =>
      take (m_index m) s ++ repl ++ drop (m_index m + length (m_full m))%nat s
  | None => s
  end.

(** Node's [path.posix.basename(p)]: trailing separators are ignored, the
    result is what follows the last remaining separator. *)
Definition basename (p : list N) : list N :=
  let stripped := rev (drop_while (N.eqb 47) (rev p)) in
  rev (take_while (λ c, negb (c =? 47)) (rev stripped)).


(** ** Node's POSIX [path] module *)

(** [normalizeString]: drop empty and [.] segments, let [..] remove the
    segment before it; above the root [..] is kept only when
    [allowAboveRoot]. *)
Fixpoint normalize_segments (allowAboveRoot : bool) (acc : list (list N))
    (segs : list (list N)) : list (list N) :=
  match segs with
  | [] => acc
  | seg :: rest =>
      if bool_decide (seg = []) || bool_decide (seg = [46]) then
        normalize_segments allowAboveRoot acc rest
      else if bool_decide (seg = [46; 46]) then
        match last acc with
        | Some l =>
            if bool_decide (l = [46; 46])
            then normalize_segments allowAboveRoot (acc ++ [seg]) rest
            else normalize_segments allowAboveRoot (removelast acc) rest
        | None =>
            if allowAboveRoot
            then normalize_segments allowAboveRoot (acc ++ [seg]) rest
            else normalize_segments allowAboveRoot acc rest
        end
      else normalize_segments allowAboveRoot (acc ++ [seg]) rest
  end.

Fixpoint join_with (sep : N) (parts : list (list N)) : list N :=
  match parts with
  | [] => []
  | [p] => p
  | p :: rest => p ++ sep :: join_with sep rest
  end.

Definition is_absolute (p : list N) : bool :=
  match p with
  | 47 :: _ => true
  | _ => false
  end.

(** [path.resolve(...args)] in a process whose working directory [cwd] is
    absolute: the arguments from the last absolute one on, normalised. *)
Definition resolve (cwd : list N) (args : list (list N)) : list N :=
  let parts :=
    fold_left (λ acc p,
                 match p with
                 | [] => acc
                 | _ => if is_absolute p then [p] else acc ++ [p]
                 end) args [cwd] in
  47 :: join_with 47
          (normalize_segments false [] (concat (map (split_on 47) parts))).

(** [path.normalize(p)] *)
Definition normalize (p : list N) : list N :=
  match p with
  | [] => [46]
  | _ =>
      let trailing := bool_decide (last p = Some 47) in
      let body :=
        join_with 47
          (normalize_segments (negb (is_absolute p)) [] (split_on 47 p)) in
      match body with
      | [] => if is_absolute p then [47]
              else if trailing then [46; 47] else [46]
      | _ => (if is_absolute p then [47] else [])
               ++ body ++ (if trailing then [47] else [])
      end
  end.

(** [path.join(...args)] *)
Definition join (args : list (list N)) : list N :=
  match filter (λ p, p ≠ []) args with
  | [] => [46]
  | parts => normalize (join_with 47 parts)
  end.

(** [path.dirname(p)]: the scan runs from the end down to index 1, over the
    trailing separators and the last segment, to the separator before it;
    the result is what precedes that separator. *)
Definition dirname (p : list N) : list N :=
  match p with
  | [] => [46]
  | c :: rest =>
      let hasRoot := c =? 47 in
      match drop_while (λ x, negb (x =? 47))
              (drop_while (N.eqb 47) (rev rest)) with
      | [] => if hasRoot then [47] else [46]
      | _ :: [] => if hasRoot then [47; 47] else [c]
      | _ :: before => c :: rev before
      end
  end.

(** Values a JSON request body can hold, and [undefined] for a field that
    is absent.  Numbers matter only through their truthiness. *)
#[warnings="-register-all"]
Inductive jsvalue :=
| VUndefined
| VNull
| VBool (b : bool)
| VNumber (z : Z)
| VString (s : list N)
| VArray (l : list jsvalue)
| VObject (fields : list (list N * jsvalue)).

(** [typeof v === 'string'] *)
Definition is_string (v : jsvalue) : bool :=
  match v with
  | VString _ => true
  | _ => false
  end.

(** [ToBoolean] *)
Definition truthy (v : jsvalue) : bool :=
  match v with
  | VUndefined | VNull => false
  | VBool b => b
  | VNumber z => negb (z =? 0)%Z
  | VString s => match s with [] => false | _ => true end
  | VArray _ | VObject _ => true
  end.

(** Completion of a call: a value, or a thrown exception. *)
Inductive completion (A : Type) :=
| Returns (a : A)
| Throws (reason : string).
Arguments Returns {A} a.
Arguments Throws {A} reason.

End JS.

(* ===================================================================== *)
(** * ErrorParser: [parseErrors] of the fix route *)
(* ===================================================================== *)

Module ErrorParser.
Import JS.

(** The pattern of [fileErrorMatch]:
    [\[ERROR\]\s+([^:]+):\[(\d+)(?:,\d+)?\]\s+] followed by a third group
    that captures [.*], the rest of the line. *)
Definition fileError_re : regex :=
  Seq (Lit (js "[ERROR]"))
  (Seq (Plus is_white_space)
  (Seq (Group 1 (Plus not_colon))
  (Seq (Lit (js ":["))
  (Seq (Group 2 (Plus is_digit))
  (Seq (Opt (Seq (Lit (js ",")) (Plus is_digit)))
  (Seq (Lit (js "]"))
  (Seq (Plus is_white_space)
       (Group 3 (Star any_char))))))))).

(** [/\[ERROR\]\s+/] *)
Definition error_tag_re : regex :=
  Seq (Lit (js "[ERROR]")) (Plus is_white_space).

(** [/\[ERROR\]\s+|\[FATAL\]\s+/] *)
Definition error_or_fatal_tag_re : regex :=
  Alt (Seq (Lit (js "[ERROR]")) (Plus is_white_space))
      (Seq (Lit (js "[FATAL]")) (Plus is_white_space)).

(** The object [result] that [parseErrors] fills in.  [fileErrors] is a
    plain object used as a map: its own properties are the [gmap]. *)
Record parsed := {
  fileErrors : gmap (list N) (list (list N));
  generalErrors : list (list N)
}.

Definition empty_result : parsed :=
  {| fileErrors := ∅; generalErrors := [] |}.

(** Properties every plain object inherits from [Object.prototype]: reading
    one of them on [result.fileErrors] gives a truthy value that is not an
    array. *)
Definition object_prototype_keys : list (list N) :=
  map js ["constructor"; "__proto__"; "hasOwnProperty"; "isPrototypeOf";
          "propertyIsEnumerable"; "toLocaleString"; "toString"; "valueOf";
          "__defineGetter__"; "__defineSetter__"; "__lookupGetter__";
          "__lookupSetter__"]%string.

Definition inherited (key : list N) : bool :=
  bool_decide (key ∈ object_prototype_keys).

(** What [obj[key]] evaluates to on such an object: the array of an own
    property, a function or object found on the prototype, or
    [undefined]. *)
Inductive property_value :=
| OwnArray (arr : list (list N))
| Inherited
| Undefined.

Definition get (obj : gmap (list N) (list (list N))) (key : list N)
    : property_value :=
  match obj !! key with
  | Some arr => OwnArray arr
  | None => if inherited key then Inherited else Undefined
  end.

(** [if (!obj[key]) obj[key] = []; obj[key].push(msg)].  An inherited
    property is truthy, so the guard leaves it alone, and it has no
    [push]. *)
Definition push_under (key msg : list N)
    (obj : gmap (list N) (list (list N)))
    : completion (gmap (list N) (list (list N))) :=
  match get obj key with
  | OwnArray arr => Returns (<[key := arr ++ [msg]]> obj)
  | Undefined => Returns (<[key := [msg]]> obj)
  | Inherited =>
      Throws "TypeError: result.fileErrors[fileName].push is not a function"
  end.

Definition mentions_pom (line : list N) : bool :=
  includes line (js "pom.xml") || includes line (js "POM")
  || includes line (js "maven").

Definition has_error_marker (line : list N) : bool :=
  includes line (js "[ERROR]") || includes line (js "[FATAL]").

(** One iteration of the [for] loop over [errorLines]. *)
Definition process_line (result : parsed) (raw : list N) : completion parsed :=
  let line := trim raw in
  match line with
  | [] => Returns result
  | _ :: _ =>
      match js_match fileError_re line with
      | Some m =>
          let filePath := group m 1 in
          let lineNumber := group m 2 in
          let errorMsg := group m 3 in
          let fileName := basename filePath in
          match push_under fileName
                  (js "Line " ++ lineNumber ++ js ": " ++ errorMsg)
                  (fileErrors result) with
          | Returns fe =>
              Returns {| fileErrors := fe;
                         generalErrors := generalErrors result |}
          | Throws e => Throws e
          end
      | None =>
          if mentions_pom line then
            match push_under (js "pom.xml") (replace error_tag_re [] line)
                    (fileErrors result) with
            | Returns fe =>
                Returns {| fileErrors := fe;
                           generalErrors := generalErrors result |}
            | Throws e => Throws e
            end
          else if has_error_marker line then
            Returns {| fileErrors := fileErrors result;
                       generalErrors :=
                         generalErrors result
                           ++ [replace error_or_fatal_tag_re [] line] |}
          else Returns result
      end
  end.

Fixpoint process_lines (result : parsed) (lines : list (list N))
    : completion parsed :=
  match lines with
  | [] => Returns result
  | l :: rest =>
      match process_line result l with
      | Returns result' => process_lines result' rest
      | Throws e => Throws e
      end
  end.

(** [parseErrors(buildErrors)]; the argument is whatever the request body
    holds under [buildErrors], and anything but a string takes the
    [typeof buildErrors !== 'string'] exit. *)
Definition parseErrors (buildErrors : jsvalue) : completion parsed :=
  match buildErrors with
  | VString s => process_lines empty_result (split_on 10 s)
  | _ => Returns empty_result
  end.

(** The reading of "a leading [ERROR] prefix stripped": the tag and the
    blank after it are cut when the line starts with them, and only then. *)
Definition strip_leading_error_prefix (line : list N) : list N :=
  if starts_with (js "[ERROR] ") line then drop 8 line else line.

End ErrorParser.


(* ===================================================================== *)
(** * The file system, as the [fs] calls of the routes see it *)
(* ===================================================================== *)

Module FileSystem.
Import JS.

(** Directories and regular files by absolute normalised path, and the
    working directory of the server process.  Calls fail only for the
    structural reasons below (a file where a directory is needed and the
    like); permissions and device errors are not part of the model. *)
Record filesys := {
  cwd : list N;
  dirs : gset (list N);
  regular_files : gmap (list N) (list N)
}.

Definition canon (fs : filesys) (p : list N) : list N := resolve (cwd fs) [p].

Definition is_dir (fs : filesys) (p : list N) : bool :=
  bool_decide (canon fs p ∈ dirs fs).

Definition is_file (fs : filesys) (p : list N) : bool :=
  bool_decide (is_Some (regular_files fs !! canon fs p)).

(** [fs.existsSync(p)] *)
Definition existsSync (fs : filesys) (p : list N) : bool :=
  is_dir fs p || is_file fs p.

(** [fs.readFileSync(p, 'utf8')] *)
Definition readFileSync (fs : filesys) (p : list N) : completion (list N) :=
  match regular_files fs !! canon fs p with
  | Some content => Returns content
  | None => Throws (if is_dir fs p then "EISDIR" else "ENOENT")
  end.

(** The proper ancestors of an absolute normalised path, root first. *)
Definition ancestors (p : list N) : list (list N) :=
  let segs := filter (λ x, x ≠ []) (split_on 47 p) in
  map (λ n, 47 :: join_with 47 (take n segs)) (seq 0 (length segs)).

(** [fs.mkdirSync(p, { recursive: true })] *)
Definition mkdirSync (fs : filesys) (p : list N) : completion filesys :=
  let q := canon fs p in
  if existsb (λ a, bool_decide (is_Some (regular_files fs !! a))) (ancestors q ++ [q])
  then Throws "ENOTDIR"
  else Returns {| cwd := cwd fs;
                  dirs := dirs fs ∪ list_to_set (ancestors q ++ [q]);
                  regular_files := regular_files fs |}.

(** [fs.writeFileSync(p, content, 'utf8')] *)
Definition writeFileSync (fs : filesys) (p content : list N)
    : completion filesys :=
  let q := canon fs p in
  if is_dir fs q then Throws "EISDIR"
  else if negb (is_dir fs (dirname q)) then Throws "ENOENT"
  else Returns {| cwd := cwd fs; dirs := dirs fs;
                  regular_files := <[q := content]> (regular_files fs) |}.

(** [fs.appendFileSync(p, content)] *)
Definition appendFileSync (fs : filesys) (p content : list N)
    : completion filesys :=
  writeFileSync fs p (default [] (regular_files fs !! canon fs p) ++ content).

End FileSystem.

(* ===================================================================== *)
(** * FixRoute: the POST handler of the fix route *)
(* ===================================================================== *)

Module FixRoute.
Import JS ErrorParser FileSystem.

(** A plain object with string keys that are not array indices, as
    [Object.entries] lists it: own properties in insertion order. *)
Abbreviation record_of A := (list (list N * A)).

(** [obj[key] = v] *)
Fixpoint assign {A} (key : list N) (v : A) (obj : list (list N * A))
    : list (list N * A) :=
  match obj with
  | [] => [(key, v)]
  | (k, x) :: rest =>
      if bool_decide (k = key) then (k, v) :: rest
      else (k, x) :: assign key v rest
  end.

Definition index_key (i : nat) : list N :=
  js (NilZero.string_of_uint (Nat.to_uint i)).

(** [Object.entries(files)] for a truthy body field. *)
Definition entries (v : jsvalue) : list (list N * jsvalue) :=
  match v with
  | VObject fields => fields
  | VArray l => imap (λ i x, (index_key i, x)) l
  | VString s => imap (λ i c, (index_key i, VString [c])) s
  | _ => []
  end.

(** The text sent to the model, kept as the template chosen and the values
    interpolated into it. *)
Inductive prompt :=
| JavaPrompt (filename : list N) (content : jsvalue)
    (fileErrs generalErrs : list (list N))
| PomPrompt (content : jsvalue) (pomErrs generalErrs : list (list N))
| PluginYmlPrompt (content : jsvalue) (generalErrs : list (list N)).

(** [ensureArray(value)]: [Array.isArray(value) ? value : []] *)
Definition ensureArray (value : property_value) : list (list N) :=
  match value with
  | OwnArray arr => arr
  | Inherited | Undefined => []
  end.

(** [value || []] *)
Definition or_empty (value : property_value) : property_value :=
  match value with
  | Undefined => OwnArray []
  | _ => value
  end.

(** [ensureArray(parsedErrors.fileErrors[key] || [])] *)
Definition errors_for (p : parsed) (key : list N) : list (list N) :=
  ensureArray (or_empty (get (fileErrors p) key)).

Fixpoint index_of (sub s : list N) (i : nat) : option nat :=
  if starts_with sub s then Some i
  else match s with
       | [] => None
       | _ :: s' => index_of sub s' (S i)
       end.

Fixpoint last_index_of (sub s : list N) (i : nat) : option nat :=
  match s with
  | [] => if starts_with sub s then Some i else None
  | _ :: s' =>
      match last_index_of sub s' (S i) with
      | Some j => Some j
      | None => if starts_with sub s then Some i else None
      end
  end.

(** [s.slice(a, b)] for indices within the string. *)
Definition slice (a b : nat) (s : list N) : list N :=
  take (b - a) (drop a s).

(** The clean-up of the model's answer: a surrounding code fence is cut. *)
Definition clean (fixedContent : list N) : list N :=
  let c := trim fixedContent in
  let fence := js "```" in
  if starts_with fence c && ends_with c fence then
    let from := match index_of [10] c 0 with Some i => S i | None => 0%nat end in
    let to := default 0%nat (last_index_of fence c 0) in
    trim (slice from to c)
  else c.

(** What lets a file through to the model: one of the three file types,
    and parsed errors under its basename unless it is a [pom.xml]. *)
Definition patchable (parsedErrors : parsed) (filename : list N) : Prop :=
  (ends_with filename (js ".java") = true
   ∨ ends_with filename (js "pom.xml") = true
   ∨ ends_with filename (js "plugin.yml") = true)
  ∧ (errors_for parsedErrors (basename filename) ≠ []
     ∨ ends_with filename (js "pom.xml") = true).

Section Handler.

(** The generative model: the answer to the [n]-th call of a request, or an
    exception from [generateContent] or [response.text()]. *)
Variable fixer : nat → prompt → completion (list N).

(** The prompt selection of the loop body; [None] is [continue]. *)
Definition choose_prompt (parsedErrors : parsed) (filename : list N)
    (content : jsvalue) : option prompt :=
  let fileErrs := errors_for parsedErrors (basename filename) in
  if (length fileErrs =? 0)%nat && negb (ends_with filename (js "pom.xml"))
  then None
  else
    let generalErrs := generalErrors parsedErrors in
    if ends_with filename (js ".java") then
      Some (JavaPrompt filename content fileErrs generalErrs)
    else if ends_with filename (js "pom.xml") then
      Some (PomPrompt content
              (ensureArray (get (fileErrors parsedErrors) (js "pom.xml")))
              generalErrs)
    else if ends_with filename (js "plugin.yml") then
      Some (PluginYmlPrompt content generalErrs)
    else None.

(** The loop over [Object.entries(files)]; [calls] counts the requests made
    to the model so far. *)
Fixpoint fix_files (parsedErrors : parsed) (todo : list (list N * jsvalue))
    (calls : nat) (fixedFiles : list (list N * list N))
    : list (list N * list N) :=
  match todo with
  | [] => fixedFiles
  | (filename, content) :: rest =>
      match choose_prompt parsedErrors filename content with
      | None => fix_files parsedErrors rest calls fixedFiles
      | Some p =>
          match fixer calls p with
          | Returns fixedContent =>
              fix_files parsedErrors rest (S calls)
                (assign filename (clean fixedContent) fixedFiles)
          | Throws _ => fix_files parsedErrors rest (S calls) fixedFiles
          end
      end
  end.

(** [writeFixedFiles(fixedFiles, pluginDir)]: the [try] block stops at the
    first exception, what was written before it stays written. *)
Fixpoint write_each (fs : filesys) (pluginDir : list N)
    (fixedFiles : list (list N * list N)) : bool * filesys :=
  match fixedFiles with
  | [] => (true, fs)
  | (filename, content) :: rest =>
      let filePath := resolve (cwd fs) [pluginDir; filename] in
      let dirName := dirname filePath in
      let made :=
        if existsSync fs dirName then Returns fs else mkdirSync fs dirName in
      match made with
      | Throws _ => (false, fs)
      | Returns fs1 =>
          match writeFileSync fs1 filePath content with
          | Throws _ => (false, fs1)
          | Returns fs2 => write_each fs2 pluginDir rest
          end
      end
  end.

Definition writeFixedFiles (fs : filesys)
    (fixedFiles : list (list N * list N)) (pluginDir : jsvalue)
    : bool * filesys :=
  match fixedFiles with
  | [] => (true, fs)
  | _ :: _ =>
      match pluginDir with
      | VString dir => write_each fs dir fixedFiles
      | _ => (false, fs)        (* [path.resolve] rejects a non-string *)
      end
  end.

Record request := {
  buildErrors : jsvalue;
  files : jsvalue;
  pluginDir : jsvalue
}.

Inductive response :=
| BadRequest                       (* 400, status 'error' *)
| Fixed (filesWritten : bool) (data : list (list N * list N))
                                   (* 200, status 'success' *)
| ServerError (reason : string).   (* 500, status 'error' *)

(** [router.post('/')] *)
Definition post_fix (fs : filesys) (req : request) : response * filesys :=
  if negb (truthy (buildErrors req)) || negb (truthy (files req)) then
    (BadRequest, fs)
  else
    match parseErrors (buildErrors req) with
    | Throws e => (ServerError e, fs)
    | Returns parsedErrors =>
        let fixedFiles := fix_files parsedErrors (entries (files req)) 0 [] in
        let '(writeResult, fs') :=
          if truthy (pluginDir req) && (0 <? length fixedFiles)%nat
          then writeFixedFiles fs fixedFiles (pluginDir req)
          else (false, fs) in
        (Fixed writeResult fixedFiles, fs')
    end.

End Handler.

End FixRoute.

(* ===================================================================== *)
(** * StatusRoute: the GET handler of [routes/buildStatus.ts] *)
(* ===================================================================== *)

Module StatusRoute.
Import JS FileSystem.

Inductive status_response :=
| PluginNotFound                                  (* 404, success: false *)
| BuildComplete (buildResult : jsvalue)           (* 200, buildComplete: true *)
| BuildInProgress (logFile : list N)              (* 200, 'Build in progress' *)
| BuildNotStarted                                 (* 200, 'Build not started' *)
| StatusCheckFailed (reason : string).            (* 500, success: false *)

(** The [success] field of the JSON body. *)
Definition success (r : status_response) : bool :=
  match r with
  | PluginNotFound | StatusCheckFailed _ => false
  | BuildComplete _ | BuildInProgress _ | BuildNotStarted => true
  end.

(** The HTTP status code. *)
Definition http_status (r : status_response) : nat :=
  match r with
  | PluginNotFound => 404
  | StatusCheckFailed _ => 500
  | BuildComplete _ | BuildInProgress _ | BuildNotStarted => 200
  end.

Section Handler.

(** [JSON.parse]; [None] is a [SyntaxError]. *)
Variable JSON_parse : list N → option jsvalue.

(** [router.get('/:pluginName')] *)
Definition get_status (fs : filesys) (pluginName : list N) : status_response :=
  let pluginDir := resolve (cwd fs) [pluginName] in
  if negb (existsSync fs pluginDir) then PluginNotFound
  else
    let buildResultPath := join [pluginDir; js "build_result.json"] in
    if existsSync fs buildResultPath then
      match readFileSync fs buildResultPath with
      | Throws e => StatusCheckFailed e
      | Returns text =>
          match JSON_parse text with
          | None => StatusCheckFailed "SyntaxError"
          | Some buildResult => BuildComplete buildResult
          end
      end
    else
      let buildLogPath := join [pluginDir; js "build.log"] in
      if existsSync fs buildLogPath then BuildInProgress buildLogPath
      else BuildNotStarted.

End Handler.

End StatusRoute.

(* ===================================================================== *)
(** * LogStream: [routes/buildLogs.ts] and the publishers of
      [routes/build.ts] *)
(* ===================================================================== *)

Module LogStream.
Import JS FileSystem.

(** One server-sent event: the text
    [data: {"timestamp":...,"message":...}] followed by a blank line, kept
    as the two values serialised into it. *)
Record sse_event := {
  timestamp : list N;
  message : list N
}.

(** A [PassThrough] stream: what has been written to it, and whether
    [end()] was called. *)
Record passthrough := {
  written : list sse_event;
  ended : bool
}.

(** The module state: [activeStreams], the stream objects it refers to by
    identity, the [close] handlers registered on the requests (each closes
    over the [pluginName] of its request), and the clock.  A [Set] iterates
    in insertion order and holds an object once, so it is a duplicate-free
    list of identities. *)
Record registry := {
  activeStreams : gmap (list N) (list nat);
  heap : gmap nat passthrough;
  handlers : gmap nat (list N);
  next_stream : nat;
  ticks : nat
}.

Definition initial : registry :=
  {| activeStreams := ∅; heap := ∅; handlers := ∅;
     next_stream := 0; ticks := 0 |}.

(** [set.add(x)] *)
Definition set_add (x : nat) (s : list nat) : list nat :=
  if bool_decide (x ∈ s) then s else s ++ [x].

(** [set.delete(x)] *)
Definition set_delete (x : nat) (s : list nat) : list nat :=
  filter (λ y, y ≠ x) s.

(** [stream.write(data)] *)
Definition stream_write (e : sse_event) (sid : nat)
    (h : gmap nat passthrough) : gmap nat passthrough :=
  match h !! sid with
  | Some p =>
      if ended p then h
      else <[sid := {| written := written p ++ [e]; ended := false |}]> h
  | None => h
  end.

(** What the output handlers append to the log for the chunks they are
    given: each chunk trimmed and ended by a line feed, nothing for a chunk
    that is blank. *)
Definition appended (chunks : list (list N)) : list N :=
  concat (map (λ data, match trim data with
                       | [] => []
                       | output => output ++ [10]
                       end) chunks).


Section Clock.

(** [new Date().toISOString()] at the [n]-th reading of the clock. *)
Variable now : nat → list N.

(** [broadcastLogMessage(pluginName, logMessage)]; every write is inside
    its own [try], nothing else in the function can throw. *)
Definition broadcastLogMessage (st : registry) (pluginName logMessage : list N)
    : registry :=
  match activeStreams st !! pluginName with
  | Some streams =>
      if (0 <? length streams)%nat then
        let data := {| timestamp := now (ticks st); message := logMessage |} in
        {| activeStreams := activeStreams st;
           heap := fold_left (λ h sid, stream_write data sid h) streams (heap st);
           handlers := handlers st;
           next_stream := next_stream st;
           ticks := S (ticks st) |}
      else st
  | None => st
  end.

(** The [forEach] over the lines of the existing log: one event per line
    that is not blank, each with its own clock reading. *)
Fixpoint replay (lines : list (list N)) (sid : nat) (h : gmap nat passthrough)
    (t : nat) : gmap nat passthrough * nat :=
  match lines with
  | [] => (h, t)
  | line :: rest =>
      match trim line with
      | [] => replay rest sid h t
      | _ :: _ =>
          replay rest sid
            (stream_write {| timestamp := now t; message := line |} sid h)
            (S t)
      end
  end.

Inductive connect_response :=
| NotFound                 (* 404, 'Plugin not found' *)
| Streaming (sid : nat).   (* the stream piped to the response *)

(** [router.get('/:pluginName')] *)
Definition connect (fs : filesys) (st : registry) (pluginName : list N)
    : connect_response * registry :=
  let pluginDir := resolve (cwd fs) [pluginName] in
  if negb (existsSync fs pluginDir) then (NotFound, st)
  else
    let stream := next_stream st in
    let h0 := <[stream := {| written := []; ended := false |}]> (heap st) in
    let streams := default [] (activeStreams st !! pluginName) in
    let active := <[pluginName := set_add stream streams]> (activeStreams st) in
    let h1 :=
      stream_write {| timestamp := now (ticks st);
                      message := js "Connected to log stream" |} stream h0 in
    let t1 := S (ticks st) in
    let buildLogPath := join [pluginDir; js "build.log"] in
    let '(h2, t2) :=
      if existsSync fs buildLogPath then
        match readFileSync fs buildLogPath with
        | Returns text => replay (split_on 10 text) stream h1 t1
        | Throws _ => (h1, t1)
        end
      else (h1, t1) in
    (Streaming stream,
     {| activeStreams := active; heap := h2;
        handlers := <[stream := pluginName]> (handlers st);
        next_stream := S stream; ticks := t2 |}).

(** The [close] handler registered by the request that created [stream]. *)
Definition on_close (st : registry) (stream : nat) : registry :=
  match handlers st !! stream with
  | None => st
  | Some pluginName =>
      let active :=
        match activeStreams st !! pluginName with
        | Some streams =>
            let streams' := set_delete stream streams in
            if (length streams' =? 0)%nat
            then delete pluginName (activeStreams st)
            else <[pluginName := streams']> (activeStreams st)
        | None => activeStreams st
        end in
      {| activeStreams := active;
         heap := alter (λ p, {| written := written p; ended := true |}) stream
                   (heap st);
         handlers := handlers st;
         next_stream := next_stream st;
         ticks := ticks st |}
  end.

(** [routes/build.ts]: "Create or clear the build log file". *)
Definition start_log (fs : filesys) (st : registry) (pluginDir : list N)
    : completion (filesys * registry) :=
  match writeFileSync fs (join [pluginDir; js "build.log"])
          (js "Build started at " ++ now (ticks st) ++ [10]) with
  | Returns fs' =>
      Returns (fs', {| activeStreams := activeStreams st; heap := heap st;
                       handlers := handlers st;
                       next_stream := next_stream st; ticks := S (ticks st) |})
  | Throws e => Throws e
  end.

(** [routes/build.ts]: the ['data'] handler of the build's standard
    output. *)
Definition on_output (fs : filesys) (st : registry) (pluginDir data : list N)
    : completion (filesys * registry) :=
  let output := trim data in
  match output with
  | [] => Returns (fs, st)
  | _ :: _ =>
      match appendFileSync fs (join [pluginDir; js "build.log"])
              (output ++ [10]) with
      | Returns fs' =>
          Returns (fs', broadcastLogMessage st (basename pluginDir) output)
      | Throws e => Throws e
      end
  end.

(** The chunks of output of one build, handled in order. *)
Fixpoint on_outputs (fs : filesys) (st : registry) (pluginDir : list N)
    (chunks : list (list N)) : completion (filesys * registry) :=
  match chunks with
  | [] => Returns (fs, st)
  | data :: rest =>
      match on_output fs st pluginDir data with
      | Returns (fs', st') => on_outputs fs' st' pluginDir rest
      | Throws e => Throws e
      end
  end.

(** What the build route does to the log of a build up to some point of
    its output: it creates the file, then handles the chunks.  The route
    is not the only writer of the file: the script it has spawned empties
    it ([bash.sh] line 133) and appends each of its own messages (line
    48), so during a build the file need not hold what [publish]
    leaves. *)
Definition publish (fs : filesys) (st : registry) (pluginDir : list N)
    (chunks : list (list N)) : completion (filesys * registry) :=
  match start_log fs st pluginDir with
  | Returns (fs', st') => on_outputs fs' st' pluginDir chunks
  | Throws e => Throws e
  end.

(** The events the server reacts to. *)
Inductive event :=
| Connect (pluginName : list N)
| Disconnect (stream : nat)
| Broadcast (pluginName logMessage : list N).

Definition step (fs : filesys) (st : registry) (ev : event) : registry :=
  match ev with
  | Connect p => snd (connect fs st p)
  | Disconnect sid => on_close st sid
  | Broadcast p m => broadcastLogMessage st p m
  end.

(** A run: the events handled one after the other, each against the file
    system of its moment. *)
Fixpoint run (st : registry) (evs : list (filesys * event)) : registry :=
  match evs with
  | [] => st
  | (fs, ev) :: rest => run (step fs st ev) rest
  end.



End Clock.

(** What a stream has received. *)
Definition received (st : registry) (sid : nat) : list sse_event :=
  match heap st !! sid with
  | Some p => written p
  | None => []
  end.

(** The shape of the states the handlers produce: the sets are not empty
    and hold no stream twice; a registered stream is open and its handler
    closes over the name it is registered under; identities from
    [next_stream] on are unused. *)
Record well_formed (st : registry) : Prop := {
  wf_nonempty : ∀ p streams,
    activeStreams st !! p = Some streams → streams ≠ [];
  wf_nodup : ∀ p streams,
    activeStreams st !! p = Some streams → NoDup streams;
  wf_live : ∀ p streams sid,
    activeStreams st !! p = Some streams → sid ∈ streams →
    (∃ s, heap st !! sid = Some s ∧ ended s = false)
    ∧ handlers st !! sid = Some p;
  wf_fresh : ∀ sid,
    handlers st !! sid ≠ None → (sid < next_stream st)%nat
}.

End LogStream.

(* ===================================================================== *)
(** * Script: the build, fix and fallback block of the build script *)
(* ===================================================================== *)

(** The script runs under [set -eo pipefail]: a simple command that fails
    outside the test of an [if] or [while] (an assignment from a failing
    command substitution, a function whose last pipeline fails, [wait] for
    a failed background job) ends the script with that status.  However
    the script ends, by [exit], by such a failure or after its last line,
    the [EXIT] trap of line 17 runs [cleanup], and the status of
    [cleanup] can replace the status the script was ending with (see
    [leave]).  The model starts at the first [build_plugin "normal"], after
    the checks of the tools, of the arguments and of the plugin directory,
    with the shell in the plugin directory (line 161) and
    [build_result.json] as an earlier build left it: no line of the script
    and no route of the server removes that file.  The commands whose
    status depends on the build, on the fix service or on the patch set are
    answered by the [world]; [log], [echo], [mktemp], [rm -f], [cat] and
    the collection of the source files are taken to succeed (for [log],
    which appends to ["$PLUGIN_DIR/build.log"] after the [cd], this asks
    for a plugin directory given by an absolute path), and
    [--max-attempts] to be an integer. *)

Module Shell.

Local Open Scope Z_scope.

Inductive build_type := Normal | NoShade | CompileOnly.

(** [MAX_AI_FIX_ATTEMPTS=5], the value without [--max-attempts]. *)
Definition default_max_attempts : Z := 5.

(** The content of [build_result.json]. *)
Record build_result := {
  success : bool;
  jarPath : option string;
  error : option string;
  fixes : option Z;
  noShade : bool
}.

Definition succeeded (jar : string) (fixes : option Z) (noShade : bool)
    : build_result :=
  {| success := true; jarPath := Some jar; error := None;
     fixes := fixes; noShade := noShade |}.

Definition failed (error : string) (jar : option string) : build_result :=
  {| success := false; jarPath := jar; error := Some error;
     fixes := None; noShade := false |}.

(** What a run does, in order. *)
Inductive event :=
| Attempt (n : Z)               (* "AI Fix Attempt #n of MAX" *)
| Build (t : build_type)        (* [build_plugin t] *)
| FixRequest (n : Z)            (* the POST to the fix API *)
| Updated (path : string)       (* a returned file written, "Updated: path" *)
| Skipped (path : string)       (* "Skipping suspicious file path: path" *)
| WriteResult (r : build_result).  (* [build_result.json] written *)

(** The answers of the environment to one run.  Arguments [n] are the
    value of [AI_FIX_ATTEMPTS] in the iteration asking. *)
Record world := {
  VERBOSE : bool;
  MAX_AI_FIX_ATTEMPTS : Z;
  (** [build_result.json] in the plugin directory when the script starts,
      as far as the fields of [build_result] go: what an earlier build
      left there, [None] when the file does not exist *)
  previous_result : option build_result;
  (** the script was started in the plugin directory itself: after
      [cd "$PLUGIN_DIR"] the shell is still in [$CURRENT_DIR] *)
  started_inside : bool;
  (** first [build_plugin "normal"], then [find_jar_file], [verify_jar] *)
  first_build : nat;
  first_jar : string;
  first_verify : nat;
  (** status of [build_plugin "compile-only"] *)
  compile_only : Z → nat;
  (** exit status of [curl] *)
  curl : Z → nat;
  (** [jq -e '.status == "success"'] exits with 0 *)
  status_success : Z → bool;
  (** status of the [jq] that extracts [.message] *)
  message_status : Z → nat;
  (** status and output of [jq 'length'] on [.data] *)
  fixed_count : Z → nat * Z;
  (** the words of [jq -r 'keys[]'] on [.data] *)
  fixed_paths : Z → list string;
  (** status of [mkdir -p] and of the redirected [jq] for one path: 0 when
      both succeed *)
  write_status : Z → string → nat;
  (** [build_plugin "normal"] after the fixes, [find_jar_file],
      [verify_jar] *)
  rebuild : Z → nat;
  rebuilt_jar : Z → string;
  rebuilt_verify : Z → nat;
  (** [build_plugin "no-shade"], the search for the jar (status and
      result), [verify_jar] *)
  noshade_build : nat;
  noshade_jar : nat * string;
  noshade_verify : nat
}.

(** How one iteration of the [while] loop ends. *)
Inductive iteration_end :=
| Continue                   (* [continue], or the end of the body *)
| Break                      (* [BUILD_SUCCESS=true; break] *)
| Abort (status : nat).      (* a failing command under [set -e] *)

(** How the [while] loop is left. *)
Inductive loop_end :=
| LoopDone (AI_FIX_ATTEMPTS : Z) (BUILD_SUCCESS : bool)
| Errexit (status : nat)
| OutOfFuel.

(** The state a run accumulates. *)
Record run_state := {
  trace : list event;
  result_file : option build_result
}.

Definition emit (e : event) (st : run_state) : run_state :=
  {| trace := trace st ++ [e]; result_file := result_file st |}.

Definition write_result (r : build_result) (st : run_state) : run_state :=
  {| trace := trace st ++ [WriteResult r]; result_file := Some r |}.

(** A finished run. *)
Record outcome := {
  final : run_state;
  exit_status : nat
}.

(** The [EXIT] trap.  [cleanup] (lines 12-16) ends with
    [[ -n "$CURRENT_DIR" ] && [ "$PWD" != "$CURRENT_DIR" ] && cd "$CURRENT_DIR"].
    With the shell in [$CURRENT_DIR] the second test fails, [cleanup]
    returns 1, and under [set -e] the script ends with status 1, whatever
    status it was ending with; elsewhere the [cd] succeeds and that status
    stands.  [in_current_dir] tells where the shell is when the trap
    runs. *)
Definition leave (in_current_dir : bool) (status : nat) : nat :=
  if in_current_dir then 1%nat else status.

(** The end of the script, lines 498-503: [cd "$CURRENT_DIR"], three
    messages, and the trap, which now finds the shell in
    [$CURRENT_DIR]. *)
Definition last_lines : nat := leave true 0.

(** The results a run writes, in the order it writes them. *)
Definition results (tr : list event) : list build_result :=
  omap (λ e, match e with WriteResult r => Some r | _ => None end) tr.

Definition is_attempt (e : event) : bool :=
  match e with Attempt _ => true | _ => false end.

Definition is_build (t : build_type) (e : event) : bool :=
  match e, t with
  | Build Normal, Normal | Build NoShade, NoShade
  | Build CompileOnly, CompileOnly => true
  | _, _ => false
  end.

Definition count (p : event → bool) (tr : list event) : nat :=
  length (List.filter p tr).

(** [[[ "$FILE_PATH" == *".."* ]] || [[ "$FILE_PATH" == "/"* ]]] *)
Fixpoint contains_dotdot (s : string) : bool :=
  match s with
  | String "." (String "." _ as rest) => true
  | String _ rest => contains_dotdot rest
  | EmptyString => false
  end.

Definition starts_with_slash (s : string) : bool :=
  match s with
  | String "/" _ => true
  | _ => false
  end.

Definition suspicious (path : string) : bool :=
  contains_dotdot path || starts_with_slash path.

(** Events of the body of the loop that are neither the start of an
    attempt nor a no-shade build. *)
Definition inner (e : event) : bool :=
  negb (is_attempt e) && negb (is_build NoShade e).

(** The attempts numbered [a + 1] to [a + k]. *)
Definition attempts_from (a : Z) (k : nat) : list event :=
  map (λ i, Attempt (a + Z.of_nat i)) (seq 1 k).

(** What only writes [build_result.json]. *)
Definition is_write_result (e : event) : bool :=
  match e with WriteResult _ => true | _ => false end.

(** The loop is left with [BUILD_SUCCESS = false]: every attempt the bound
    allows has run, none ended with a verified jar. *)
Definition left_without_success (r : loop_end) : bool :=
  match r with
  | LoopDone _ false => true
  | _ => false
  end.



(** The control flow around the body of the loop and the fallback block,
    lines 303-503. *)
Section Skeleton.

(** The body of the [while] loop and the fallback block. *)
Variable iteration : world → Z → run_state → iteration_end * run_state.
Variable fallback : world → run_state → outcome.

(** [while [ $AI_FIX_ATTEMPTS -lt $MAX_AI_FIX_ATTEMPTS ] &&
    [ "$BUILD_SUCCESS" = false ]]: the body starts with
    [AI_FIX_ATTEMPTS=$((AI_FIX_ATTEMPTS + 1))]; [BUILD_SUCCESS] becomes
    true only together with [break]. *)
Fixpoint fix_loop (w : world) (fuel : nat) (AI_FIX_ATTEMPTS : Z)
    (st : run_state) : loop_end * run_state :=
  match fuel with
  | O => (OutOfFuel, st)
  | S fuel' =>
      if AI_FIX_ATTEMPTS <? MAX_AI_FIX_ATTEMPTS w then
        let n := AI_FIX_ATTEMPTS + 1 in
        match iteration w n st with
        | (Continue, st') => fix_loop w fuel' n st'
        | (Break, st') => (LoopDone n true, st')
        | (Abort status, st') => (Errexit status, st')
        end
      else (LoopDone AI_FIX_ATTEMPTS false, st)
  end.

(** The state when the first build has run, [previous] being the
    [build_result.json] that was there before. *)
Definition started (previous : option build_result) : run_state :=
  emit (Build Normal) {| trace := []; result_file := previous |}.

(** The same in a plugin directory that holds no result yet. *)
Definition start : run_state := started None.

(** The loop as the script enters it, with fuel for every iteration the
    bound allows. *)
Definition fix_phase (w : world) : loop_end * run_state :=
  fix_loop w (S (Z.to_nat (MAX_AI_FIX_ATTEMPTS w))) 0
    (started (previous_result w)).

(** From the first [build_plugin "normal"] to the end of the script;
    [None] only if the loop were to run out of fuel.  The three [exit]
    commands of lines 319-328 and a command that fails inside the loop end
    the script in the plugin directory; after a successful rebuild the loop
    is left by [break] and, no [exit] following, the script runs to its
    last lines. *)
Definition script (w : world) : option outcome :=
  let st := started (previous_result w) in
  if (first_build w =? 0)%nat then
    let JAR_FILE := first_jar w in
    if negb (String.eqb JAR_FILE "") then
      if (first_verify w =? 0)%nat then
        Some {| final := write_result (succeeded JAR_FILE None false) st;
                exit_status := leave (started_inside w) 0 |}
      else
        Some {| final := write_result
                           (failed "JAR verification failed" (Some JAR_FILE))
                           st;
                exit_status := leave (started_inside w) 1 |}
    else
      Some {| final := write_result (failed "JAR file not found" None) st;
              exit_status := leave (started_inside w) 1 |}
  else
    match fix_phase w with
    | (OutOfFuel, _) => None
    | (Errexit status, st) =>
        Some {| final := st; exit_status := leave (started_inside w) status |}
    | (LoopDone _ true, st) => Some {| final := st; exit_status := last_lines |}
    | (LoopDone _ false, st) => Some (fallback w st)
    end.

End Skeleton.

End Shell.

(** ** [bash.sh] *)

Module BashSh.
Import Shell.
Local Open Scope Z_scope.

(** Lines 402-409: every returned path is written. *)
Fixpoint apply_fixes (w : world) (n : Z) (paths : list string)
    (st : run_state) : option nat * run_state :=
  match paths with
  | [] => (None, st)
  | FILE_PATH :: rest =>
      if negb (write_status w n FILE_PATH =? 0)%nat
      then (Some (write_status w n FILE_PATH), st)
      else apply_fixes w n rest (emit (Updated FILE_PATH) st)
  end.

(** Lines 341-450: the body of the loop, [n] being [AI_FIX_ATTEMPTS] after
    its increment. *)
Definition iteration (w : world) (n : Z) (st : run_state)
    : iteration_end * run_state :=
  let st := emit (Attempt n) st in
  (* BUILD_ERRORS=$(build_plugin "compile-only") *)
  let st := emit (Build CompileOnly) st in
  if negb (compile_only w n =? 0)%nat then (Abort (compile_only w n), st)
  else
    let st := emit (FixRequest n) st in
    (* if ! $VERBOSE; then spinner $CURL_PID; else wait $CURL_PID; fi *)
    if VERBOSE w && negb (curl w n =? 0)%nat then (Abort (curl w n), st)
    else if negb (status_success w n) then
      (* ERROR_MSG=$(... | jq -r '.message // "Unknown error"'); continue *)
      if negb (message_status w n =? 0)%nat
      then (Abort (message_status w n), st)
      else (Continue, st)
    else if negb (fst (fixed_count w n) =? 0)%nat
    then (Abort (fst (fixed_count w n)), st)
    else
      match apply_fixes w n (fixed_paths w n) st with
      | (Some status, st) => (Abort status, st)
      | (None, st) =>
          let st := emit (Build Normal) st in
          if (rebuild w n =? 0)%nat then
            let JAR_FILE := rebuilt_jar w n in
            if negb (String.eqb JAR_FILE "") then
              if (rebuilt_verify w n =? 0)%nat then
                (Break, write_result (succeeded JAR_FILE (Some n) false) st)
              else (Continue, st)
            else (Continue, st)
          else (Continue, st)
      end.

(** Lines 454-503: the fallback and the end of the script.  Only the
    branch of a failed no-shade build ends in [exit]; after a no-shade
    build that exits with 0 the script writes its result and runs to its
    last lines, unless the search for the jar fails under [set -e]. *)
Definition fallback (w : world) (st : run_state) : outcome :=
  let st := emit (Build NoShade) st in
  if (noshade_build w =? 0)%nat then
    let '(find_status, JAR_FILE) := noshade_jar w in
    if negb (find_status =? 0)%nat
    then {| final := st;
            exit_status := leave (started_inside w) find_status |}
    else if negb (String.eqb JAR_FILE "") then
      if (noshade_verify w =? 0)%nat then
        {| final := write_result (succeeded JAR_FILE None true) st;
           exit_status := last_lines |}
      else
        {| final := write_result
                      (failed "JAR verification failed" (Some JAR_FILE)) st;
           exit_status := last_lines |}
    else
      {| final := write_result
                    (failed "No JAR file created even with shade skipping"
                       None) st;
         exit_status := last_lines |}
  else
    {| final := write_result (failed "All build attempts failed" None) st;
       exit_status := leave (started_inside w) 1 |}.

(** Lines 303-503. *)
Definition run (w : world) : option outcome := script iteration fallback w.





(** The no-shade build yields a jar that passes the verification. *)
Definition fallback_succeeds (w : world) : bool :=
  (noshade_build w =? 0)%nat && (fst (noshade_jar w) =? 0)%nat
  && negb (String.eqb (snd (noshade_jar w)) "")
  && (noshade_verify w =? 0)%nat.

End BashSh.

(** ** The revised script *)

(** The revision ([unnamed/part_007]) checks the returned paths before it
    writes a file (lines 622-627, "Make sure path is safe").  The file as
    it stands does not run that far.  Seven [if] commands are closed by a
    brace where [fi] is due (lines 619, 627, 679, 712, 717, 745 and 746);
    bash reads the [if] command that begins at line 494, which holds the
    first build, the loop and the fallback, as a whole before it runs any
    of it, meets the brace of line 619 and gives up with a syntax error.
    [apply_fixes] is the loop of lines 621-642 as its text reads when the
    brace of line 627 is taken for the [fi] it stands for: it records the
    guard the revision means to add, not something a run of the file
    does.  [run] is what a run of the file does. *)

Module BashShRevised.
Import Shell.
Local Open Scope Z_scope.

(** Lines 622-642: a path with [..] or a leading [/] is skipped with a
    warning, the others are written. *)
Fixpoint apply_fixes (w : world) (n : Z) (paths : list string)
    (st : run_state) : option nat * run_state :=
  match paths with
  | [] => (None, st)
  | FILE_PATH :: rest =>
      if suspicious FILE_PATH
      then apply_fixes w n rest (emit (Skipped FILE_PATH) st)
      else if negb (write_status w n FILE_PATH =? 0)%nat
      then (Some (write_status w n FILE_PATH), st)
      else apply_fixes w n rest (emit (Updated FILE_PATH) st)
  end.

(** The status bash ends a script with at a syntax error. *)
Definition syntax_error : nat := 2.

(** Lines 494-753, the shell being in the plugin directory (line 241): no
    build is started and no result written; the [EXIT] trap (line 47, the
    same last command as in [bash.sh]) runs. *)
Definition run (w : world) : outcome :=
  {| final := {| trace := []; result_file := previous_result w |};
     exit_status := leave (started_inside w) syntax_error |}.

End BashShRevised.

(* ===================================================================== *)
(** * Paths: the segments behind [path.resolve], and containment *)
(* ===================================================================== *)

Module Paths.
Import JS.

(** A segment that [normalizeString] keeps as it is. *)
Definition plain (seg : list N) : Prop :=
  (47 ∉ seg) ∧ seg ≠ [] ∧ seg ≠ [46] ∧ seg ≠ [46; 46].

(** The segments of the arguments of [path.resolve]. *)
Definition resolve_parts (cwd : list N) (args : list (list N))
    : list (list N) :=
  fold_left (λ acc p,
               match p with
               | [] => acc
               | _ => if is_absolute p then [p] else acc ++ [p]
               end) args [cwd].

(** The segments of the resolved path: [resolve] joins them after the
    root. *)
Definition resolve_segments (cwd : list N) (args : list (list N))
    : list (list N) :=
  normalize_segments false [] (concat (map (split_on 47) (resolve_parts cwd args))).

(** The target is the base, or lies below it. *)
Definition within (base target : list N) : Prop :=
  target = base ∨ base = [47] ∨ ∃ rest, target = base ++ 47 :: rest.

(** The path of the entry [name] of the directory [base]. *)
Definition child (base name : list N) : list N :=
  if bool_decide (base = [47]) then 47 :: name else base ++ 47 :: name.

End Paths.

(* ===================================================================== *)
(** * Diagnostics: the lines [parseErrors] tells apart *)
(* ===================================================================== *)

Module Diagnostics.
Import JS ErrorParser.

(** White space, digits, and a text whose first character is no white
    space. *)
Definition blank (ws : list N) : Prop :=
  ws ≠ [] ∧ forallb is_white_space ws = true.

Definition digits (ds : list N) : Prop :=
  ds ≠ [] ∧ forallb is_digit ds = true.

Definition starts_black (s : list N) : Prop :=
  match s with c :: _ => is_white_space c = false | [] => False end.

(** The text of a compiler diagnostic: the tag, the path, the line and
    the optional column in brackets, the message. *)
Definition diagnostic (ws path line col ws' msg : list N) : list N :=
  js "[ERROR]" ++ ws ++ path ++ js ":[" ++ line ++ col ++ js "]" ++ ws' ++ msg.

Definition well_formed_diagnostic (ws path line col ws' msg : list N) : Prop :=
  blank ws ∧ starts_black path ∧ forallb not_colon path = true
  ∧ digits line ∧ (col = [] ∨ ∃ c, col = 44 :: c ∧ digits c)
  ∧ blank ws' ∧ starts_black msg ∧ forallb any_char msg = true.

(** A diagnostic whose file name is a property of [Object.prototype]. *)
Definition offending (raw : list N) : Prop :=
  ∃ m, js_match fileError_re (trim raw) = Some m
       ∧ inherited (basename (group m 1)) = true.

(** A trimmed line that goes to the general errors: it is not empty, is no
    file diagnostic, contains none of [pom.xml], [POM] and [maven], and
    holds [[ERROR]] or [[FATAL]]. *)
Definition general_line (l : list N) : bool :=
  match l with
  | [] => false
  | _ :: _ =>
      match js_match fileError_re l with
      | Some _ => false
      | None => negb (mentions_pom l) && has_error_marker l
      end
  end.

(** No own list under an inherited name. *)
Definition no_inherited_own (r : parsed) : Prop :=
  ∀ k, inherited k = true → fileErrors r !! k = None.

(** The exception of [undefined.push] on an inherited property. *)
Definition push_error : string :=
  "TypeError: result.fileErrors[fileName].push is not a function".

End Diagnostics.

(* ===================================================================== *)
(** * Patches: what [writeFixedFiles] is asked to write *)
(* ===================================================================== *)

Module Patches.
Import JS FileSystem FixRoute.

(** The fence of a code block. *)
Definition fence : list N := js "```".

(** Where the patch for a key lands. *)
Definition target (fs : filesys) (dir f : list N) : list N :=
  canon fs (resolve (cwd fs) [dir; f]).

(** A key that is relative and has no [..] segment. *)
Definition safe_key (f : list N) : Prop :=
  is_absolute f = false ∧ ([46; 46] ∉ split_on 47 f).

End Patches.

(* ===================================================================== *)
(** * Accounting: what a run of the script did, read off its trace *)
(* ===================================================================== *)

Module Accounting.
Import Shell.

(** A run of Maven, whatever the goal. *)
Definition is_maven (e : event) : bool :=
  match e with Build _ => true | _ => false end.

Definition is_fix_request (e : event) : bool :=
  match e with FixRequest _ => true | _ => false end.

(** What the loop over the returned files leaves in the trace. *)
Definition is_patch (e : event) : bool :=
  match e with Updated _ | Skipped _ => true | _ => false end.

(** What one pass through the body of the loop adds. *)
Definition body_adds (ok : world → Z → string → Prop)
    (iteration : world → Z → run_state → iteration_end * run_state)
    : Prop :=
  ∀ w n st, ∃ new,
    trace (iteration w n st).2 = trace st ++ Attempt n :: new
    ∧ forallb inner new = true
    ∧ (count is_maven new ≤ 2)%nat
    ∧ (count is_fix_request new ≤ 1)%nat
    ∧ (∀ p, Updated p ∈ new → ok w n p)
    ∧ match (iteration w n st).1 with
      | Continue => result_file (iteration w n st).2 = result_file st
      | Break =>
          ∃ jar, jar ≠ ""%string
                 ∧ result_file (iteration w n st).2
                   = Some (succeeded jar (Some n) false)
      | Abort status =>
          status ≠ 0%nat
          ∧ result_file (iteration w n st).2 = result_file st
      end.

(** How a run of [bash.sh] can end: at the first build, with the result
    [r] it writes; inside the loop, by a command that fails under
    [set -e]; after attempt [j], whose build gave a verified jar; or in the
    fallback block, entered in the state [st] the loop has left. *)
Inductive ending (w : world) (o : outcome) : Prop :=
| FirstBuild (r : build_result) :
    first_build w = 0%nat → fixes r = None →
    (success r = true →
     r = succeeded (first_jar w) None false
     ∧ first_jar w ≠ ""%string ∧ first_verify w = 0%nat) →
    (success r = false → first_jar w = ""%string ∨ first_verify w ≠ 0%nat) →
    final o = write_result r (started (previous_result w)) →
    exit_status o
    = leave (started_inside w) (if success r then 0 else 1)%nat →
    ending w o
| Cut (status : nat) :
    first_build w ≠ 0%nat → status ≠ 0%nat →
    (fix_phase BashSh.iteration w).1 = Errexit status →
    results (trace (final o)) = [] →
    result_file (final o) = previous_result w →
    exit_status o = leave (started_inside w) status →
    ending w o
| Fixed (j : Z) :
    first_build w ≠ 0%nat →
    (fix_phase BashSh.iteration w).1 = LoopDone j true →
    (1 ≤ j ≤ MAX_AI_FIX_ATTEMPTS w)%Z →
    count is_attempt (trace (final o)) = Z.to_nat j →
    results (trace (final o)) = [succeeded (rebuilt_jar w j) (Some j) false] →
    result_file (final o)
    = Some (succeeded (rebuilt_jar w j) (Some j) false) →
    exit_status o = last_lines →
    ending w o
| Fallback (j : Z) (st : run_state) :
    first_build w ≠ 0%nat →
    fix_phase BashSh.iteration w = (LoopDone j false, st) →
    count is_attempt (trace st) = Z.to_nat (MAX_AI_FIX_ATTEMPTS w) →
    results (trace st) = [] →
    result_file st = previous_result w →
    o = BashSh.fallback w st →
    ending w o.

End Accounting.

(* ===================================================================== *)
(** * Streams: a connection of the log route that was closed *)
(* ===================================================================== *)

Module Streams.
Import JS FileSystem LogStream.

(** A stream that was closed: it is in no set, its identity is used, and
    what it has received is [W]. *)
Definition closed_with (sid : nat) (W : list sse_event) (st : registry)
    : Prop :=
  well_formed st ∧ (sid < next_stream st)%nat
  ∧ (∀ p streams, activeStreams st !! p = Some streams → sid ∉ streams)
  ∧ received st sid = W.

End Streams.

(* ===================================================================== *)
(** * Auth: [middleware/auth.ts] *)
(* ===================================================================== *)

Module Auth.
Import JS.

(** [VALID_TOKENS]: [process.env.API_TOKEN || 'default-token'], where
    [None] is an unset variable, and the token of the build script. *)
Definition VALID_TOKENS (API_TOKEN : option (list N)) : list (list N) :=
  [match API_TOKEN with
   | Some (c :: t) => c :: t
   | Some [] | None => js "default-token"
   end;
   js "local-build-token"].

(** [authHeader && authHeader.split(' ')[1]]; [None] is [undefined]. *)
Definition bearer (authHeader : option (list N)) : option (list N) :=
  match authHeader with
  | None => None
  | Some [] => Some []
  | Some (c :: h) => split_on 32 (c :: h) !! 1%nat
  end.

Inductive verdict :=
| Unauthorized      (* 401, 'Authentication required: No token provided' *)
| Forbidden         (* 403, 'Authentication failed: Invalid or expired token' *)
| Next.             (* [next()] *)

(** [authenticateToken(req, res, next)], by the [authorization] header of
    the request. *)
Definition authenticateToken (API_TOKEN authHeader : option (list N))
    : verdict :=
  match bearer authHeader with
  | None | Some [] => Unauthorized
  | Some (c :: t) =>
      if bool_decide (c :: t ∈ VALID_TOKENS API_TOKEN) then Next
      else Forbidden
  end.

End Auth.

(* ===================================================================== *)
(** * App: routes behind the middleware, and the client of the fix route
      in the build route with automatic fixes *)
(* ===================================================================== *)

Module App.
Import JS FileSystem FixRoute Auth.

Record http_request := {
  authorization : option (list N);
  body : jsvalue
}.

Record http_response := {
  status_code : nat;
  json : jsvalue
}.

(** [v[key]] for a key that [Object.prototype] does not hold. *)
Definition field (key : string) (v : jsvalue) : jsvalue :=
  match v with
  | VObject fields =>
      match list_find (λ kv, kv.1 = js key) fields with
      | Some (_, (_, x)) => x
      | None => VUndefined
      end
  | _ => VUndefined
  end.

Section Mount.

Variable API_TOKEN : option (list N).

(** [app.use(path, authenticateToken, route)]: the route sees the request
    only after [next()]. *)
Definition guarded (route : filesys → jsvalue → http_response * filesys)
    (fs : filesys) (req : http_request) : http_response * filesys :=
  match authenticateToken API_TOKEN (authorization req) with
  | Unauthorized =>
      ({| status_code := 401;
          json := VObject
                    [(js "success", VBool false);
                     (js "message",
                      VString (js "Authentication required: No token provided"))] |},
       fs)
  | Forbidden =>
      ({| status_code := 403;
          json := VObject
                    [(js "success", VBool false);
                     (js "message",
                      VString (js "Authentication failed: Invalid or expired token"))] |},
       fs)
  | Next => route fs (body req)
  end.

Variable fixer : nat → prompt → completion (list N).

(** The fix route as a route: the fields of the body, and the answer as
    status and JSON. *)
Definition fix_route (fs : filesys) (body : jsvalue)
    : http_response * filesys :=
  let '(r, fs') :=
    post_fix fixer fs {| buildErrors := field "buildErrors" body;
                         files := field "files" body;
                         pluginDir := field "pluginDir" body |} in
  (match r with
   | BadRequest =>
       {| status_code := 400;
          json := VObject
                    [(js "status", VString (js "error"));
                     (js "message",
                      VString (js "Build errors and files are required"))] |}
   | Fixed filesWritten data =>
       {| status_code := 200;
          json := VObject
                    [(js "status", VString (js "success"));
                     (js "message",
                      VString (js "Fixed "
                                 ++ js (NilZero.string_of_uint
                                          (Nat.to_uint (length data)))
                                 ++ js " files"));
                     (js "filesWritten", VBool filesWritten);
                     (js "data",
                      VObject (map (λ e, (e.1, VString e.2)) data))] |}
   | ServerError e =>
       {| status_code := 500;
          json := VObject
                    [(js "status", VString (js "error"));
                     (js "message", VString (js "Failed to fix code"));
                     (js "error", VString (js e))] |}
   end, fs').

(** [app.use('/api/fix', authenticateToken, fixRoute)] *)
Definition api_fix : filesys → http_request → http_response * filesys :=
  guarded fix_route.

End Mount.

(** [path.relative(from, to)]: as many [..] as [from] has segments past
    the common ones, then the remaining segments of [to]. *)
Fixpoint common_prefix (a b : list (list N)) : nat :=
  match a, b with
  | x :: a', y :: b' =>
      if bool_decide (x = y) then S (common_prefix a' b') else 0%nat
  | _, _ => 0%nat
  end.

Definition segments_of (cwd p : list N) : list (list N) :=
  normalize_segments false []
    (concat (map (split_on 47)
               (match p with
                | [] => [cwd]
                | _ => if is_absolute p then [p] else [cwd; p]
                end))).

Definition relative (cwd from to : list N) : list N :=
  let f := segments_of cwd from in
  let t := segments_of cwd to in
  let n := common_prefix f t in
  join_with 47 (replicate (length f - n) (js "..") ++ drop n t).

Section AttemptFix.

(** [getAllFiles(pluginDir)]: the source and configuration files below the
    directory, in the order [readdirSync] lists them; the names end in one
    of four extensions and are no array indices. *)
Variable getAllFiles : filesys → list N → completion (list (list N)).

(** The server [axios.post] reaches at the address of the fix route;
    [None] when no answer comes back. *)
Variable serve : filesys → http_request → option (http_response * filesys).

(** The loop over [allFiles]: a file that cannot be read is left out. *)
Fixpoint read_all (fs : filesys) (pluginDir : list N)
    (allFiles : list (list N)) (filesContent : list (list N * jsvalue))
    : list (list N * jsvalue) :=
  match allFiles with
  | [] => filesContent
  | filePath :: rest =>
      match readFileSync fs filePath with
      | Returns content =>
          read_all fs pluginDir rest
            (assign (relative (cwd fs) pluginDir filePath) (VString content)
               filesContent)
      | Throws _ => read_all fs pluginDir rest filesContent
      end
  end.

(** [attemptFix(pluginDir, buildErrors)].  The request carries no
    [Authorization] header; a status outside 200..299 makes [axios.post]
    throw, and every exception is answered with [false]. *)
Definition attemptFix (fs : filesys) (pluginDir buildErrors : list N)
    : bool * filesys :=
  match getAllFiles fs pluginDir with
  | Throws _ => (false, fs)
  | Returns allFiles =>
      let filesContent := read_all fs pluginDir allFiles [] in
      match serve fs {| authorization := None;
                        body := VObject
                                  [(js "buildErrors", VString buildErrors);
                                   (js "files", VObject filesContent);
                                   (js "pluginDir", VString pluginDir)] |} with
      | None => (false, fs)
      | Some (response, fs') =>
          if negb ((200 <=? status_code response)%nat
                   && (status_code response <? 300)%nat) then (false, fs')
          else
            match json response with
            | VUndefined | VNull => (false, fs')
            | data =>
                match field "status" data with
                | VString status =>
                    if bool_decide (status = js "success") then
                      match field "data" data with
                      | VUndefined | VNull => (false, fs')
                      | _ => (true, fs')
                      end
                    else (false, fs')
                | _ => (false, fs')
                end
            end
      end
  end.

End AttemptFix.

End App.

(* ===================================================================== *)
(** * FirstFixRoute: the POST handler of [routes/fix.ts] *)
(* ===================================================================== *)

Module FirstFixRoute.
Import JS FixRoute.

(** The two templates, with the values interpolated into them. *)
Inductive prompt :=
| JavaPrompt (content buildErrors : jsvalue)
| PomPrompt (pom buildErrors : jsvalue).

Inductive response :=
| BadRequest                                (* 400, status 'error' *)
| Fixed (data : list (list N * list N))     (* 200, status 'success' *)
| ServerError (reason : string).            (* 500, status 'error' *)

(** [buildErrors.includes(name)]: the method of a string or of an array;
    no other value of a JSON body has one. *)
Definition mentions (buildErrors : jsvalue) (name : list N)
    : completion bool :=
  match buildErrors with
  | VString s => Returns (includes s name)
  | VArray l =>
      Returns (existsb (λ v, match v with
                             | VString x => bool_decide (x = name)
                             | _ => false
                             end) l)
  | _ => Throws "TypeError: buildErrors.includes is not a function"
  end.

Section Handler.

(** The generative model, as for the later route: the answer to the
    [n]-th call of a request, or an exception. *)
Variable fixer : nat → prompt → completion (list N).

(** The loop over [Object.entries(files)]: nothing catches an exception
    here. *)
Fixpoint fix_java (buildErrors : jsvalue) (todo : list (list N * jsvalue))
    (calls : nat) (fixedFiles : list (list N * list N))
    : completion (nat * list (list N * list N)) :=
  match todo with
  | [] => Returns (calls, fixedFiles)
  | (filename, content) :: rest =>
      if negb (ends_with filename (js ".java")) then
        fix_java buildErrors rest calls fixedFiles
      else
        match mentions buildErrors filename with
        | Throws e => Throws e
        | Returns false => fix_java buildErrors rest calls fixedFiles
        | Returns true =>
            match fixer calls (JavaPrompt content buildErrors) with
            | Throws e => Throws e
            | Returns fixedContent =>
                fix_java buildErrors rest (S calls)
                  (assign filename fixedContent fixedFiles)
            end
        end
  end.

(** [router.post('/')] *)
Definition post_fix (buildErrors files : jsvalue) : response :=
  if negb (truthy buildErrors) || negb (truthy files) then BadRequest
  else
    match fix_java buildErrors (entries files) 0 [] with
    | Throws e => ServerError e
    | Returns (calls, fixedFiles) =>
        match mentions buildErrors (js "pom.xml") with
        | Throws e => ServerError e
        | Returns mentioned =>
            if mentioned && truthy (App.field "pom.xml" files) then
              match fixer calls
                      (PomPrompt (App.field "pom.xml" files) buildErrors) with
              | Throws e => ServerError e
              | Returns fixedPom =>
                  Fixed (assign (js "pom.xml") fixedPom fixedFiles)
              end
            else Fixed fixedFiles
        end
    end.

End Handler.

End FirstFixRoute.

(* ===================================================================== *)
(** * BuildRoute: the POST handler of [routes/build.ts] and the handlers
      it installs on the build process *)
(* ===================================================================== *)

Module BuildRoute.
Import JS FileSystem.

Inductive build_response :=
| DirectoryRequired                   (* 400, 'Plugin directory is required' *)
| DirectoryNotFound                   (* 404, 'Plugin directory not found' *)
| PomNotFound                         (* 400, 'No pom.xml found ...' *)
| BuildStarted (pluginDir : list N)   (* 200, 'Build process started' *)
| BuildFailed (reason : string).      (* 500, 'Internal server error' *)

(** How an event handler ends: the file system it leaves, and the exception
    that escaped it, if one did. *)
Record handled := {
  escaped : option string;
  disk : filesys
}.

(** [`${code}`] for the exit code of a process, [null] when a signal ended
    it. *)
Definition code_text (code : option Z) : list N :=
  match code with
  | Some z => js (NilZero.string_of_int (Z.to_int z))
  | None => js "null"
  end.

Definition code_value (code : option Z) : jsvalue :=
  match code with
  | Some z => VNumber z
  | None => VNull
  end.

Section Handlers.

(** [JSON.stringify] *)
Variable JSON_stringify : jsvalue → list N.

(** [fs.readdirSync(dir)]: the names in the directory, in the order the
    system lists them. *)
Variable readdirSync : filesys → list N → completion (list (list N)).

(** [router.post('/')] up to the response; [time] is
    [new Date().toISOString()]. *)
Definition post_build (fs : filesys) (pluginDir : jsvalue) (time : list N)
    : build_response * filesys :=
  if negb (truthy pluginDir) then (DirectoryRequired, fs)
  else
    match pluginDir with
    | VString dir =>
        if negb (existsSync fs dir) then (DirectoryNotFound, fs)
        else if negb (existsSync fs (join [dir; js "pom.xml"])) then
          (PomNotFound, fs)
        else
          match writeFileSync fs (join [dir; js "build_status.json"])
                  (JSON_stringify
                     (VObject [(js "status", VString (js "in_progress"));
                               (js "startTime", VString time);
                               (js "pluginDir", VString dir)])) with
          | Returns fs' => (BuildStarted dir, fs')
          | Throws e => (BuildFailed e, fs)
          end
    | _ => (DirectoryNotFound, fs)  (* [existsSync] of a non-string *)
    end.

(** The search for the jar in the ['close'] handler. *)
Definition find_jar (fs : filesys) (pluginDir : list N)
    : completion (list N) :=
  let targetDir := join [pluginDir; js "target"] in
  if existsSync fs targetDir then
    match readdirSync fs targetDir with
    | Throws e => Throws e
    | Returns files =>
        match List.filter
                (λ file, ends_with file (js ".jar")
                         && negb (includes file (js "original"))) files with
        | [] => Returns []
        | jar :: _ => Returns (join [targetDir; jar])
        end
    end
  else Returns [].

(** The result the ['close'] handler writes when the script left none. *)
Definition minimal_result (pluginDir : list N) (code : option Z)
    (jarPath : list N) : jsvalue :=
  match code with
  | Some 0%Z =>
      VObject [(js "success", VBool true);
               (js "jarPath", VString jarPath);
               (js "message", VString (js "Build completed successfully"))]
  | _ =>
      VObject [(js "success", VBool false);
               (js "error",
                VString (js "Build failed with exit code " ++ code_text code));
               (js "buildLog", VString (join [pluginDir; js "build.log"]))]
  end.

Definition final_status (code : option Z) (time : list N) : jsvalue :=
  match code with
  | Some 0%Z =>
      VObject [(js "status", VString (js "completed"));
               (js "success", VBool true);
               (js "endTime", VString time)]
  | _ =>
      VObject [(js "status", VString (js "failed"));
               (js "success", VBool false);
               (js "exitCode", code_value code);
               (js "endTime", VString time)]
  end.

(** [buildProcess.on('close', (code) => ...)] *)
Definition on_close (fs : filesys) (pluginDir : list N) (code : option Z)
    (time : list N) : handled :=
  let buildResultPath := join [pluginDir; js "build_result.json"] in
  let statusFilePath := join [pluginDir; js "build_status.json"] in
  let result_written :=
    if negb (existsSync fs buildResultPath) then
      match (match code with
             | Some 0%Z => find_jar fs pluginDir
             | _ => Returns []
             end) with
      | Throws e => Throws e
      | Returns jarPath =>
          writeFileSync fs buildResultPath
            (JSON_stringify (minimal_result pluginDir code jarPath))
      end
    else Returns fs in
  match result_written with
  | Throws e => {| escaped := Some e; disk := fs |}
  | Returns fs1 =>
      match writeFileSync fs1 statusFilePath
              (JSON_stringify (final_status code time)) with
      | Throws e => {| escaped := Some e; disk := fs1 |}
      | Returns fs2 => {| escaped := None; disk := fs2 |}
      end
  end.

(** [buildProcess.on('error', (err) => ...)] *)
Definition on_error (fs : filesys) (pluginDir : list N) (message time : list N)
    : handled :=
  match writeFileSync fs (join [pluginDir; js "build_status.json"])
          (JSON_stringify
             (VObject [(js "status", VString (js "failed"));
                       (js "success", VBool false);
                       (js "error", VString message);
                       (js "endTime", VString time)])) with
  | Throws e => {| escaped := Some e; disk := fs |}
  | Returns fs1 =>
      match writeFileSync fs1 (join [pluginDir; js "build_result.json"])
              (JSON_stringify
                 (VObject [(js "success", VBool false);
                           (js "error", VString message)])) with
      | Throws e => {| escaped := Some e; disk := fs1 |}
      | Returns fs2 => {| escaped := None; disk := fs2 |}
      end
  end.

End Handlers.

(** A file system that differs from an earlier one by one written file. *)
Definition one_written (fs fs' : filesys) (q : list N) : Prop :=
  cwd fs' = cwd fs ∧ dirs fs' = dirs fs
  ∧ ∃ text, regular_files fs' = <[q := text]> (regular_files fs).

End BuildRoute.

(* ===================================================================== *)
(** * Startup: the command line of [bash.sh] *)
(* ===================================================================== *)

Module Startup.

(** The variables the command line sets.  The values of the options are
    kept as the words given: nothing checks that they are numbers. *)
Record settings := {
  PLUGIN_DIR : string;
  TOKEN : string;
  API_HOST : string;
  VERBOSE : bool;
  coloured : bool;
  MAX_AI_FIX_ATTEMPTS : string;
  MAVEN_PARALLEL : string;
  API_TIMEOUT : string
}.

(** The [while [[ $# -gt 0 ]]] over the words that follow the third
    argument; [None] is [exit 1], be it from the branch of an unknown
    option or from [shift 2] when the value is missing. *)
Fixpoint parse_options (words : list string) (s : settings)
    : option settings :=
  match words with
  | [] => Some s
  | w :: rest =>
      if decide (w = "--verbose") then
        parse_options rest
          {| PLUGIN_DIR := PLUGIN_DIR s; TOKEN := TOKEN s;
             API_HOST := API_HOST s; VERBOSE := true;
             coloured := coloured s;
             MAX_AI_FIX_ATTEMPTS := MAX_AI_FIX_ATTEMPTS s;
             MAVEN_PARALLEL := MAVEN_PARALLEL s;
             API_TIMEOUT := API_TIMEOUT s |}
      else if decide (w = "--no-color") then
        parse_options rest
          {| PLUGIN_DIR := PLUGIN_DIR s; TOKEN := TOKEN s;
             API_HOST := API_HOST s; VERBOSE := VERBOSE s;
             coloured := false;
             MAX_AI_FIX_ATTEMPTS := MAX_AI_FIX_ATTEMPTS s;
             MAVEN_PARALLEL := MAVEN_PARALLEL s;
             API_TIMEOUT := API_TIMEOUT s |}
      else if decide (w = "--max-attempts") then
        match rest with
        | v :: rest' =>
            parse_options rest'
              {| PLUGIN_DIR := PLUGIN_DIR s; TOKEN := TOKEN s;
                 API_HOST := API_HOST s; VERBOSE := VERBOSE s;
                 coloured := coloured s; MAX_AI_FIX_ATTEMPTS := v;
                 MAVEN_PARALLEL := MAVEN_PARALLEL s;
                 API_TIMEOUT := API_TIMEOUT s |}
        | [] => None
        end
      else if decide (w = "--parallel") then
        match rest with
        | v :: rest' =>
            parse_options rest'
              {| PLUGIN_DIR := PLUGIN_DIR s; TOKEN := TOKEN s;
                 API_HOST := API_HOST s; VERBOSE := VERBOSE s;
                 coloured := coloured s;
                 MAX_AI_FIX_ATTEMPTS := MAX_AI_FIX_ATTEMPTS s;
                 MAVEN_PARALLEL := v;
                 API_TIMEOUT := API_TIMEOUT s |}
        | [] => None
        end
      else if decide (w = "--timeout") then
        match rest with
        | v :: rest' =>
            parse_options rest'
              {| PLUGIN_DIR := PLUGIN_DIR s; TOKEN := TOKEN s;
                 API_HOST := API_HOST s; VERBOSE := VERBOSE s;
                 coloured := coloured s;
                 MAX_AI_FIX_ATTEMPTS := MAX_AI_FIX_ATTEMPTS s;
                 MAVEN_PARALLEL := MAVEN_PARALLEL s;
                 API_TIMEOUT := v |}
        | [] => None
        end
      else None
  end.

(** The script from the check of the tools to the end of the option loop.
    [missing] are the required tools that are not installed, [cores] is
    what the probe for the number of processors printed. *)
Definition startup (missing : list string) (cores : string)
    (args : list string) : option settings :=
  match missing with
  | _ :: _ => None
  | [] =>
      match args with
      | dir :: token :: rest =>
          parse_options (drop 1 rest)
            {| PLUGIN_DIR := dir; TOKEN := token;
               API_HOST := match rest with
                           | [] | ""%string :: _ => "http://localhost:3001"
                           | host :: _ => host
                           end;
               VERBOSE := false; coloured := true;
               MAX_AI_FIX_ATTEMPTS := "5";
               MAVEN_PARALLEL := cores;
               API_TIMEOUT := "600" |}
      | _ => None          (* the usage text *)
      end
  end.

(** The options as a caller means them. *)
Inductive option_given :=
| Verbose
| NoColor
| MaxAttempts (n : string)
| Parallel (n : string)
| Timeout (n : string).

Definition words_of (o : option_given) : list string :=
  match o with
  | Verbose => ["--verbose"]
  | NoColor => ["--no-color"]
  | MaxAttempts n => ["--max-attempts"; n]
  | Parallel n => ["--parallel"; n]
  | Timeout n => ["--timeout"; n]
  end%string.

Definition set_option (s : settings) (o : option_given) : settings :=
  {| PLUGIN_DIR := PLUGIN_DIR s; TOKEN := TOKEN s; API_HOST := API_HOST s;
     VERBOSE := match o with Verbose => true | _ => VERBOSE s end;
     coloured := match o with NoColor => false | _ => coloured s end;
     MAX_AI_FIX_ATTEMPTS :=
       match o with MaxAttempts n => n | _ => MAX_AI_FIX_ATTEMPTS s end;
     MAVEN_PARALLEL := match o with Parallel n => n | _ => MAVEN_PARALLEL s end;
     API_TIMEOUT := match o with Timeout n => n | _ => API_TIMEOUT s end |}.

End Startup.

(* ===================================================================== *)
(** * Concrete inputs used below *)
(* ===================================================================== *)

Module FixRouteExample.
Import JS ErrorParser FileSystem FixRoute.

Definition fixer (n : nat) (p : prompt) : completion (list N) :=
  match p with
  | PluginYmlPrompt _ _ => Throws "503"
  | _ => Returns (js "```java
class A {}
```")
  end.

Definition disk : filesys :=
  {| cwd := js "/srv/app"; dirs := {[ js "/"; js "/srv"; js "/srv/app" ]};
     regular_files := ∅ |}.

Definition req : request :=
  {| buildErrors :=
       VString (js "[ERROR] /srv/p/src/A.java:[3,9] cannot find symbol
[ERROR] /srv/p/notes.txt:[1,1] stray
[INFO] done");
     files :=
       VObject [(js "src/A.java", VString (js "class A {"));
                (js "src/B.java", VString (js "class B {}"));
                (js "notes.txt", VString (js "n"));
                (js "plugin.yml", VString (js "name: p"));
                (js "pom.xml", VString (js "<project/>"))];
     pluginDir := VUndefined |}.

(** A request whose file map names one file above the project directory
    and one by an absolute path. *)
Definition escaping_request : request :=
  {| buildErrors :=
       VString (js "[ERROR] /srv/outside/Evil.java:[1,1] boom");
     files :=
       VObject [(js "../../outside/Evil.java", VString (js "class Evil {"));
                (js "/tmp/pom.xml", VString (js "<project>"))];
     pluginDir := VString (js "/srv/app/demo") |}.

End FixRouteExample.

Module StatusExample.
Import JS FileSystem.

(** A server directory without any project in it. *)
Definition bare : filesys :=
  {| cwd := js "/srv/app"; dirs := {[ js "/"; js "/srv"; js "/srv/app" ]};
     regular_files := ∅ |}.

(** The same with a freshly created project [demo]. *)
Definition fresh : filesys :=
  {| cwd := js "/srv/app";
     dirs := {[ js "/"; js "/srv"; js "/srv/app"; js "/srv/app/demo" ]};
     regular_files := {[ js "/srv/app/demo/pom.xml" := js "<project/>" ]} |}.

Definition JSON_parse (text : list N) : option jsvalue := None.

End StatusExample.

Module LogExample.
Import JS FileSystem LogStream.

Definition clock (n : nat) : list N := js "2025-01-01T00:00:00.000Z".

(** Two subscribers of [demo] connect, the first one leaves. *)
Definition history : list (filesys * event) :=
  [(StatusExample.fresh, Connect (js "demo"));
   (StatusExample.fresh, Connect (js "demo"));
   (StatusExample.fresh, Disconnect 0%nat)].

(** A message the build route broadcasts without appending it to the
    log. *)
Definition announcement : list N :=
  js "Build failed. Attempting to fix issues automatically...".


(** One chunk of build output with a blank line in it. *)
Definition chunk : list N := js "compiling
   
done
".



End LogExample.

Module ScriptExample.
Import Shell.

(** The packaging fails although the sources compile, the fix API answers
    every request with an error, and the build without shading works. *)
Definition stubborn : world :=
  {| VERBOSE := true;
     MAX_AI_FIX_ATTEMPTS := default_max_attempts;
     previous_result := None;
     started_inside := false;
     first_build := 1;
     first_jar := "";
     first_verify := 1;
     compile_only := λ _, 0%nat;
     curl := λ _, 0%nat;
     status_success := λ _, false;
     message_status := λ _, 0%nat;
     fixed_count := λ _, (0%nat, 0%Z);
     fixed_paths := λ _, [];
     write_status := λ _ _, 0%nat;
     rebuild := λ _, 1%nat;
     rebuilt_jar := λ _, ""%string;
     rebuilt_verify := λ _, 1%nat;
     noshade_build := 0;
     noshade_jar := (0%nat, "target/demo-1.0.jar"%string);
     noshade_verify := 0 |}.

(** The API returns a patch set with one path inside the project, one that
    climbs out of it and an absolute one. *)
Definition escaping : world :=
  {| VERBOSE := true;
     MAX_AI_FIX_ATTEMPTS := 1;
     previous_result := None;
     started_inside := false;
     first_build := 1;
     first_jar := "";
     first_verify := 1;
     compile_only := λ _, 0%nat;
     curl := λ _, 0%nat;
     status_success := λ _, true;
     message_status := λ _, 0%nat;
     fixed_count := λ _, (0%nat, 3%Z);
     fixed_paths := λ _, ["../../outside/Evil.java"; "/etc/cron.d/job";
                          "src/main/java/A.java"]%string;
     write_status := λ _ _, 0%nat;
     rebuild := λ _, 1%nat;
     rebuilt_jar := λ _, ""%string;
     rebuilt_verify := λ _, 1%nat;
     noshade_build := 1;
     noshade_jar := (0%nat, ""%string);
     noshade_verify := 1 |}.

(** The sources do not compile, and one fix attempt is allowed. *)
Definition broken : world :=
  {| VERBOSE := true;
     MAX_AI_FIX_ATTEMPTS := 1;
     previous_result := None;
     started_inside := false;
     first_build := 1;
     first_jar := "";
     first_verify := 1;
     compile_only := λ _, 1%nat;
     curl := λ _, 0%nat;
     status_success := λ _, true;
     message_status := λ _, 0%nat;
     fixed_count := λ _, (0%nat, 1%Z);
     fixed_paths := λ _, ["src/main/java/A.java"]%string;
     write_status := λ _ _, 0%nat;
     rebuild := λ _, 0%nat;
     rebuilt_jar := λ _, "target/demo-1.0.jar"%string;
     rebuilt_verify := λ _, 0%nat;
     noshade_build := 0;
     noshade_jar := (0%nat, "target/demo-1.0.jar"%string);
     noshade_verify := 0 |}.

(** The packaging fails although the sources compile; the fix API answers
    four requests with an error and cannot be reached for the fifth
    ([curl] exits with 7). *)
Definition unreachable : world :=
  {| VERBOSE := true;
     MAX_AI_FIX_ATTEMPTS := default_max_attempts;
     previous_result := None;
     started_inside := false;
     first_build := 1;
     first_jar := "";
     first_verify := 1;
     compile_only := λ _, 0%nat;
     curl := λ n, if (n =? 5)%Z then 7%nat else 0%nat;
     status_success := λ _, false;
     message_status := λ _, 0%nat;
     fixed_count := λ _, (0%nat, 0%Z);
     fixed_paths := λ _, [];
     write_status := λ _ _, 0%nat;
     rebuild := λ _, 1%nat;
     rebuilt_jar := λ _, ""%string;
     rebuilt_verify := λ _, 1%nat;
     noshade_build := 0;
     noshade_jar := (0%nat, "target/demo-1.0.jar"%string);
     noshade_verify := 0 |}.

End ScriptExample.

Module PatchExample.
Import JS FileSystem.

Definition patches : list (list N * list N) :=
  [(js "src/A.java", js "class A {}"); (js "pom.xml", js "<project/>")].
(** The second patch cannot be written: its name is a directory. *)
Definition blocked : list (list N * list N) :=
  [(js "pom.xml", js "<project/>"); (js "src", js "class A {}");
   (js "plugin.yml", js "name: Demo")].
Definition project : filesys :=
  {| cwd := js "/srv/app";
     dirs := {[ js "/"; js "/srv"; js "/srv/app"; js "/srv/app/p";
                js "/srv/app/p/src" ]};
     regular_files := ∅ |}.
End PatchExample.

Module FurtherScripts.
Import Shell.

(** A project that was built before: the result of that build is still
    there, the first fix does not help and the second repairs the build. *)
Definition rerun : world :=
  {| VERBOSE := true;
     MAX_AI_FIX_ATTEMPTS := default_max_attempts;
     previous_result := Some (succeeded "target/demo-0.9.jar" (Some 4%Z) false);
     started_inside := false;
     first_build := 1;
     first_jar := "";
     first_verify := 1;
     compile_only := λ _, 0%nat;
     curl := λ _, 0%nat;
     status_success := λ _, true;
     message_status := λ _, 0%nat;
     fixed_count := λ _, (0%nat, 1%Z);
     fixed_paths := λ _, ["src/main/java/A.java"]%string;
     write_status := λ _ _, 0%nat;
     rebuild := λ n, if (n =? 2)%Z then 0%nat else 1%nat;
     rebuilt_jar := λ _, "target/demo-1.0.jar"%string;
     rebuilt_verify := λ _, 0%nat;
     noshade_build := 0;
     noshade_jar := (0%nat, "target/demo-1.0.jar"%string);
     noshade_verify := 0 |}.

End FurtherScripts.

Module BuildExample.
Import JS FileSystem.

(** A serialiser that tells the results apart by their [success] field. *)
Definition JSON_stringify (v : jsvalue) : list N :=
  match v with
  | VObject ((_, VBool true) :: _) => js "{ok}"
  | VObject ((_, VBool false) :: _) => js "{failed}"
  | _ => js "{}"
  end.

Definition JSON_parse (text : list N) : option jsvalue :=
  Some (VString text).

(** A parser that reads back the failure result [JSON_stringify] writes
    for the project [demo] and the exit code 1. *)
Definition read_back (text : list N) : option jsvalue :=
  if bool_decide (text = js "{failed}") then
    Some (VObject
            [(js "success", VBool false);
             (js "error", VString (js "Build failed with exit code 1"));
             (js "buildLog", VString (js "/srv/app/demo/build.log"))])
  else Some (VString text).

Definition readdirSync (fs : filesys) (dir : list N)
    : completion (list (list N)) := Returns [].

(** The project [demo] with the result of an earlier build. *)
Definition rebuilt : filesys :=
  {| cwd := js "/srv/app";
     dirs := {[ js "/"; js "/srv"; js "/srv/app"; js "/srv/app/demo" ]};
     regular_files :=
       {[ js "/srv/app/demo/pom.xml" := js "<project/>";
          js "/srv/app/demo/build_result.json" := js "{old}" ]} |}.

End BuildExample.

Module FirstFixExample.
Import JS FirstFixRoute.

Definition fixer (n : nat) (p : prompt) : completion (list N) :=
  Returns (js "class A {}").

Definition errors : list N :=
  js "[ERROR] /srv/p/src/A.java:[3,9] cannot find symbol".

Definition files : jsvalue :=
  VObject [(js "src/A.java", VString (js "class A {"));
           (js "src/B.java", VString (js "class B {}"));
           (js "pom.xml", VString (js "<project/>"))].

End FirstFixExample.

(* ===================================================================== *)
(** * Properties of the error parser *)
(* ===================================================================== *)

Section ErrorParserFacts.
Import JS ErrorParser.

(** C4: parsing the single line
    "[ERROR] Foo.java:[12,4] cannot find symbol" returns normally, with
    ["Line 12: cannot find symbol"] as the whole list under the key
    [Foo.java], no other key, and no general error. *)
Theorem parse_single_diagnostic :
  parseErrors (VString (js "[ERROR] Foo.java:[12,4] cannot find symbol"))
  = Returns {| fileErrors :=
                 {[ js "Foo.java" := [js "Line 12: cannot find symbol"] ]};
               generalErrors := [] |}.
Proof. vm_compute. reflexivity. Qed.

(** C5: an input that is not a string, or the empty string, gives the
    empty result, and the call returns (it does not throw). *)
Theorem parse_non_string_or_empty (buildErrors : jsvalue) :
  is_string buildErrors = false ∨ buildErrors = VString [] →
  parseErrors buildErrors = Returns empty_result.
Proof.
  intros [Hns | ->].
  - destruct buildErrors; try reflexivity. discriminate Hns.
  - reflexivity.
Qed.

Lemma parse_non_string_or_empty_witness :
  parseErrors (VNumber 7) = Returns empty_result
  ∧ parseErrors (VObject [(js "a", VNull)]) = Returns empty_result
  ∧ parseErrors (VString []) = Returns empty_result.
Proof.
  split; [| split].
  - apply parse_non_string_or_empty. left. reflexivity.
  - apply parse_non_string_or_empty. left. reflexivity.
  - apply parse_non_string_or_empty. right. reflexivity.
Defined.

Lemma mentions_pom_nonempty (line : list N) :
  mentions_pom line = true → line ≠ [].
Proof. intros H ->. vm_compute in H. discriminate H. Qed.

(** The claim of C8 read to the letter fails: a tag in the middle of a line
    is removed as well, so what is stored is not the line with only a
    leading prefix stripped. *)
Lemma pom_line_leading_prefix_counterexample :
  ∃ r, process_line empty_result (js "maven [ERROR] x") = Returns r
       ∧ fileErrors r !! js "pom.xml" = Some [js "maven x"]
       ∧ js "maven x" ≠ strip_leading_error_prefix (js "maven [ERROR] x").
Proof.
  eexists. split; [vm_compute; reflexivity |].
  split; [vm_compute; reflexivity |].
  vm_compute. discriminate.
Qed.

(** C8 (amended): a line that, once trimmed, does not match the structured
    diagnostic pattern and mentions [pom.xml], [POM] or [maven] is appended
    to the list under the key [pom.xml], after the first occurrence of
    [\[ERROR\]] followed by white space, wherever it stands, is removed
    from it; the general errors are left as they are.  No error or fatal
    marker is asked for. *)
Theorem pom_line_bucketed (result : parsed) (raw : list N) :
  js_match fileError_re (trim raw) = None →
  mentions_pom (trim raw) = true →
  process_line result raw
  = Returns
      {| fileErrors :=
           <[js "pom.xml" :=
               default [] (fileErrors result !! js "pom.xml")
                 ++ [replace error_tag_re [] (trim raw)]]>
             (fileErrors result);
         generalErrors := generalErrors result |}.
Proof.
  intros Hno Hpom. unfold process_line.
  pose proof (mentions_pom_nonempty _ Hpom) as Hne.
  destruct (trim raw) as [| c line] eqn:Htrim; [done |].
  rewrite Hno, Hpom. unfold push_under, get.
  destruct (fileErrors result !! js "pom.xml") as [arr |]; reflexivity.
Qed.

Lemma pom_line_bucketed_witness :
  process_line empty_result (js "  [INFO] Scanning for maven projects  ")
  = Returns
      {| fileErrors :=
           <[js "pom.xml" :=
               default [] (fileErrors empty_result !! js "pom.xml")
                 ++ [replace error_tag_re []
                       (trim (js "  [INFO] Scanning for maven projects  "))]]>
             (fileErrors empty_result);
         generalErrors := generalErrors empty_result |}.
Proof.
  apply pom_line_bucketed; vm_compute; reflexivity.
Defined.

End ErrorParserFacts.

(* ===================================================================== *)
(** * Properties of the fix route *)
(* ===================================================================== *)

Section FixRouteFacts.
Import JS ErrorParser FileSystem FixRoute.

Variable fixer : nat → prompt → completion (list N).

Lemma assign_keys {A} (key : list N) (v : A) (obj : list (list N * A)) k :
  k ∈ (assign key v obj).*1 → k = key ∨ k ∈ obj.*1.
Proof.
  induction obj as [| [k0 x] rest IH]; simpl.
  - intros Hk. apply list_elem_of_singleton in Hk. by left.
  - case_bool_decide; simpl; intros Hk; apply elem_of_cons in Hk.
    + destruct Hk as [-> | Hk]; right; [left | by right].
    + destruct Hk as [-> | Hk]; [right; left |].
      destruct (IH Hk) as [-> | Hin]; [by left | right; by right].
Qed.

Lemma choose_prompt_patchable parsedErrors filename content p :
  choose_prompt parsedErrors filename content = Some p →
  patchable parsedErrors filename.
Proof.
  unfold choose_prompt, patchable. intros H.
  destruct (errors_for parsedErrors (basename filename)) as [| e es] eqn:He;
    simpl in H.
  - destruct (ends_with filename (js "pom.xml")) eqn:Hpom; simpl in H;
      [| discriminate H].
    split; [right; by left | by right].
  - split; [| by left].
    destruct (ends_with filename (js ".java")); [by left |].
    destruct (ends_with filename (js "pom.xml")); [right; by left |].
    destruct (ends_with filename (js "plugin.yml")); [right; by right |].
    discriminate H.
Qed.

Lemma fix_files_keys parsedErrors todo calls fixedFiles k :
  k ∈ (fix_files fixer parsedErrors todo calls fixedFiles).*1 →
  k ∈ fixedFiles.*1 ∨ (k ∈ todo.*1 ∧ patchable parsedErrors k).
Proof.
  revert calls fixedFiles.
  induction todo as [| [filename content] rest IH]; intros calls fixedFiles;
    simpl.
  - by left.
  - destruct (choose_prompt parsedErrors filename content) as [p |] eqn:Hp.
    + pose proof (choose_prompt_patchable _ _ _ _ Hp) as Hok.
      destruct (fixer calls p) as [fixedContent | e]; intros Hk;
        apply IH in Hk as [Hk | [Hk Hpk]].
      * apply assign_keys in Hk as [-> | Hk]; [| by left].
        right. split; [left | done].
      * right. split; [by right | done].
      * by left.
      * right. split; [by right | done].
    + intros Hk. apply IH in Hk as [Hk | [Hk Hpk]]; [by left |].
      right. split; [by right | done].
Qed.

(** C9: when the fix route answers with a patch set, every key of it is a
    key of the request's file map, ends in [.java], [pom.xml] or
    [plugin.yml], and has parsed errors under its basename unless it ends
    in [pom.xml].  So a file without parsed errors that is not a
    [pom.xml], and a file of any other type, is never in the patch set. *)
Theorem fix_patch_set_keys (fs fs' : filesys) (req : request)
    (filesWritten : bool) (data : list (list N * list N)) :
  post_fix fixer fs req = (Fixed filesWritten data, fs') →
  ∃ parsedErrors,
    parseErrors (buildErrors req) = Returns parsedErrors
    ∧ ∀ filename, filename ∈ data.*1 →
        filename ∈ (entries (files req)).*1
        ∧ (ends_with filename (js ".java") = true
           ∨ ends_with filename (js "pom.xml") = true
           ∨ ends_with filename (js "plugin.yml") = true)
        ∧ (errors_for parsedErrors (basename filename) ≠ []
           ∨ ends_with filename (js "pom.xml") = true).
Proof.
  unfold post_fix. intros H.
  destruct (negb (truthy (buildErrors req)) || negb (truthy (files req)));
    [discriminate H |].
  destruct (parseErrors (buildErrors req)) as [parsedErrors | e];
    [| discriminate H].
  exists parsedErrors. split; [done |].
  destruct (if truthy (pluginDir req)
                 && (0 <? length (fix_files fixer parsedErrors
                                    (entries (files req)) 0 []))%nat
            then _ else _) as [w fs1].
  injection H as _ <- _.
  intros filename Hk.
  apply fix_files_keys in Hk as [Hk | [Hk [Htype Herr]]].
  - by apply elem_of_nil in Hk.
  - done.
Qed.

End FixRouteFacts.


Lemma fix_patch_set_keys_witness :
  ∃ parsedErrors,
    ErrorParser.parseErrors (FixRoute.buildErrors FixRouteExample.req)
    = JS.Returns parsedErrors
    ∧ ∀ filename,
        filename ∈ [(JS.js "src/A.java", JS.js "class A {}");
                    (JS.js "pom.xml", JS.js "class A {}")].*1 →
        filename ∈ (FixRoute.entries (FixRoute.files FixRouteExample.req)).*1
        ∧ (JS.ends_with filename (JS.js ".java") = true
           ∨ JS.ends_with filename (JS.js "pom.xml") = true
           ∨ JS.ends_with filename (JS.js "plugin.yml") = true)
        ∧ (FixRoute.errors_for parsedErrors (JS.basename filename) ≠ []
           ∨ JS.ends_with filename (JS.js "pom.xml") = true).
Proof.
  apply (fix_patch_set_keys FixRouteExample.fixer FixRouteExample.disk
           FixRouteExample.disk FixRouteExample.req false).
  vm_compute. reflexivity.
Defined.

(* ===================================================================== *)
(** * Properties of the status route *)
(* ===================================================================== *)

Section StatusRouteFacts.
Import JS FileSystem StatusRoute.

(** The claim of C6 read to the letter fails: a project without any stored
    record whose directory is missing is answered with the 404 error. *)
Lemma status_missing_project_counterexample :
  existsSync StatusExample.bare (js "/srv/app/ghost/build_result.json") = false
  ∧ existsSync StatusExample.bare (js "/srv/app/ghost/build.log") = false
  ∧ get_status StatusExample.JSON_parse StatusExample.bare (js "ghost")
    = PluginNotFound
  ∧ http_status PluginNotFound = 404%nat
  ∧ success PluginNotFound = false.
Proof. repeat split; vm_compute; reflexivity. Qed.

(** C6 (amended): for a project without [build_result.json] and without
    [build.log], the query answers 'Build not started' with status 200 and
    [success: true] when the project directory exists; when the directory
    does not exist it answers 404 'Plugin not found'. *)
Theorem status_without_record (JSON_parse : list N → option jsvalue)
    (fs : filesys) (pluginName : list N) :
  let pluginDir := resolve (cwd fs) [pluginName] in
  existsSync fs (join [pluginDir; js "build_result.json"]) = false →
  existsSync fs (join [pluginDir; js "build.log"]) = false →
  (existsSync fs pluginDir = true →
     get_status JSON_parse fs pluginName = BuildNotStarted
     ∧ http_status (get_status JSON_parse fs pluginName) = 200%nat
     ∧ success (get_status JSON_parse fs pluginName) = true)
  ∧ (existsSync fs pluginDir = false →
     get_status JSON_parse fs pluginName = PluginNotFound).
Proof.
  intros pluginDir Hres Hlog. unfold get_status. fold pluginDir.
  split; intros Hdir; rewrite Hdir; simpl.
  - rewrite Hres, Hlog. done.
  - done.
Qed.

Lemma status_without_record_witness :
  get_status StatusExample.JSON_parse StatusExample.fresh (js "demo")
  = BuildNotStarted
  ∧ http_status
      (get_status StatusExample.JSON_parse StatusExample.fresh (js "demo"))
    = 200%nat
  ∧ success
      (get_status StatusExample.JSON_parse StatusExample.fresh (js "demo"))
    = true.
Proof.
  apply (status_without_record StatusExample.JSON_parse StatusExample.fresh
           (js "demo")); vm_compute; reflexivity.
Defined.

End StatusRouteFacts.

(* ===================================================================== *)
(** * Properties of the log streams *)
(* ===================================================================== *)

Section LogStreamFacts.
Import JS FileSystem LogStream.

Variable now : nat → list N.

Lemma stream_write_ne e sid (h : gmap nat passthrough) sid' :
  sid' ≠ sid → stream_write e sid h !! sid' = h !! sid'.
Proof.
  intros Hne. unfold stream_write.
  destruct (h !! sid) as [p |]; [| done].
  destruct (ended p); [done |]. by rewrite lookup_insert_ne.
Qed.

Lemma stream_write_open e sid (h : gmap nat passthrough) s :
  h !! sid = Some s → ended s = false →
  stream_write e sid h !! sid
  = Some {| written := written s ++ [e]; ended := false |}.
Proof.
  intros Hs He. unfold stream_write. rewrite Hs, He.
  by rewrite lookup_insert_eq.
Qed.

Lemma stream_write_keeps_open e sid (h : gmap nat passthrough) sid' :
  (∃ s, h !! sid' = Some s ∧ ended s = false) →
  ∃ s, stream_write e sid h !! sid' = Some s ∧ ended s = false.
Proof.
  intros [s [Hs He]]. destruct (decide (sid' = sid)) as [-> | Hne].
  - eexists. split; [by apply stream_write_open | done].
  - exists s. by rewrite stream_write_ne.
Qed.

(** One event written to every stream of a set. *)
Lemma write_all_outside e (streams : list nat) (h : gmap nat passthrough) sid :
  sid ∉ streams →
  fold_left (λ h sid, stream_write e sid h) streams h !! sid = h !! sid.
Proof.
  revert h. induction streams as [| x rest IH]; intros h Hnot; simpl; [done |].
  apply not_elem_of_cons in Hnot as [Hne Hnot].
  rewrite IH by done. by apply stream_write_ne.
Qed.


Lemma write_all_keeps_open e (streams : list nat) (h : gmap nat passthrough)
    sid :
  (∃ s, h !! sid = Some s ∧ ended s = false) →
  ∃ s, fold_left (λ h sid, stream_write e sid h) streams h !! sid = Some s
       ∧ ended s = false.
Proof.
  revert h. induction streams as [| x rest IH]; intros h Hopen; simpl;
    [done |].
  apply IH. by apply stream_write_keeps_open.
Qed.

(** The replay writes one event per non-blank line, in order, to the one
    stream it is given. *)
Lemma replay_other lines sid (h : gmap nat passthrough) t sid' :
  sid' ≠ sid → (replay now lines sid h t).1 !! sid' = h !! sid'.
Proof.
  revert h t. induction lines as [| line rest IH]; intros h t Hne; simpl;
    [done |].
  destruct (trim line); [by apply IH |].
  rewrite IH by done. by apply stream_write_ne.
Qed.

Lemma replay_written lines sid (h : gmap nat passthrough) t s :
  h !! sid = Some s → ended s = false →
  ∃ evs, (replay now lines sid h t).1 !! sid
         = Some {| written := written s ++ evs; ended := false |}
         ∧ message <$> evs = filter (λ line, trim line ≠ []) lines.
Proof.
  revert h t s. induction lines as [| line rest IH]; intros h t s Hs He; simpl.
  - exists []. rewrite app_nil_r. destruct s as [w e]. simpl in *.
    by subst e.
  - rewrite filter_cons. destruct (trim line) as [| c l] eqn:Htrim.
    + rewrite decide_False by (intros Hne; by apply Hne).
      by apply IH.
    + rewrite decide_True by done.
      edestruct (IH (stream_write {| timestamp := now t; message := line |}
                       sid h) (S t)) as [evs [Hl Hm]];
        [by apply stream_write_open | done |].
      exists ({| timestamp := now t; message := line |} :: evs).
      simpl in Hl. rewrite <- app_assoc in Hl. split; [done |].
      by rewrite fmap_cons, Hm.
Qed.

Lemma set_add_nonempty x s : set_add x s ≠ [].
Proof.
  unfold set_add. case_bool_decide as Hin.
  - intros ->. by apply elem_of_nil in Hin.
  - intros Happ. by apply app_eq_nil in Happ as [_ ?].
Qed.

Lemma set_add_NoDup x s : NoDup s → NoDup (set_add x s).
Proof.
  intros Hnd. unfold set_add. case_bool_decide as Hin; [done |].
  apply NoDup_app. split; [done |]. split.
  - intros y Hy Hy'. apply list_elem_of_singleton in Hy'. by subst y.
  - apply NoDup_singleton.
Qed.

Lemma elem_of_set_add y x s : y ∈ set_add x s ↔ y = x ∨ y ∈ s.
Proof.
  unfold set_add. case_bool_decide as Hin.
  - split; [by right |]. intros [-> | ?]; done.
  - rewrite elem_of_app, list_elem_of_singleton. tauto.
Qed.

Lemma initial_well_formed : well_formed initial.
Proof.
  split; simpl.
  - intros p streams H. by rewrite lookup_empty in H.
  - intros p streams H. by rewrite lookup_empty in H.
  - intros p streams sid H. by rewrite lookup_empty in H.
  - intros sid H. by rewrite lookup_empty in H.
Qed.

Lemma broadcast_well_formed st p m :
  well_formed st → well_formed (broadcastLogMessage now st p m).
Proof.
  intros [Hne Hnd Hlive Hfresh]. unfold broadcastLogMessage.
  destruct (activeStreams st !! p) as [streams |] eqn:Hp; [| by split].
  destruct (0 <? length streams)%nat; [| by split].
  split; simpl; [done | done | | done].
  intros q qs sid Hq Hin. destruct (Hlive q qs sid Hq Hin) as [Hopen Hh].
  split; [| done]. by apply write_all_keeps_open.
Qed.

Lemma connect_well_formed fs st p :
  well_formed st → well_formed (connect now fs st p).2.
Proof.
  intros [Hne Hnd Hlive Hfresh]. unfold connect.
  destruct (negb (existsSync fs (resolve (cwd fs) [p]))); [by split |].
  set (sid := next_stream st).
  set (h0 := <[sid := {| written := []; ended := false |}]> (heap st)).
  set (h1 := stream_write _ sid h0).
  assert (Hh1 : ∃ s, h1 !! sid = Some s ∧ ended s = false).
  { eexists. split; [apply stream_write_open; [apply lookup_insert_eq |] |];
      done. }
  assert (Hother1 : ∀ sid', sid' ≠ sid → h1 !! sid' = heap st !! sid').
  { intros sid' Hs. unfold h1. rewrite stream_write_ne by done.
    unfold h0. by rewrite lookup_insert_ne. }
  match goal with
  | |- context [let '(h2, t2) := ?e in _] => destruct e as [h2 t2] eqn:He
  end.
  assert (Hh2 : (∃ s, h2 !! sid = Some s ∧ ended s = false)
                ∧ ∀ sid', sid' ≠ sid → h2 !! sid' = heap st !! sid').
  { destruct (existsSync fs _) in He.
    - destruct (readFileSync fs _) as [text | e] in He.
      + destruct Hh1 as [s [Hs Hes]].
        destruct (replay_written (split_on 10 text) sid h1 (S (ticks st)) s
                    Hs Hes) as [evs [Hl _]].
        rewrite He in Hl. simpl in Hl. split; [by eexists |].
        intros sid' Hs'.
        pose proof (replay_other (split_on 10 text) sid h1 (S (ticks st))
                      sid' Hs') as Ho.
        rewrite He in Ho. simpl in Ho. rewrite Ho. by apply Hother1.
      + injection He as <- <-. done.
    - injection He as <- <-. done. }
  destruct Hh2 as [Hnew Hold].
  assert (Hsid_free : ∀ q qs, activeStreams st !! q = Some qs → sid ∉ qs).
  { intros q qs Hq Hin. destruct (Hlive q qs sid Hq Hin) as [_ Hh].
    assert (sid < next_stream st)%nat by (apply Hfresh; by rewrite Hh).
    unfold sid in *. lia. }
  split; simpl.
  - intros q qs Hq. destruct (decide (p = q)) as [-> | Hpq].
    + rewrite lookup_insert_eq in Hq. injection Hq as <-.
      apply set_add_nonempty.
    + rewrite lookup_insert_ne in Hq by done. by eapply Hne.
  - intros q qs Hq. destruct (decide (p = q)) as [-> | Hpq].
    + rewrite lookup_insert_eq in Hq. injection Hq as <-.
      apply set_add_NoDup.
      destruct (activeStreams st !! q) as [streams |] eqn:Hs; simpl.
      * by eapply Hnd.
      * apply NoDup_nil_2.
    + rewrite lookup_insert_ne in Hq by done. by eapply Hnd.
  - intros q qs x Hq Hin. destruct (decide (p = q)) as [-> | Hpq].
    + rewrite lookup_insert_eq in Hq. injection Hq as <-.
      apply elem_of_set_add in Hin as [-> | Hin].
      * split; [done |]. by rewrite lookup_insert_eq.
      * destruct (activeStreams st !! q) as [streams |] eqn:Hs; simpl in Hin;
          [| by apply elem_of_nil in Hin].
        assert (x ≠ sid) by (intros ->; by eapply Hsid_free).
        destruct (Hlive q streams x Hs Hin) as [Hopen Hh].
        rewrite Hold by done. rewrite lookup_insert_ne by done. done.
    + rewrite lookup_insert_ne in Hq by done.
      assert (x ≠ sid) by (intros ->; by eapply Hsid_free).
      destruct (Hlive q qs x Hq Hin) as [Hopen Hh].
      rewrite Hold by done. rewrite lookup_insert_ne by done. done.
  - intros x Hx. destruct (decide (x = sid)) as [-> | Hxs]; [lia |].
    rewrite lookup_insert_ne in Hx by done.
    specialize (Hfresh x Hx). unfold sid. lia.
Qed.

Lemma set_delete_subset x s y : y ∈ set_delete x s → y ∈ s ∧ y ≠ x.
Proof. unfold set_delete. intros H. apply list_elem_of_filter in H. tauto. Qed.

Lemma close_well_formed st sid :
  well_formed st → well_formed (on_close st sid).
Proof.
  intros [Hne Hnd Hlive Hfresh]. unfold on_close.
  destruct (handlers st !! sid) as [p |] eqn:Hp; [| by split].
  assert (Hkeep : ∀ q qs x,
             match activeStreams st !! p with
             | Some streams =>
                 if (length (set_delete sid streams) =? 0)%nat
                 then delete p (activeStreams st)
                 else <[p := set_delete sid streams]> (activeStreams st)
             | None => activeStreams st
             end !! q = Some qs →
             qs ≠ [] ∧ NoDup qs
             ∧ (x ∈ qs → x ≠ sid
                         ∧ ∃ qs0, activeStreams st !! q = Some qs0 ∧ x ∈ qs0)).
  { intros q qs x Hq.
    destruct (activeStreams st !! p) as [streams |] eqn:Hs.
    - destruct (length (set_delete sid streams) =? 0)%nat eqn:Hlen.
      + destruct (decide (p = q)) as [-> | Hpq];
          [by rewrite lookup_delete_eq in Hq |].
        rewrite lookup_delete_ne in Hq by done.
        split; [by eapply Hne |]. split; [by eapply Hnd |].
        intros Hx. split; [| by eauto].
        intros ->. destruct (Hlive q qs sid Hq Hx) as [_ Hh]. congruence.
      + destruct (decide (p = q)) as [-> | Hpq].
        * rewrite lookup_insert_eq in Hq. injection Hq as <-.
          split.
          { intros Hnil. rewrite Hnil in Hlen. done. }
          split; [apply NoDup_filter; by eapply Hnd |].
          intros Hx. apply set_delete_subset in Hx as [Hx Hxs].
          split; [done | by eauto].
        * rewrite lookup_insert_ne in Hq by done.
          split; [by eapply Hne |]. split; [by eapply Hnd |].
          intros Hx. split; [| by eauto].
          intros ->. destruct (Hlive q qs sid Hq Hx) as [_ Hh]. congruence.
    - split; [by eapply Hne |]. split; [by eapply Hnd |].
      intros Hx. split; [| by eauto].
      intros ->. destruct (Hlive q qs sid Hq Hx) as [_ Hh]. congruence. }
  split; simpl.
  - intros q qs Hq. by destruct (Hkeep q qs 0%nat Hq).
  - intros q qs Hq. by destruct (Hkeep q qs 0%nat Hq) as [_ [? _]].
  - intros q qs x Hq Hin.
    destruct (Hkeep q qs x Hq) as [_ [_ Hx]].
    destruct (Hx Hin) as [Hxs [qs0 [Hq0 Hin0]]].
    destruct (Hlive q qs0 x Hq0 Hin0) as [Hopen Hh].
    split; [| done]. by rewrite lookup_alter_ne.
  - done.
Qed.

Lemma step_well_formed fs st ev :
  well_formed st → well_formed (step now fs st ev).
Proof.
  destruct ev; simpl.
  - apply connect_well_formed.
  - apply close_well_formed.
  - apply broadcast_well_formed.
Qed.

Lemma run_well_formed st evs :
  well_formed st → well_formed (run now st evs).
Proof.
  revert st. induction evs as [| [fs ev] rest IH]; intros st Hwf; simpl;
    [done |].
  apply IH. by apply step_well_formed.
Qed.

(** C10: in every state the server reaches, each registered project has a
    non-empty subscriber set; the close of the last subscriber of a project
    deletes the project's entry; and a broadcast for a project without an
    entry changes nothing (and returns). *)
Theorem registry_sets_nonempty (evs : list (filesys * event)) :
  let st := run now initial evs in
  (∀ p streams, activeStreams st !! p = Some streams → streams ≠ [])
  ∧ (∀ sid p, handlers st !! sid = Some p →
              activeStreams st !! p = Some [sid] →
              activeStreams (on_close st sid) !! p = None)
  ∧ (∀ p m, activeStreams st !! p = None →
            broadcastLogMessage now st p m = st).
Proof.
  intros st. pose proof (run_well_formed initial evs initial_well_formed)
    as [Hne _ _ _]. fold st in Hne.
  split; [exact Hne |]. split.
  - intros sid p Hh Hp. unfold on_close. rewrite Hh, Hp. simpl.
    unfold set_delete. rewrite filter_cons, decide_False by (intros H; done).
    rewrite filter_nil. simpl. apply lookup_delete_eq.
  - intros p m Hp. unfold broadcastLogMessage. by rewrite Hp.
Qed.

(** ** Replay and live delivery *)

Lemma split_on_nonempty sep s : split_on sep s ≠ [].
Proof.
  destruct s as [| c s]; simpl; [done |].
  destruct (c =? sep); [done |]. by destruct (split_on sep s).
Qed.

Lemma split_on_app sep a b :
  split_on sep (a ++ sep :: b) = split_on sep a ++ split_on sep b.
Proof.
  induction a as [| c a IH]; simpl.
  - by rewrite N.eqb_refl.
  - destruct (c =? sep); [by rewrite IH |].
    rewrite IH. pose proof (split_on_nonempty sep a) as Hne.
    by destruct (split_on sep a).
Qed.

Lemma writeFileSync_returns fs q content fs' :
  writeFileSync fs q content = Returns fs' →
  cwd fs' = cwd fs ∧ dirs fs' = dirs fs
  ∧ regular_files fs' = <[canon fs q := content]> (regular_files fs).
Proof.
  unfold writeFileSync. destruct (is_dir fs (canon fs q)); [done |].
  destruct (negb (is_dir fs (dirname (canon fs q)))); [done |].
  intros [= <-]. done.
Qed.

Lemma on_outputs_log fs st pluginDir chunks fs' st' old :
  on_outputs now fs st pluginDir chunks = Returns (fs', st') →
  regular_files fs !! canon fs (join [pluginDir; js "build.log"]) = Some old →
  cwd fs' = cwd fs ∧ dirs fs' = dirs fs
  ∧ regular_files fs'
    = <[canon fs (join [pluginDir; js "build.log"]) := old ++ appended chunks]>
        (regular_files fs).
Proof.
  revert fs st old. induction chunks as [| data rest IH]; intros fs st old.
  - simpl. intros [= <- <-] Hold. unfold appended. simpl.
    rewrite app_nil_r. by rewrite insert_id.
  - change (appended (data :: rest))
      with (match trim data with
            | [] => []
            | output => output ++ [10]
            end ++ appended rest).
    simpl. unfold on_output.
    destruct (trim data) as [| c l] eqn:Ht.
    + intros Hrest Hold. simpl. by eapply IH.
    + intros Hrest Hold. unfold appendFileSync in Hrest.
      rewrite Hold in Hrest. simpl in Hrest.
      destruct (writeFileSync fs _ _) as [fs1 | e] eqn:Hw; [| done].
      apply writeFileSync_returns in Hw as [Hcwd [Hdirs Hfiles]].
      assert (Hcanon : canon fs1 (join [pluginDir; js "build.log"])
                       = canon fs (join [pluginDir; js "build.log"])).
      { unfold canon. by rewrite Hcwd. }
      destruct (IH fs1 _ (old ++ (c :: l) ++ [10]) Hrest) as [Hc [Hd Hf]].
      { rewrite Hcanon, Hfiles. apply lookup_insert_eq. }
      split; [congruence |]. split; [congruence |].
      rewrite Hf, Hcanon, Hfiles, insert_insert_eq.
      f_equal. by rewrite <- (app_assoc old).
Qed.

Lemma publish_log fs0 st0 pluginDir chunks fs st :
  publish now fs0 st0 pluginDir chunks = Returns (fs, st) →
  cwd fs = cwd fs0 ∧ dirs fs = dirs fs0
  ∧ regular_files fs
    = <[canon fs0 (join [pluginDir; js "build.log"]) :=
          js "Build started at " ++ now (ticks st0) ++ 10 :: appended chunks]>
        (regular_files fs0).
Proof.
  unfold publish, start_log.
  destruct (writeFileSync fs0 _ _) as [fs1 | e] eqn:Hw; [| done].
  apply writeFileSync_returns in Hw as [Hcwd [Hdirs Hfiles]].
  intros Hout.
  assert (Hcanon : canon fs1 (join [pluginDir; js "build.log"])
                   = canon fs0 (join [pluginDir; js "build.log"])).
  { unfold canon. by rewrite Hcwd. }
  assert (Hold : regular_files fs1 !! canon fs1 (join [pluginDir; js "build.log"])
                 = Some (js "Build started at " ++ now (ticks st0) ++ [10])).
  { rewrite Hcanon, Hfiles. apply lookup_insert_eq. }
  destruct (on_outputs_log _ _ _ _ _ _ _ Hout Hold) as [Hc [Hd Hf]].
  split; [congruence |]. split; [congruence |].
  rewrite Hf, Hcanon, Hfiles, insert_insert_eq.
  f_equal. rewrite <- (app_assoc (js "Build started at ")).
  rewrite <- (app_assoc (now (ticks st0))). reflexivity.
Qed.

Lemma existsSync_insert fs0 fs q text x :
  cwd fs = cwd fs0 → dirs fs = dirs fs0 →
  regular_files fs = <[q := text]> (regular_files fs0) →
  existsSync fs0 x = true → existsSync fs x = true.
Proof.
  intros Hcwd Hdirs Hfiles. unfold existsSync, is_dir, is_file, canon.
  rewrite Hcwd, Hdirs, Hfiles. intros H.
  apply orb_true_iff in H as [Hd | Hf]; [by rewrite Hd |].
  apply orb_true_iff. right.
  apply bool_decide_eq_true in Hf. apply bool_decide_eq_true.
  rewrite lookup_insert. by case_decide.
Qed.







End LogStreamFacts.

Lemma registry_sets_nonempty_witness :
  let st := LogStream.run LogExample.clock LogStream.initial
              LogExample.history in
  [1%nat] ≠ []
  ∧ LogStream.activeStreams (LogStream.on_close st 1) !! JS.js "demo" = None
  ∧ LogStream.broadcastLogMessage LogExample.clock st (JS.js "other")
      (JS.js "hello") = st.
Proof.
  intros st.
  destruct (registry_sets_nonempty LogExample.clock LogExample.history)
    as [Hnonempty [Hlast Hnoop]].
  split; [apply (Hnonempty (JS.js "demo")); vm_compute; reflexivity |].
  split; [apply Hlast; vm_compute; reflexivity |].
  apply Hnoop; vm_compute; reflexivity.
Defined.


(* ===================================================================== *)
(** * Properties of the build script *)
(* ===================================================================== *)

Section LoopFacts.
Import Shell.
Local Open Scope Z_scope.

Lemma count_app p (a b : list event) :
  count p (a ++ b) = (count p a + count p b)%nat.
Proof. unfold count. by rewrite List.filter_app, length_app. Qed.

Lemma count_inner_attempt (l : list event) :
  forallb inner l = true → List.filter is_attempt l = [].
Proof.
  induction l as [| e l IH]; simpl; [done |].
  intros H. apply andb_true_iff in H as [He Hl]. unfold inner in He.
  apply andb_true_iff in He as [Ha _]. apply negb_true_iff in Ha.
  rewrite Ha. by apply IH.
Qed.

Lemma count_inner_noshade (l : list event) :
  forallb inner l = true → count (is_build NoShade) l = 0%nat.
Proof.
  unfold count. induction l as [| e l IH]; simpl; [done |].
  intros H. apply andb_true_iff in H as [He Hl]. unfold inner in He.
  apply andb_true_iff in He as [_ Hb]. apply negb_true_iff in Hb.
  rewrite Hb. by apply IH.
Qed.

Lemma attempts_from_length a k : length (attempts_from a k) = k.
Proof. unfold attempts_from. by rewrite length_map, length_seq. Qed.

Lemma attempts_from_S a k :
  Attempt (a + 1) :: attempts_from (a + 1) k = attempts_from a (S k).
Proof.
  unfold attempts_from. simpl. f_equal.
  rewrite <- (seq_shift k 1), map_map. apply map_ext. intros i. f_equal. lia.
Qed.

(** What the loop asks of its body. *)
Variable iteration : world → Z → run_state → iteration_end * run_state.

Hypothesis body_grows : ∀ w n st,
  ∃ rest, trace (iteration w n st).2 = trace st ++ Attempt n :: rest
          ∧ forallb inner rest = true.

Hypothesis body_aborts : ∀ w n st status,
  (iteration w n st).1 = Abort status → status ≠ 0%nat.

(** The loop: with fuel for the iterations that are left it ends by
    itself; it starts the attempts [a + 1], [a + 2], ... one by one, at
    most up to the bound, runs no no-shade build, and is left with
    [BUILD_SUCCESS = false] only when the bound is reached. *)
Lemma fix_loop_spec w fuel a st :
  (Z.to_nat (MAX_AI_FIX_ATTEMPTS w - a) < fuel)%nat →
  ∃ (k : nat) suffix,
    trace (fix_loop iteration w fuel a st).2 = trace st ++ suffix
    ∧ List.filter is_attempt suffix = attempts_from a k
    ∧ count (is_build NoShade) suffix = 0%nat
    ∧ (k ≤ Z.to_nat (MAX_AI_FIX_ATTEMPTS w - a))%nat
    ∧ match (fix_loop iteration w fuel a st).1 with
      | OutOfFuel => False
      | LoopDone j false =>
          k = Z.to_nat (MAX_AI_FIX_ATTEMPTS w - a)
          ∧ j = a + Z.of_nat k ∧ MAX_AI_FIX_ATTEMPTS w ≤ j
      | LoopDone j true => j = a + Z.of_nat k ∧ (1 ≤ k)%nat
      | Errexit status => status ≠ 0%nat ∧ (1 ≤ k)%nat
      end.
Proof.
  revert a st. induction fuel as [| fuel IH]; intros a st Hfuel; [lia |].
  simpl. destruct (a <? MAX_AI_FIX_ATTEMPTS w) eqn:Hlt.
  - apply Z.ltb_lt in Hlt.
    destruct (body_grows w (a + 1) st) as [rest [Htr Hin]].
    pose proof (body_aborts w (a + 1) st) as Hab.
    destruct (iteration w (a + 1) st) as [[| | status] st1]; simpl in *.
    + destruct (IH (a + 1) st1) as [k [suffix [Ht [Hf [Hn [Hk Hr]]]]]];
        [lia |].
      exists (S k), (Attempt (a + 1) :: rest ++ suffix).
      split; [rewrite Ht, Htr; by rewrite <- app_assoc |].
      split.
      { simpl. rewrite List.filter_app, (count_inner_attempt rest Hin), Hf.
        simpl. apply attempts_from_S. }
      split.
      { change (Attempt (a + 1) :: rest ++ suffix)
          with ([Attempt (a + 1)] ++ rest ++ suffix).
        rewrite !count_app, Hn, (count_inner_noshade rest Hin). done. }
      split; [lia |].
      destruct (fix_loop iteration w fuel (a + 1) st1).1 as [j [|] | s |];
        [lia | lia | lia | done].
    + exists 1%nat, (Attempt (a + 1) :: rest).
      split; [done |]. split.
      { simpl. by rewrite (count_inner_attempt rest Hin). }
      split.
      { change (Attempt (a + 1) :: rest) with ([Attempt (a + 1)] ++ rest).
        by rewrite count_app, (count_inner_noshade rest Hin). }
      split; [lia |]. lia.
    + exists 1%nat, (Attempt (a + 1) :: rest).
      split; [done |]. split.
      { simpl. by rewrite (count_inner_attempt rest Hin). }
      split.
      { change (Attempt (a + 1) :: rest) with ([Attempt (a + 1)] ++ rest).
        by rewrite count_app, (count_inner_noshade rest Hin). }
      split; [lia |]. split; [by apply Hab | lia].
  - apply Z.ltb_ge in Hlt. exists 0%nat, [].
    split; [by rewrite app_nil_r |]. split; [done |]. split; [done |].
    split; [lia |]. simpl. lia.
Qed.

End LoopFacts.

Section ScriptBodies.
Import Shell.
Local Open Scope Z_scope.

Lemma emit_trace e st : trace (emit e st) = trace st ++ [e].
Proof. reflexivity. Qed.

Lemma write_result_trace r st :
  trace (write_result r st) = trace st ++ [WriteResult r].
Proof. reflexivity. Qed.

Lemma apply_fixes_trace w n paths st :
  ∃ rest, trace (BashSh.apply_fixes w n paths st).2 = trace st ++ rest
          ∧ forallb inner rest = true.
Proof.
  revert st. induction paths as [| path paths IH]; intros st; simpl.
  - exists []. by rewrite app_nil_r.
  - destruct (negb (write_status w n path =? 0)%nat); simpl.
    + exists []. by rewrite app_nil_r.
    + destruct (IH (emit (Updated path) st)) as [rest [Ht Hin]].
      exists (Updated path :: rest). rewrite Ht, emit_trace.
      by rewrite <- app_assoc.
Qed.

Lemma apply_fixes_abort w n paths st status :
  (BashSh.apply_fixes w n paths st).1 = Some status → status ≠ 0%nat.
Proof.
  revert st. induction paths as [| path paths IH]; intros st; simpl; [done |].
  destruct (write_status w n path =? 0)%nat eqn:Hw; simpl.
  - apply IH.
  - intros [= <-]. by apply Nat.eqb_neq.
Qed.

(** Close a goal about the trace of a branch of the body. *)
Ltac trace_of_branch :=
  eexists; split;
  [ simpl; rewrite <- ?app_assoc; simpl; reflexivity
  | reflexivity ].

Lemma iteration_trace w n st :
  ∃ rest, trace (BashSh.iteration w n st).2 = trace st ++ Attempt n :: rest
          ∧ forallb inner rest = true.
Proof.
  unfold BashSh.iteration.
  destruct (negb (compile_only w n =? 0)%nat); [trace_of_branch |].
  destruct (VERBOSE w && negb (curl w n =? 0)%nat); [trace_of_branch |].
  destruct (negb (status_success w n)).
  { destruct (negb (message_status w n =? 0)%nat); trace_of_branch. }
  destruct (negb ((fixed_count w n).1 =? 0)%nat); [trace_of_branch |].
  destruct (apply_fixes_trace w n (fixed_paths w n)
              (emit (FixRequest n)
                 (emit (Build CompileOnly) (emit (Attempt n) st))))
    as [rest [Ht Hin]].
  destruct (BashSh.apply_fixes w n (fixed_paths w n) _) as [[status |] st1];
    simpl in Ht.
  - exists ([Build CompileOnly; FixRequest n] ++ rest). split.
    + simpl. rewrite Ht, <- !app_assoc. done.
    + done.
  - assert (Hgo : ∀ tail, forallb inner tail = true →
               ∀ st2, trace st2 = trace st1 ++ tail →
               ∃ rest0, trace st2 = trace st ++ Attempt n :: rest0
                        ∧ forallb inner rest0 = true).
    { intros tail Htail st2 Hst2.
      exists ([Build CompileOnly; FixRequest n] ++ rest ++ tail). split.
      - rewrite Hst2, Ht, <- !app_assoc. done.
      - simpl. rewrite forallb_app. by rewrite Hin, Htail. }
    destruct (rebuild w n =? 0)%nat;
      [| by apply (Hgo [Build Normal])].
    destruct (negb (rebuilt_jar w n =? "")%string);
      [| by apply (Hgo [Build Normal])].
    destruct (rebuilt_verify w n =? 0)%nat;
      [| by apply (Hgo [Build Normal])].
    apply (Hgo [Build Normal;
                WriteResult (succeeded (rebuilt_jar w n) (Some n) false)]);
      [done |].
    simpl. rewrite <- app_assoc. done.
Qed.

Lemma iteration_abort w n st status :
  (BashSh.iteration w n st).1 = Abort status → status ≠ 0%nat.
Proof.
  unfold BashSh.iteration.
  destruct (compile_only w n =? 0)%nat eqn:Hc; simpl;
    [| intros [= <-]; by apply Nat.eqb_neq].
  destruct (VERBOSE w); simpl.
  - destruct (curl w n =? 0)%nat eqn:Hcurl; simpl;
      [| intros [= <-]; by apply Nat.eqb_neq].
    destruct (status_success w n); simpl.
    + destruct ((fixed_count w n).1 =? 0)%nat eqn:Hf; simpl;
        [| intros [= <-]; by apply Nat.eqb_neq].
      pose proof (apply_fixes_abort w n (fixed_paths w n)
                    (emit (FixRequest n)
                       (emit (Build CompileOnly) (emit (Attempt n) st))))
        as Hab.
      destruct (BashSh.apply_fixes w n (fixed_paths w n) _)
        as [[s |] st1]; simpl in *.
      * intros [= <-]. by apply Hab.
      * destruct (rebuild w n =? 0)%nat; [| done].
        destruct (negb (rebuilt_jar w n =? "")%string); [| done].
        by destruct (rebuilt_verify w n =? 0)%nat.
    + destruct (message_status w n =? 0)%nat eqn:Hm; simpl;
        [done | intros [= <-]; by apply Nat.eqb_neq].
  - destruct (status_success w n); simpl.
    + destruct ((fixed_count w n).1 =? 0)%nat eqn:Hf; simpl;
        [| intros [= <-]; by apply Nat.eqb_neq].
      pose proof (apply_fixes_abort w n (fixed_paths w n)
                    (emit (FixRequest n)
                       (emit (Build CompileOnly) (emit (Attempt n) st))))
        as Hab.
      destruct (BashSh.apply_fixes w n (fixed_paths w n) _)
        as [[s |] st1]; simpl in *.
      * intros [= <-]. by apply Hab.
      * destruct (rebuild w n =? 0)%nat; [| done].
        destruct (negb (rebuilt_jar w n =? "")%string); [| done].
        by destruct (rebuilt_verify w n =? 0)%nat.
    + destruct (message_status w n =? 0)%nat eqn:Hm; simpl;
        [done | intros [= <-]; by apply Nat.eqb_neq].
Qed.

(** Case analysis on the tests of a block. *)
Ltac split_tests :=
  repeat match goal with
         | |- context [if ?c then _ else _] =>
             let H := fresh "Htest" in destruct c eqn:H; simpl
         end.

(** The fallback block: one no-shade build, then at most the result
    file. *)
Lemma fallback_trace w st :
  ∃ post, trace (final (BashSh.fallback w st))
          = trace st ++ Build NoShade :: post
          ∧ forallb is_write_result post = true.
Proof.
  unfold BashSh.fallback. destruct (noshade_jar w) as [find_status jar].
  split_tests; trace_of_branch.
Qed.

End ScriptBodies.

Section ScriptFacts.
Import Shell.
Local Open Scope Z_scope.

Variable iteration : world → Z → run_state → iteration_end * run_state.
Variable fallback : world → run_state → outcome.

Hypothesis iteration_grows : ∀ w n st,
  ∃ rest, trace (iteration w n st).2 = trace st ++ Attempt n :: rest
          ∧ forallb inner rest = true.

Hypothesis iteration_aborts : ∀ w n st status,
  (iteration w n st).1 = Abort status → status ≠ 0%nat.

Hypothesis fallback_grows : ∀ w st,
  ∃ post, trace (final (fallback w st)) = trace st ++ Build NoShade :: post
          ∧ forallb is_write_result post = true.

Lemma write_results_quiet (post : list event) :
  forallb is_write_result post = true →
  List.filter is_attempt post = [] ∧ count (is_build NoShade) post = 0%nat.
Proof.
  unfold count. induction post as [| e post IH]; simpl; [done |].
  intros H. apply andb_true_iff in H as [He Hp].
  destruct e; try discriminate He. simpl. by apply IH.
Qed.

(** The whole script: it ends, starts at most [MAX_AI_FIX_ATTEMPTS]
    attempts, numbered from 1, runs the no-shade build at most once, and
    runs it exactly when the loop is left without success, after every
    attempt and before nothing but the writing of the result. *)
Lemma script_spec w :
  ∃ o, script iteration fallback w = Some o
       ∧ (count is_attempt (trace (final o))
          ≤ Z.to_nat (MAX_AI_FIX_ATTEMPTS w))%nat
       ∧ (count (is_build NoShade) (trace (final o)) ≤ 1)%nat
       ∧ (first_build w ≠ 0%nat →
          left_without_success (fix_phase iteration w).1 = true →
          List.filter is_attempt (trace (final o))
          = attempts_from 0 (Z.to_nat (MAX_AI_FIX_ATTEMPTS w))
          ∧ ∃ post,
              trace (final o)
              = trace (fix_phase iteration w).2 ++ Build NoShade :: post
              ∧ count (is_build NoShade) (trace (fix_phase iteration w).2)
                = 0%nat
              ∧ forallb is_write_result post = true)
       ∧ (first_build w = 0%nat
          ∨ left_without_success (fix_phase iteration w).1 = false →
          count (is_build NoShade) (trace (final o)) = 0%nat).
Proof.
  unfold script.
  destruct (fix_loop_spec iteration iteration_grows iteration_aborts w
              (S (Z.to_nat (MAX_AI_FIX_ATTEMPTS w))) 0
              (started (previous_result w)))
    as [k [suffix [Ht [Hf [Hn [Hk Hr]]]]]]; [rewrite Z.sub_0_r; lia |].
  fold (fix_phase iteration w) in *.
  assert (Hcount : count is_attempt (trace (fix_phase iteration w).2) = k).
  { rewrite Ht, count_app. unfold count at 2. rewrite Hf.
    rewrite attempts_from_length. done. }
  assert (Hshade : count (is_build NoShade) (trace (fix_phase iteration w).2)
                   = 0%nat).
  { rewrite Ht, count_app, Hn. done. }
  rewrite Z.sub_0_r in *.
  destruct (first_build w =? 0)%nat eqn:Hfirst.
  - apply Nat.eqb_eq in Hfirst.
    destruct (negb (first_jar w =? "")%string);
      [destruct (first_verify w =? 0)%nat |];
      (eexists; split; [reflexivity |]; simpl;
       split; [unfold count; simpl; lia |];
       split; [unfold count; simpl; lia |];
       split; [intros Hne; by destruct Hne | intros _; done]).
  - apply Nat.eqb_neq in Hfirst.
    destruct (fix_phase iteration w) as [[j [|] | status |] st] eqn:Hphase;
      simpl in *; [| | | done].
    + eexists. split; [reflexivity |]. simpl.
      split; [lia |]. split; [lia |]. split; [done |]. intros _. done.
    + destruct (fallback_grows w st) as [post [Hp Hw]].
      destruct (write_results_quiet post Hw) as [Hpa Hpn].
      assert (Hpa' : count is_attempt post = 0%nat)
        by (unfold count; by rewrite Hpa).
      destruct Hr as [-> _].
      eexists. split; [reflexivity |].
      rewrite Hp.
      change (Build NoShade :: post) with ([Build NoShade] ++ post).
      rewrite !count_app, Hpn, Hpa', Hshade, Hcount.
      change (count is_attempt [Build NoShade]) with 0%nat.
      change (count (is_build NoShade) [Build NoShade]) with 1%nat.
      split; [lia |]. split; [lia |].
      split; [| intros [H0 | Hl]; [done | discriminate Hl]].
      intros _ _. split; [| by exists post].
      rewrite Ht, !List.filter_app, Hpa. simpl. rewrite Hf.
      by rewrite app_nil_r.
    + eexists. split; [reflexivity |]. simpl.
      split; [lia |]. split; [lia |]. split; [done |]. intros _. done.
Qed.

End ScriptFacts.

Section RetryLoop.
Import Shell.
Local Open Scope Z_scope.

(** C1 (defect): [set -e] can end [bash.sh] inside the last attempt the
    budget allows, and the script then makes no no-shade build.  With one
    attempt allowed and sources that do not compile, the assignment of
    [BUILD_ERRORS] (line 347) takes the failing status of the compile
    check: the run is the first build, the start of attempt 1 and the
    compile check; it writes no result and ends with status 1.  With five
    attempts allowed, four error responses and a fix API that cannot be
    reached for the fifth request, [wait $CURL_PID] (line 377, under
    [--verbose]) ends the script in attempt 5 with the status of [curl],
    again without a fallback and without a result.  What does hold of
    every run: it ends, it starts at most [MAX_AI_FIX_ATTEMPTS] attempts,
    and it makes the no-shade build once when the first build fails and
    the loop is left with [BUILD_SUCCESS=false], and not at all
    otherwise. *)
Theorem budget_used_up_without_fallback :
  (MAX_AI_FIX_ATTEMPTS ScriptExample.broken = 1
   ∧ BashSh.run ScriptExample.broken
     = Some {| final :=
                 {| trace := [Build Normal; Attempt 1; Build CompileOnly];
                    result_file := None |};
               exit_status := 1 |})
  ∧ (∃ o, BashSh.run ScriptExample.unreachable = Some o
          ∧ List.filter is_attempt (trace (final o))
            = attempts_from 0
                (Z.to_nat (MAX_AI_FIX_ATTEMPTS ScriptExample.unreachable))
          ∧ count (is_build NoShade) (trace (final o)) = 0%nat
          ∧ results (trace (final o)) = []
          ∧ result_file (final o) = None
          ∧ exit_status o = 7%nat)
  ∧ ∀ w, ∃ o,
      BashSh.run w = Some o
      ∧ (count is_attempt (trace (final o))
         ≤ Z.to_nat (MAX_AI_FIX_ATTEMPTS w))%nat
      ∧ count (is_build NoShade) (trace (final o))
        = if negb (first_build w =? 0)%nat
             && left_without_success (fix_phase BashSh.iteration w).1
          then 1%nat else 0%nat.
Proof.
  split; [split; vm_compute; reflexivity |].
  split.
  { eexists. split; [vm_compute; reflexivity |].
    repeat split; vm_compute; reflexivity. }
  intros w.
  destruct (script_spec BashSh.iteration BashSh.fallback iteration_trace
              iteration_abort fallback_trace w)
    as [o [Hrun [Hbound [_ [Hex Hno]]]]].
  exists o. split; [done |]. split; [done |].
  destruct (first_build w =? 0)%nat eqn:Hfirst; simpl.
  - apply Nat.eqb_eq in Hfirst. apply Hno. by left.
  - apply Nat.eqb_neq in Hfirst.
    destruct (left_without_success (fix_phase BashSh.iteration w).1)
      eqn:Hleft.
    + destruct (Hex Hfirst eq_refl) as [_ [post [Htr [Hpre Hpost]]]].
      rewrite Htr.
      change (Build NoShade :: post) with ([Build NoShade] ++ post).
      rewrite !count_app, Hpre.
      by destruct (write_results_quiet post Hpost) as [_ ->].
    + apply Hno. by right.
Qed.

End RetryLoop.

Section UnproductiveFixes.
Import Shell.
Local Open Scope Z_scope.





(** A loop whose body, on an unproductive attempt, adds the events of the
    attempt and goes on. *)
Variable iteration : world → Z → run_state → iteration_end * run_state.
Variable fallback : world → run_state → outcome.
Variable unproductive : world → Z → bool.
Variable events : world → Z → list event.

Hypothesis unproductive_step : ∀ w n st,
  unproductive w n = true →
  iteration w n st
  = (Continue, {| trace := trace st ++ events w n;
                  result_file := result_file st |}).

Hypothesis events_quiet : ∀ w n,
  List.filter is_attempt (events w n) = [Attempt n]
  ∧ count (is_build NoShade) (events w n) = 0%nat.

Hypothesis fallback_once : ∀ w st,
  ∃ post, trace (final (fallback w st)) = trace st ++ Build NoShade :: post
          ∧ forallb is_write_result post = true.




End UnproductiveFixes.

Section UnproductiveRuns.
Import Shell.
Local Open Scope Z_scope.

Lemma results_app a b : results (a ++ b) = results a ++ results b.
Proof. unfold results. apply omap_app. Qed.


Lemma leave_nonzero inside status :
  status ≠ 0%nat → leave inside status ≠ 0%nat.
Proof. by destruct inside. Qed.

(** What the fallback block adds to a run: never the exit status 0; the
    result [success: true, noShade: true] when the no-shade build yields a
    verified jar; otherwise a result that says [success: false], or none
    when the search for the jar fails. *)
Lemma fallback_result w st :
  exit_status (BashSh.fallback w st) ≠ 0%nat
  ∧ if BashSh.fallback_succeeds w
    then final (BashSh.fallback w st)
         = write_result (succeeded (noshade_jar w).2 None true)
             (emit (Build NoShade) st)
    else (∃ error jar,
             final (BashSh.fallback w st)
             = write_result (failed error jar) (emit (Build NoShade) st))
         ∨ final (BashSh.fallback w st) = emit (Build NoShade) st.
Proof.
  unfold BashSh.fallback, BashSh.fallback_succeeds.
  destruct (noshade_jar w) as [find_status jar]. simpl.
  destruct (noshade_build w =? 0)%nat; simpl.
  - destruct (find_status =? 0)%nat eqn:Hfind; simpl.
    + destruct (jar =? "")%string; simpl.
      * split; [done |]. left. by eexists _, _.
      * destruct (noshade_verify w =? 0)%nat; simpl; (split; [done |]);
          [done |].
        left. by eexists _, _.
    + apply Nat.eqb_neq in Hfind. split; [by apply leave_nonzero |].
      by right.
  - split; [by apply leave_nonzero |]. left. by eexists _, _.
Qed.



End UnproductiveRuns.


Section PatchPaths.
Import JS FileSystem FixRoute Shell.

(** The path check the revision adds to the loop over the returned
    files: as long as the writes succeed, a path with [..] or a leading
    [/] is skipped with its warning and the loop goes on; every other path
    is written. *)
Lemma revised_skips_suspicious_paths w n paths st :
  (∀ path, path ∈ paths → suspicious path = false →
           write_status w n path = 0%nat) →
  BashShRevised.apply_fixes w n paths st
  = (None,
     {| trace := trace st
                   ++ map (λ path, if suspicious path then Skipped path
                                   else Updated path) paths;
        result_file := result_file st |}).
Proof.
  revert st. induction paths as [| path paths IH]; intros st Hw; simpl.
  - rewrite app_nil_r. by destruct st.
  - destruct (suspicious path) eqn:Hs.
    + rewrite IH by (intros q Hq; apply Hw; by right).
      simpl. by rewrite <- app_assoc.
    + rewrite (Hw path) by (done || by left). simpl.
      rewrite IH by (intros q Hq; apply Hw; by right).
      simpl. by rewrite <- app_assoc.
Qed.

(** The revision itself stops before its loop: whatever the build would
    do, a run of the file starts no build and no attempt, writes no
    result, and ends with a status that is not 0. *)
Remark revised_script_stops_before_build (w : world) :
  results (trace (final (BashShRevised.run w))) = []
  ∧ count is_attempt (trace (final (BashShRevised.run w))) = 0%nat
  ∧ result_file (final (BashShRevised.run w)) = previous_result w
  ∧ exit_status (BashShRevised.run w) ≠ 0%nat.
Proof.
  unfold BashShRevised.run. simpl. repeat split.
  by destruct (started_inside w).
Qed.

(** C3 (defect): the fix route writes a returned file whose key climbs out
    of the plugin directory, and one whose key is an absolute path, to the
    place the key resolves to; [bash.sh] writes such paths as well.  Only
    the revised script skips them. *)
Theorem fix_route_writes_outside_project :
  ∃ fs',
    post_fix FixRouteExample.fixer StatusExample.fresh
      FixRouteExample.escaping_request
    = (Fixed true [(js "../../outside/Evil.java", js "class A {}");
                   (js "/tmp/pom.xml", js "class A {}")], fs')
    ∧ regular_files fs' !! js "/srv/outside/Evil.java"
      = Some (js "class A {}")
    ∧ regular_files fs' !! js "/tmp/pom.xml" = Some (js "class A {}")
    ∧ trace (BashSh.apply_fixes ScriptExample.escaping 1
               (fixed_paths ScriptExample.escaping 1) start).2
      = [Build Normal; Updated "../../outside/Evil.java";
         Updated "/etc/cron.d/job"; Updated "src/main/java/A.java"]
    ∧ trace (BashShRevised.apply_fixes ScriptExample.escaping 1
               (fixed_paths ScriptExample.escaping 1) start).2
      = [Build Normal; Skipped "../../outside/Evil.java";
         Skipped "/etc/cron.d/job"; Updated "src/main/java/A.java"].
Proof.
  eexists. split; [vm_compute; reflexivity |].
  repeat split; vm_compute; reflexivity.
Qed.

End PatchPaths.

(* ===================================================================== *)
(** * Further properties of the error parser *)
(* ===================================================================== *)

Section RegexFacts.
Import JS.

Lemma starts_with_app (l b : list N) : starts_with l (l ++ b) = true.
Proof.
  induction l as [| c l IH]; simpl; [done |].
  by rewrite N.eqb_refl, IH.
Qed.

Lemma star_k_greedy {A} cls (a b : list N) (k : list N → option A) r :
  forallb cls a = true →
  match b with c :: _ => cls c = false | [] => True end →
  k b = Some r →
  star_k cls (a ++ b) k = Some r.
Proof.
  intros Ha Hb Hk. induction a as [| c a IH]; simpl.
  - destruct b as [| c b]; simpl; [done |]. by rewrite Hb.
  - simpl in Ha. apply andb_true_iff in Ha as [Hc Ha].
    rewrite Hc, (IH Ha). done.
Qed.

Lemma rmatch_lit {A} l (b : list N) caps
    (k : list N → gmap nat (list N) → option A) :
  rmatch (Lit l) (l ++ b) caps k = k b caps.
Proof.
  simpl. rewrite starts_with_app. by rewrite drop_app_length.
Qed.

Lemma rmatch_plus_greedy {A} cls (a b : list N) caps
    (k : list N → gmap nat (list N) → option A) r :
  a ≠ [] → forallb cls a = true →
  match b with c :: _ => cls c = false | [] => True end →
  k b caps = Some r →
  rmatch (Plus cls) (a ++ b) caps k = Some r.
Proof.
  intros Hne Ha Hb Hk. destruct a as [| c a]; [done |].
  simpl in Ha. apply andb_true_iff in Ha as [Hc Ha].
  simpl. rewrite Hc. by apply star_k_greedy.
Qed.

Lemma rmatch_star_greedy {A} cls (a b : list N) caps
    (k : list N → gmap nat (list N) → option A) r :
  forallb cls a = true →
  match b with c :: _ => cls c = false | [] => True end →
  k b caps = Some r →
  rmatch (Star cls) (a ++ b) caps k = Some r.
Proof. intros. simpl. by apply star_k_greedy. Qed.

Lemma rmatch_opt_skip {A} r (s : list N) caps
    (k : list N → gmap nat (list N) → option A) :
  rmatch r s caps k = None → rmatch (Opt r) s caps k = k s caps.
Proof. intros H. simpl. by rewrite H. Qed.

Lemma rmatch_opt_take {A} r (s : list N) caps
    (k : list N → gmap nat (list N) → option A) x :
  rmatch r s caps k = Some x → rmatch (Opt r) s caps k = Some x.
Proof. intros H. simpl. by rewrite H. Qed.

Lemma take_captured (a b : list N) :
  take (length (a ++ b) - length b) (a ++ b) = a.
Proof.
  rewrite length_app.
  replace (length a + length b - length b)%nat with (length a) by lia.
  by rewrite take_app_length.
Qed.

Lemma search_unfold r index s :
  search r index s
  = match rmatch r s ∅ (λ rest caps, Some (rest, caps)) with
    | Some (rest, caps) =>
        Some {| m_index := index;
                m_full := take (length s - length rest)%nat s;
                m_groups := caps |}
    | None =>
        match s with
        | [] => None
        | _ :: s' => search r (S index) s'
        end
    end.
Proof. by destruct s. Qed.

End RegexFacts.

Section DiagnosticLines.
Import JS ErrorParser Diagnostics.




Lemma diagnostic_match (ws path line col ws' msg : list N) :
  blank ws → path ≠ [] → forallb not_colon path = true → starts_black path →
  digits line → (col = [] ∨ ∃ c, col = 44 :: c ∧ digits c) →
  blank ws' → starts_black msg → forallb any_char msg = true →
  js_match fileError_re
    (js "[ERROR]" ++ ws ++ path ++ js ":[" ++ line ++ col ++ js "]"
       ++ ws' ++ msg)
  = Some {| m_index := 0;
            m_full := js "[ERROR]" ++ ws ++ path ++ js ":[" ++ line ++ col
                        ++ js "]" ++ ws' ++ msg;
            m_groups := <[3%nat := msg]> (<[2%nat := line]>
                          (<[1%nat := path]> ∅)) |}.
Proof.
  intros [Hws1 Hws2] Hp1 Hp2 Hp3 [Hl1 Hl2] Hcol [Hw1 Hw2] Hm1 Hm2.
  unfold js_match. rewrite search_unfold.
  set (k0 := λ (rest : list N) (caps : gmap nat (list N)), Some (rest, caps)).
  assert (rmatch fileError_re
            (js "[ERROR]" ++ ws ++ path ++ js ":[" ++ line ++ col ++ js "]"
               ++ ws' ++ msg) ∅ k0
          = Some ([], <[3%nat := msg]> (<[2%nat := line]>
                        (<[1%nat := path]> ∅)))) as ->.
  { unfold fileError_re.
    change (rmatch (Seq ?a ?b) ?s ?c ?k)
      with (rmatch a s c (λ s1 c1, rmatch b s1 c1 k)).
    rewrite rmatch_lit.
    change (rmatch (Seq ?a ?b) ?s ?c ?k)
      with (rmatch a s c (λ s1 c1, rmatch b s1 c1 k)).
    apply rmatch_plus_greedy; [done | done | |].
    { destruct path as [| c path]; [done |]. exact Hp3. }
    change (rmatch (Seq ?a ?b) ?s ?c ?k)
      with (rmatch a s c (λ s1 c1, rmatch b s1 c1 k)).
    change (rmatch (Group ?i ?r) ?s ?c ?k)
      with (rmatch r s c
              (λ s1 c1, k s1 (<[i := take (length s - length s1)%nat s]> c1))).
    apply rmatch_plus_greedy; [done | done | reflexivity |].
    rewrite take_captured.
    change (rmatch (Seq ?a ?b) ?s ?c ?k)
      with (rmatch a s c (λ s1 c1, rmatch b s1 c1 k)).
    rewrite rmatch_lit.
    change (rmatch (Seq ?a ?b) ?s ?c ?k)
      with (rmatch a s c (λ s1 c1, rmatch b s1 c1 k)).
    change (rmatch (Group ?i ?r) ?s ?c ?k)
      with (rmatch r s c
              (λ s1 c1, k s1 (<[i := take (length s - length s1)%nat s]> c1))).
    apply rmatch_plus_greedy; [done | done | |].
    { destruct Hcol as [-> | [c [-> _]]]; reflexivity. }
    rewrite take_captured.
    change (rmatch (Seq ?a ?b) ?s ?c ?k)
      with (rmatch a s c (λ s1 c1, rmatch b s1 c1 k)).
    assert (∀ caps,
              rmatch (Seq (Lit (js "]"))
                        (Seq (Plus is_white_space) (Group 3 (Star any_char))))
                (js "]" ++ ws' ++ msg) caps k0
              = Some ([], <[3%nat := msg]> caps)) as Htail.
    { intros caps.
      change (rmatch (Seq ?a ?b) ?s ?c ?k)
        with (rmatch a s c (λ s1 c1, rmatch b s1 c1 k)).
      rewrite rmatch_lit.
      change (rmatch (Seq ?a ?b) ?s ?c ?k)
        with (rmatch a s c (λ s1 c1, rmatch b s1 c1 k)).
      apply rmatch_plus_greedy; [done | done | |].
      { destruct msg as [| c msg]; [done |]. exact Hm1. }
      change (rmatch (Group ?i ?r) ?s ?c ?k)
        with (rmatch r s c
                (λ s1 c1, k s1 (<[i := take (length s - length s1)%nat s]> c1))).
      rewrite <- (app_nil_r msg) at 1.
      apply rmatch_star_greedy; [done | done |].
      simpl. rewrite Nat.sub_0_r, firstn_all. done. }
    destruct Hcol as [-> | [c [-> [Hc1 Hc2]]]].
    - rewrite rmatch_opt_skip by reflexivity. apply Htail.
    - apply rmatch_opt_take.
      change ((44 :: c) ++ ?x) with (js "," ++ c ++ x).
      change (rmatch (Seq ?a ?b) ?s ?c ?k)
        with (rmatch a s c (λ s1 c1, rmatch b s1 c1 k)) at 1.
      rewrite rmatch_lit.
      apply rmatch_plus_greedy; [done | done | reflexivity |].
      apply Htail. }
  cbv beta iota. f_equal. f_equal.
  change (length (@nil N)) with 0%nat. rewrite Nat.sub_0_r. apply firstn_all.
Qed.







(** X1: [parseErrors], the branch of a compiler diagnostic.  A line that,
    trimmed, reads [[ERROR] <path>:[<line>] <message>] or
    [[ERROR] <path>:[<line>,<column>] <message>] adds
    [Line <line>: <message>] at the end of the list kept under the
    basename of the path, and leaves every other list and the general
    errors alone; the column is dropped and earlier messages of the file
    stay in order.  The basename must not be the name of a property of
    [Object.prototype]. *)
Theorem diagnostic_line_recorded (result : parsed)
    (raw ws path line col ws' msg : list N) :
  trim raw = diagnostic ws path line col ws' msg →
  well_formed_diagnostic ws path line col ws' msg →
  inherited (basename path) = false →
  process_line result raw
  = Returns
      {| fileErrors :=
           <[basename path :=
               default [] (fileErrors result !! basename path)
                 ++ [js "Line " ++ line ++ js ": " ++ msg]]>
             (fileErrors result);
         generalErrors := generalErrors result |}.
Proof.
  intros Htrim (Hws & Hp1 & Hp2 & Hl & Hcol & Hws' & Hm1 & Hm2) Hinh.
  assert (path ≠ []) as Hp0 by (by destruct path).
  pose proof (diagnostic_match ws path line col ws' msg
                Hws Hp0 Hp2 Hp1 Hl Hcol Hws' Hm1 Hm2) as Hmatch.
  unfold process_line. rewrite Htrim.
  unfold diagnostic at 1. change (js "[ERROR]" ++ ?x) with (91 :: (js "ERROR]" ++ x)) at 1.
  cbv beta iota. fold (diagnostic ws path line col ws' msg) in Hmatch.
  change (91 :: js "ERROR]" ++ ?x) with (js "[ERROR]" ++ x).
  fold (diagnostic ws path line col ws' msg).
  rewrite Hmatch. unfold group. simpl m_groups.
  rewrite lookup_insert_ne, lookup_insert_ne, lookup_insert_eq by done.
  rewrite lookup_insert_ne, lookup_insert_eq by done.
  rewrite lookup_insert_eq. simpl default.
  unfold push_under, get. rewrite Hinh.
  destruct (fileErrors result !! basename path); reflexivity.
Qed.

Lemma diagnostic_line_recorded_witness :
  process_line empty_result
    (js "  [ERROR] /srv/p/src/main/java/Foo.java:[12] cannot find symbol  ")
  = Returns
      {| fileErrors := {[ js "Foo.java" := [js "Line 12: cannot find symbol"] ]};
         generalErrors := [] |}.
Proof.
  apply (diagnostic_line_recorded empty_result _ (js " ")
           (js "/srv/p/src/main/java/Foo.java") (js "12") [] (js " ")
           (js "cannot find symbol")).
  - vm_compute. reflexivity.
  - repeat split; try (vm_compute; congruence); try reflexivity.
    by left.
  - vm_compute. reflexivity.
Defined.

End DiagnosticLines.

Section ParserThrows.
Import JS ErrorParser FileSystem FixRoute Diagnostics.


Lemma no_match_on_empty : js_match fileError_re [] = None.
Proof. reflexivity. Qed.

Lemma pom_not_inherited : inherited (js "pom.xml") = false.
Proof. vm_compute. reflexivity. Qed.

Lemma push_under_cases key msg obj :
  (inherited key = true ∧ obj !! key = None
   ∧ push_under key msg obj = Throws push_error)
  ∨ ((inherited key = false ∨ obj !! key ≠ None)
     ∧ push_under key msg obj
       = Returns (<[key := default [] (obj !! key) ++ [msg]]> obj)).
Proof.
  unfold push_under, get.
  destruct (obj !! key) as [arr |] eqn:Hk.
  - right. split; [by right | done].
  - destruct (inherited key) eqn:Hi.
    + by left.
    + right. split; [by left | done].
Qed.

Lemma push_under_keeps key msg r fe :
  no_inherited_own r →
  push_under key msg (fileErrors r) = Returns fe →
  ∀ k, inherited k = true → fe !! k = None.
Proof.
  intros Hinv Hpush k Hk.
  destruct (push_under_cases key msg (fileErrors r))
    as [(_ & _ & Hthrow) | [Hok Hret]]; [congruence |].
  rewrite Hret in Hpush. injection Hpush as <-.
  destruct (decide (k = key)) as [-> | Hne].
  - destruct Hok as [Hi | Hown]; [congruence |].
    by rewrite (Hinv key Hk) in Hown.
  - rewrite lookup_insert_ne by done. by apply Hinv.
Qed.

Lemma process_line_cases r raw :
  no_inherited_own r →
  (offending raw ∧ process_line r raw = Throws push_error)
  ∨ (¬ offending raw
     ∧ ∃ r', process_line r raw = Returns r' ∧ no_inherited_own r'
             ∧ generalErrors r'
               = generalErrors r
                 ++ (if general_line (trim raw)
                     then [replace error_or_fatal_tag_re [] (trim raw)]
                     else [])).
Proof.
  intros Hinv. unfold process_line, offending, general_line.
  destruct (trim raw) as [| c line] eqn:Htrim.
  { right. split.
    - intros [m [Hm _]]. by rewrite no_match_on_empty in Hm.
    - exists r. by rewrite app_nil_r. }
  destruct (js_match fileError_re (c :: line)) as [m |] eqn:Hm.
  - destruct (push_under_cases (basename (group m 1))
                (js "Line " ++ group m 2 ++ js ": " ++ group m 3)
                (fileErrors r)) as [(Hi & Hnone & Hthrow) | [Hok Hret]].
    + left. split; [by exists m |]. by rewrite Hthrow.
    + right. split.
      * intros [m' [Hm' Hi]]. injection Hm' as <-.
        destruct Hok as [Hf | Hown]; [congruence |].
        by rewrite (Hinv _ Hi) in Hown.
      * rewrite Hret. eexists. split; [done |]. split.
        -- intros k Hk. simpl. eapply push_under_keeps; [exact Hinv | exact Hret | exact Hk].
        -- simpl. by rewrite app_nil_r.
  - right. split; [intros [m [Hm' _]]; congruence |].
    destruct (mentions_pom (c :: line)) eqn:Hpom.
    + destruct (push_under_cases (js "pom.xml")
                  (replace error_tag_re [] (c :: line)) (fileErrors r))
        as [(Hi & _ & _) | [_ Hret]].
      { by rewrite pom_not_inherited in Hi. }
      rewrite Hret. eexists. split; [done |]. split.
      * intros k Hk. simpl.
        eapply push_under_keeps; [exact Hinv | exact Hret | exact Hk].
      * simpl. by rewrite app_nil_r.
    + simpl. destruct (has_error_marker (c :: line)).
      * eexists. split; [done |]. split; [exact Hinv | done].
      * exists r. split; [done |]. split; [exact Hinv | by rewrite app_nil_r].
Qed.

Lemma process_lines_cases r lines :
  no_inherited_own r →
  ((∃ l, l ∈ lines ∧ offending l)
   ∧ process_lines r lines = Throws push_error)
  ∨ ((∀ l, l ∈ lines → ¬ offending l)
     ∧ ∃ r', process_lines r lines = Returns r' ∧ no_inherited_own r'
             ∧ generalErrors r'
               = generalErrors r
                 ++ map (replace error_or_fatal_tag_re [])
                      (List.filter general_line (map trim lines))).
Proof.
  revert r. induction lines as [| l lines IH]; intros r Hinv.
  - right. split; [intros l Hl; by apply elem_of_nil in Hl |].
    exists r. simpl. by rewrite app_nil_r.
  - simpl.
    destruct (process_line_cases r l Hinv)
      as [[Hoff Hthrow] | [Hok (r1 & Hret & Hinv1 & Hgen1)]].
    + left. split; [exists l; split; [left | done] |]. by rewrite Hthrow.
    + rewrite Hret.
      destruct (IH r1 Hinv1)
        as [[(l' & Hl' & Hoff) Hthrow] | [Hall (r' & Hret' & Hinv' & Hgen')]].
      * left. split; [exists l'; split; [by right | done] | done].
      * right. split.
        -- intros l' Hl'. apply elem_of_cons in Hl' as [-> | Hl']; auto.
        -- exists r'. split; [done |]. split; [done |].
           rewrite Hgen', Hgen1, <- app_assoc. f_equal.
           by destruct (general_line (trim l)).
Qed.

Lemma empty_no_inherited_own : no_inherited_own empty_result.
Proof. intros k _. apply lookup_empty. Qed.

(** X2: [parseErrors] and the handler of the fix route.  [parseErrors]
    throws exactly when some line of the build output is a diagnostic of a
    file whose basename is a property of [Object.prototype]
    ([constructor], [toString], ...): the inherited value is truthy, no
    list is created, and [push] is not a function.  It throws nothing
    else; the fix route answers such a request with status 500 and leaves
    the disk as it is. *)
Theorem parse_throws_on_prototype_names (s : list N) :
  (parseErrors (VString s) = Throws push_error
   ↔ ∃ line, line ∈ split_on 10 s ∧ offending line)
  ∧ (∀ e, parseErrors (VString s) = Throws e → e = push_error)
  ∧ ∀ fixer fs req,
      buildErrors req = VString s → truthy (files req) = true →
      pluginDir req = VUndefined ∨ is_string (pluginDir req) = true →
      (∃ line, line ∈ split_on 10 s ∧ offending line) →
      post_fix fixer fs req = (ServerError push_error, fs).
Proof.
  assert (parseErrors (VString s) = Throws push_error
          ↔ ∃ line, line ∈ split_on 10 s ∧ offending line) as Hiff.
  { simpl.
    destruct (process_lines_cases empty_result (split_on 10 s)
                empty_no_inherited_own)
      as [[Hex Hthrow] | [Hall (r' & Hret & _)]].
    - split; [by intros _ | by intros _].
    - split; [by rewrite Hret |].
      intros (l & Hl & Hoff). by destruct (Hall l Hl). }
  split; [exact Hiff |]. split.
  - intros e He. simpl in He.
    destruct (process_lines_cases empty_result (split_on 10 s)
                empty_no_inherited_own)
      as [[_ Hthrow] | [_ (r' & Hret & _)]]; congruence.
  - intros fixer fs req Hb Hf _ Hoff. apply Hiff in Hoff.
    unfold post_fix. rewrite Hb, Hf, Hoff.
    destruct s as [| c s]; [discriminate Hoff |]. reflexivity.
Qed.

Lemma parse_throws_on_prototype_names_witness :
  post_fix FixRouteExample.fixer StatusExample.fresh
    {| buildErrors := VString (js "[INFO] compiling
[ERROR] /srv/app/demo/toString:[3,1] not a statement");
       files := VObject [(js "src/A.java", VString (js "class A {"))];
       pluginDir := VString (js "/srv/app/demo") |}
  = (ServerError push_error, StatusExample.fresh).
Proof.
  apply (parse_throws_on_prototype_names
           (js "[INFO] compiling
[ERROR] /srv/app/demo/toString:[3,1] not a statement")); [reflexivity | reflexivity | by right |].
  exists (js "[ERROR] /srv/app/demo/toString:[3,1] not a statement").
  split; [apply (bool_decide_unpack _); vm_compute; exact I |].
  eexists. split; vm_compute; reflexivity.
Defined.

(** X3: [parseErrors], the general errors.  When [parseErrors] returns, its
    general errors are, in the order of the build output, the trimmed
    lines that are not empty, are no file diagnostic, contain none of
    [pom.xml], [POM] and [maven] (a line that contains one of them goes
    to the errors of [pom.xml]) and hold [[ERROR]] or [[FATAL]], each
    with its first [[ERROR]] or [[FATAL]] tag and the white space after it
    removed. *)
Theorem general_errors_in_order (s : list N) (r : parsed) :
  parseErrors (VString s) = Returns r →
  generalErrors r
  = map (replace error_or_fatal_tag_re [])
      (List.filter general_line (map trim (split_on 10 s))).
Proof.
  simpl. intros Hr.
  destruct (process_lines_cases empty_result (split_on 10 s)
              empty_no_inherited_own)
    as [[_ Hthrow] | [_ (r' & Hret & _ & Hgen)]]; [congruence |].
  rewrite Hret in Hr. injection Hr as <-. exact Hgen.
Qed.

Lemma general_errors_in_order_witness :
  generalErrors
    {| fileErrors := {[ js "A.java" := [js "Line 3: ';' expected"] ]};
       generalErrors := [js "COMPILATION ERROR :"; js "BUILD FAILURE [ERROR] twice"] |}
  = map (replace error_or_fatal_tag_re [])
      (List.filter general_line
         (map trim (split_on 10 (js "[INFO] Compiling 2 source files
[ERROR] COMPILATION ERROR :
[ERROR] /srv/p/src/A.java:[3,14] ';' expected
  [FATAL] BUILD FAILURE [ERROR] twice
[WARNING] deprecated")))).
Proof.
  apply general_errors_in_order. vm_compute. reflexivity.
Defined.

End ParserThrows.

(* ===================================================================== *)
(** * Properties of the clean-up of the model's answer *)
(* ===================================================================== *)

Section CleanFacts.
Import JS ErrorParser FileSystem FixRoute Patches.

Lemma starts_with_app' (l b : list N) : starts_with l (l ++ b) = true.
Proof.
  induction l as [| c l IH]; simpl; [done |].
  by rewrite N.eqb_refl, IH.
Qed.

Lemma starts_with_short (sub s : list N) :
  (length s < length sub)%nat → starts_with sub s = false.
Proof.
  revert s. induction sub as [| a sub IH]; intros s Hl; simpl in *; [lia |].
  destruct s as [| b s]; [done |]. simpl in Hl.
  rewrite IH by lia. apply andb_false_r.
Qed.

Lemma last_index_of_short (sub s : list N) i :
  (length s < length sub)%nat → last_index_of sub s i = None.
Proof.
  revert i. induction s as [| c s IH]; intros i Hl; simpl.
  - by rewrite starts_with_short.
  - simpl in Hl. rewrite IH by lia. by rewrite starts_with_short.
Qed.

Lemma starts_with_refl (l : list N) : starts_with l l = true.
Proof. rewrite <- (app_nil_r l) at 2. apply starts_with_app'. Qed.

Lemma last_index_of_self (sub : list N) i :
  sub ≠ [] → last_index_of sub sub i = Some i.
Proof.
  intros Hsub. destruct sub as [| x t]; [done |].
  change (last_index_of (x :: t) (x :: t) i)
    with (match last_index_of (x :: t) t (S i) with
          | Some j => Some j
          | None => if starts_with (x :: t) (x :: t) then Some i else None
          end).
  rewrite last_index_of_short by (simpl; lia).
  by rewrite starts_with_refl.
Qed.

Lemma last_index_of_end (sub a : list N) i :
  sub ≠ [] → last_index_of sub (a ++ sub) i = Some (i + length a)%nat.
Proof.
  intros Hsub. revert i. induction a as [| c a IH]; intros i.
  - simpl app. rewrite last_index_of_self by done. f_equal. simpl. lia.
  - simpl. rewrite IH. f_equal. lia.
Qed.

Lemma index_of_first (x : N) (a b : list N) i :
  x ∉ a → index_of [x] (a ++ x :: b) i = Some (i + length a)%nat.
Proof.
  intros Hx. revert i. induction a as [| c a IH]; intros i; simpl.
  - rewrite N.eqb_refl. simpl. f_equal. lia.
  - apply not_elem_of_cons in Hx as [Hc Ha].
    destruct (x =? c) eqn:Heq; [apply N.eqb_eq in Heq; congruence |].
    simpl. rewrite IH by done. f_equal. lia.
Qed.

Lemma index_of_none (x : N) (a : list N) i :
  x ∉ a → index_of [x] a i = None.
Proof.
  intros Hx. revert i. induction a as [| c a IH]; intros i; simpl; [done |].
  apply not_elem_of_cons in Hx as [Hc Ha].
  destruct (x =? c) eqn:Heq; [apply N.eqb_eq in Heq; congruence |].
  simpl. by apply IH.
Qed.

Lemma ends_with_app (a suf : list N) : ends_with (a ++ suf) suf = true.
Proof. unfold ends_with. rewrite rev_app_distr. apply starts_with_app'. Qed.

Lemma drop_while_head p (c : N) s :
  p c = false → drop_while p (c :: s) = c :: s.
Proof. intros H. simpl. by rewrite H. Qed.

Lemma trim_black (s : list N) :
  match s with c :: _ => is_white_space c = false | [] => True end →
  match rev s with d :: _ => is_white_space d = false | [] => True end →
  trim s = s.
Proof.
  intros Hc Hd. unfold trim. destruct s as [| c s]; [done |].
  rewrite drop_while_head by done.
  destruct (rev (c :: s)) as [| d t] eqn:Hrev.
  - by rewrite <- (rev_involutive (c :: s)), Hrev.
  - rewrite drop_while_head by done.
    by rewrite <- Hrev, rev_involutive.
Qed.

Lemma trim_fenced (a : list N) :
  trim (js "```" ++ a ++ js "```") = js "```" ++ a ++ js "```".
Proof.
  apply trim_black; [reflexivity |].
  rewrite !rev_app_distr. reflexivity.
Qed.

Lemma slice_middle (a b c : list N) :
  slice (length a) (length (a ++ b)) (a ++ b ++ c) = b.
Proof.
  unfold slice. rewrite drop_app_length, length_app.
  replace (length a + length b - length a)%nat with (length b) by lia.
  apply take_app_length.
Qed.


(** X4: the clean-up of the model's answer in the fix route.  An answer
    that is a fenced block, three backquotes and the rest of that line,
    the body, three backquotes, is replaced by the trimmed body: the fence
    lines and the language tag are gone, whatever the body holds. *)
Theorem clean_unwraps_fenced_block (lang body : list N) :
  10 ∉ lang →
  clean (fence ++ lang ++ 10 :: body ++ fence) = trim body.
Proof.
  intros Hlang. unfold clean.
  assert (trim (fence ++ lang ++ 10 :: body ++ fence)
          = fence ++ lang ++ 10 :: body ++ fence) as ->.
  { replace (lang ++ 10 :: body ++ fence) with ((lang ++ 10 :: body) ++ fence)
      by (by rewrite <- app_assoc).
    apply trim_fenced. }
  change (js "```") with fence.
  rewrite starts_with_app'.
  replace (fence ++ lang ++ 10 :: body ++ fence)
    with ((fence ++ lang ++ 10 :: body) ++ fence) at 1
    by (by rewrite <- !app_assoc).
  rewrite ends_with_app. simpl andb. cbv iota.
  replace (fence ++ lang ++ 10 :: body ++ fence)
    with ((fence ++ lang) ++ 10 :: (body ++ fence)) at 1
    by (by rewrite <- !app_assoc).
  rewrite index_of_first.
  2:{ intros Hin. apply elem_of_app in Hin as [Hin | Hin]; [| done].
      revert Hin. apply (bool_decide_unpack _). vm_compute. exact I. }
  replace (fence ++ lang ++ 10 :: body ++ fence)
    with ((fence ++ lang ++ 10 :: body) ++ fence) at 1
    by (by rewrite <- !app_assoc).
  rewrite last_index_of_end by done.
  change (default ?d (Some ?x)) with x. f_equal.
  replace (S (0 + length (fence ++ lang)))
    with (length ((fence ++ lang) ++ [10%N]))
    by (rewrite !length_app; simpl; lia).
  replace (0 + length (fence ++ lang ++ 10%N :: body))%nat
    with (length (((fence ++ lang) ++ [10%N]) ++ body))
    by (rewrite <- !app_assoc; reflexivity).
  replace (fence ++ lang ++ 10 :: body ++ fence)
    with (((fence ++ lang) ++ [10]) ++ body ++ fence)
    by (rewrite <- !app_assoc; reflexivity).
  apply slice_middle.
Qed.

(** X5: the clean-up of the model's answer, fence on one line.  When the
    answer starts and ends with three backquotes and has no line break,
    [indexOf] finds none and the slice starts at 0: only the closing
    fence is cut, and the patch keeps the opening backquotes. *)
Theorem clean_keeps_fence_on_one_line (text : list N) :
  10 ∉ text →
  clean (fence ++ text ++ fence) = trim (fence ++ text).
Proof.
  intros Htext. unfold clean.
  assert (trim (fence ++ text ++ fence) = fence ++ text ++ fence) as ->.
  { apply trim_fenced. }
  change (js "```") with fence.
  rewrite starts_with_app'.
  replace (fence ++ text ++ fence) with ((fence ++ text) ++ fence) at 1
    by (by rewrite <- !app_assoc).
  rewrite ends_with_app. simpl andb. cbv iota.
  rewrite index_of_none.
  2:{ intros Hin. apply elem_of_app in Hin as [Hin | Hin].
      - revert Hin. apply (bool_decide_unpack _). vm_compute. exact I.
      - apply elem_of_app in Hin as [Hin | Hin]; [done |].
        revert Hin. apply (bool_decide_unpack _). vm_compute. exact I. }
  replace (fence ++ text ++ fence) with ((fence ++ text) ++ fence) at 1
    by (by rewrite <- !app_assoc).
  rewrite last_index_of_end by done.
  change (default ?d (Some ?x)) with x. f_equal.
  change (0 + length (fence ++ text))%nat
    with (length ([] ++ fence ++ text)).
  change (fence ++ text ++ fence) with ([] ++ fence ++ text ++ fence).
  replace (fence ++ text ++ fence) with ((fence ++ text) ++ fence)
    by (by rewrite <- !app_assoc).
  apply (slice_middle []).
Qed.

End CleanFacts.

Lemma clean_unwraps_fenced_block_witness :
  (10 ∉ JS.js "java")
  ∧ FixRoute.clean (Patches.fence ++ JS.js "java" ++ 10 :: JS.js "class A {} " ++ Patches.fence)
    = JS.js "class A {}".
Proof.
  split.
  - apply (bool_decide_unpack _). vm_compute. exact I.
  - rewrite (clean_unwraps_fenced_block (JS.js "java") (JS.js "class A {} ")).
    + vm_compute. reflexivity.
    + apply (bool_decide_unpack _). vm_compute. exact I.
Defined.

Lemma clean_keeps_fence_on_one_line_witness :
  (10 ∉ JS.js "name: Demo")
  ∧ FixRoute.clean (Patches.fence ++ JS.js "name: Demo" ++ Patches.fence)
    = Patches.fence ++ JS.js "name: Demo".
Proof.
  split.
  - apply (bool_decide_unpack _). vm_compute. exact I.
  - rewrite (clean_keeps_fence_on_one_line (JS.js "name: Demo")).
    + vm_compute. reflexivity.
    + apply (bool_decide_unpack _). vm_compute. exact I.
Defined.

(* ===================================================================== *)
(** * Properties of [path.resolve] and of [writeFixedFiles] *)
(* ===================================================================== *)

Section PathFacts.
Import JS Paths.


Lemma normalize_segments_app b acc s1 s2 :
  normalize_segments b acc (s1 ++ s2)
  = normalize_segments b (normalize_segments b acc s1) s2.
Proof.
  revert acc. induction s1 as [| seg s1 IH]; intros acc; [done |].
  simpl.
  destruct (bool_decide (seg = []) || bool_decide (seg = [46])); [apply IH |].
  destruct (bool_decide (seg = [46; 46])); [| apply IH].
  destruct (last acc) as [l |].
  - destruct (bool_decide (l = [46; 46])); apply IH.
  - destruct b; apply IH.
Qed.

Lemma normalize_segments_no_dotdot b acc segs :
  [46; 46] ∉ segs →
  normalize_segments b acc segs
  = acc ++ filter (λ seg, seg ≠ [] ∧ seg ≠ [46]) segs.
Proof.
  revert acc. induction segs as [| seg segs IH]; intros acc Hno.
  - by rewrite app_nil_r.
  - apply not_elem_of_cons in Hno as [Hne Hno]. simpl.
    rewrite filter_cons.
    destruct (decide (seg ≠ [] ∧ seg ≠ [46])) as [[H1 H2] | Hn].
    + rewrite !bool_decide_eq_false_2 by done. simpl.
      rewrite IH by done. by rewrite <- app_assoc.
    + assert (bool_decide (seg = []) || bool_decide (seg = [46]) = true)
        as ->.
      { apply orb_true_iff.
        destruct (decide (seg = [])) as [-> | H1]; [by left |].
        right. apply bool_decide_eq_true.
        destruct (decide (seg = [46])) as [-> | H2]; [done |].
        destruct Hn. done. }
      by apply IH.
Qed.

Lemma normalize_segments_plain acc segs :
  Forall plain acc → Forall (λ seg, 47 ∉ seg) segs →
  Forall plain (normalize_segments false acc segs).
Proof.
  revert acc. induction segs as [| seg segs IH]; intros acc Hacc Hsegs;
    [done |].
  apply Forall_cons in Hsegs as [Hseg Hsegs]. simpl.
  destruct (bool_decide (seg = []) || bool_decide (seg = [46])) eqn:Hskip;
    [by apply IH |].
  apply orb_false_iff in Hskip as [H1 H2].
  apply bool_decide_eq_false in H1, H2.
  destruct (bool_decide (seg = [46; 46])) eqn:Hup.
  - destruct (last acc) as [l |] eqn:Hlast.
    + assert (l ≠ [46; 46]) as Hl.
      { apply last_Some in Hlast as [acc' ->].
        rewrite Forall_app, Forall_singleton in Hacc.
        destruct Hacc as [_ Hl]. apply Hl. }
      rewrite bool_decide_eq_false_2 by done.
      apply IH; [| done].
      apply last_Some in Hlast as [acc' ->].
      rewrite removelast_last. rewrite Forall_app in Hacc. apply Hacc.
    + by apply IH.
  - apply bool_decide_eq_false in Hup.
    apply IH; [| done]. rewrite Forall_app, Forall_singleton. done.
Qed.

Lemma split_on_no_sep sep (s : list N) :
  Forall (λ seg, sep ∉ seg) (split_on sep s).
Proof.
  induction s as [| c s IH]; simpl.
  - apply Forall_singleton. apply not_elem_of_nil.
  - destruct (c =? sep) eqn:Hc.
    + apply Forall_cons. split; [apply not_elem_of_nil | done].
    + destruct (split_on sep s) as [| l ls].
      * apply Forall_singleton. apply N.eqb_neq in Hc.
        intros Hin. apply list_elem_of_singleton in Hin. congruence.
      * apply Forall_cons in IH as [Hl Hls].
        apply Forall_cons. split; [| done].
        apply N.eqb_neq in Hc. intros Hin.
        apply elem_of_cons in Hin as [-> | Hin]; done.
Qed.

Lemma split_on_none sep (s : list N) :
  sep ∉ s → split_on sep s = [s].
Proof.
  induction s as [| c s IH]; intros Hs; [done |].
  apply not_elem_of_cons in Hs as [Hc Hs]. simpl.
  destruct (c =? sep) eqn:Heq; [apply N.eqb_eq in Heq; congruence |].
  by rewrite IH.
Qed.

Lemma split_join sep (segs : list (list N)) :
  segs ≠ [] → Forall (λ seg, sep ∉ seg) segs →
  split_on sep (join_with sep segs) = segs.
Proof.
  induction segs as [| p segs IH]; intros Hne Hall; [done |].
  apply Forall_cons in Hall as [Hp Hall].
  destruct segs as [| q rest].
  - simpl. by apply split_on_none.
  - change (join_with sep (p :: q :: rest))
      with (p ++ sep :: join_with sep (q :: rest)).
    rewrite split_on_app, IH by done. by rewrite split_on_none.
Qed.

Lemma join_with_app sep (a b : list (list N)) :
  a ≠ [] → b ≠ [] →
  join_with sep (a ++ b) = join_with sep a ++ sep :: join_with sep b.
Proof.
  intros Ha Hb. induction a as [| p a IH]; [done |].
  destruct a as [| q a].
  - simpl. by destruct b.
  - change (join_with sep ((p :: q :: a) ++ b))
      with (p ++ sep :: join_with sep ((q :: a) ++ b)).
    rewrite IH by done.
    change (join_with sep (p :: q :: a))
      with (p ++ sep :: join_with sep (q :: a)).
    by rewrite <- app_assoc.
Qed.



Lemma resolve_eq cwd args :
  resolve cwd args = 47 :: join_with 47 (resolve_segments cwd args).
Proof. reflexivity. Qed.

Lemma resolve_segments_plain cwd args :
  Forall plain (resolve_segments cwd args).
Proof.
  apply normalize_segments_plain; [done |].
  apply Forall_concat, Forall_map, Forall_forall. intros p _.
  apply split_on_no_sep.
Qed.

Lemma plain_filter (segs : list (list N)) :
  Forall plain segs → filter (λ seg, seg ≠ [] ∧ seg ≠ [46]) segs = segs.
Proof.
  induction 1 as [| seg segs (_ & H1 & H2 & _) _ IH]; [done |].
  rewrite filter_cons_True by done. by rewrite IH.
Qed.

(** [path.resolve] is idempotent. *)
Lemma resolve_resolve cwd cwd' args :
  resolve cwd' [resolve cwd args] = resolve cwd args.
Proof.
  rewrite (resolve_eq cwd args).
  pose proof (resolve_segments_plain cwd args) as Hplain.
  set (segs := resolve_segments cwd args) in *.
  unfold resolve. simpl fold_left. simpl map. simpl concat.
  rewrite app_nil_r. f_equal. f_equal.
  change (split_on 47 (47 :: join_with 47 segs))
    with ([] :: split_on 47 (join_with 47 segs)).
  simpl normalize_segments.
  destruct segs as [| p segs]; [reflexivity |].
  rewrite split_join.
  - rewrite normalize_segments_no_dotdot.
    + by rewrite plain_filter.
    + intros Hin. eapply Forall_forall in Hplain; [| exact Hin].
      by destruct Hplain as (_ & _ & _ & H).
  - done.
  - eapply Forall_impl; [exact Hplain |]. by intros seg [H _].
Qed.


Lemma resolve_within cwd dir f :
  is_absolute f = false → [46; 46] ∉ split_on 47 f →
  within (resolve cwd [dir]) (resolve cwd [dir; f]).
Proof.
  intros Hrel Hno. rewrite !resolve_eq. unfold resolve_segments.
  destruct f as [| c f].
  { left. reflexivity. }
  assert (resolve_parts cwd [dir; c :: f]
          = resolve_parts cwd [dir] ++ [c :: f]) as ->.
  { change [dir; c :: f] with ([dir] ++ [c :: f]).
    unfold resolve_parts. rewrite fold_left_app.
    cbn [fold_left]. by rewrite Hrel. }
  rewrite map_app, concat_app.
  change (concat (map (split_on 47) [c :: f]))
    with (split_on 47 (c :: f) ++ []).
  rewrite app_nil_r, normalize_segments_app.
  rewrite (normalize_segments_no_dotdot _ _ (split_on 47 (c :: f))) by done.
  set (base := normalize_segments false []
                 (concat (map (split_on 47) (resolve_parts cwd [dir])))).
  set (extra := filter (λ seg, seg ≠ [] ∧ seg ≠ [46]) (split_on 47 (c :: f))).
  destruct extra as [| e extra].
  { left. by rewrite app_nil_r. }
  destruct base as [| b base].
  { right. left. reflexivity. }
  right. right. exists (join_with 47 (e :: extra)).
  by rewrite join_with_app.
Qed.

End PathFacts.

Section WriteFacts.
Import JS ErrorParser FileSystem FixRoute Paths Patches.

Lemma writeFileSync_effect fs q content fs' :
  writeFileSync fs q content = Returns fs' →
  cwd fs' = cwd fs ∧ dirs fs' = dirs fs
  ∧ regular_files fs' = <[canon fs q := content]> (regular_files fs).
Proof.
  unfold writeFileSync. intros H.
  destruct (is_dir fs (canon fs q)); [discriminate H |].
  destruct (negb (is_dir fs (dirname (canon fs q)))); [discriminate H |].
  injection H as <-. done.
Qed.

Lemma mkdirSync_effect fs p fs' :
  mkdirSync fs p = Returns fs' →
  cwd fs' = cwd fs ∧ dirs fs ⊆ dirs fs'
  ∧ regular_files fs' = regular_files fs.
Proof.
  unfold mkdirSync. intros H.
  destruct (existsb _ _); [discriminate H |].
  injection H as <-. simpl. split; [done |]. split; [set_solver | done].
Qed.

(** One step of the loop of [writeFixedFiles]. *)
Lemma write_each_cons fs dir f c rest :
  write_each fs dir ((f, c) :: rest)
  = match write_each fs dir [(f, c)] with
    | (true, fs1) => write_each fs1 dir rest
    | (false, fs1) => (false, fs1)
    end.
Proof.
  cbn [write_each].
  destruct (if existsSync fs (dirname (resolve (cwd fs) [dir; f]))
            then Returns fs
            else mkdirSync fs (dirname (resolve (cwd fs) [dir; f])))
    as [fs1 | e]; [| done].
  destruct (writeFileSync fs1 (resolve (cwd fs) [dir; f]) c) as [fs2 | e];
    done.
Qed.

Lemma write_each_one fs dir f c ok fs' :
  write_each fs dir [(f, c)] = (ok, fs') →
  cwd fs' = cwd fs ∧ dirs fs ⊆ dirs fs'
  ∧ regular_files fs'
    = if ok then <[canon fs (resolve (cwd fs) [dir; f]) := c]> (regular_files fs)
      else regular_files fs.
Proof.
  cbn [write_each]. intros H.
  destruct (existsSync fs (dirname (resolve (cwd fs) [dir; f]))).
  - destruct (writeFileSync fs (resolve (cwd fs) [dir; f]) c) as [fs2 | e] eqn:Hw.
    + injection H as <- <-.
      apply writeFileSync_effect in Hw as (Hc & Hd & Hf).
      rewrite Hd. done.
    + injection H as <- <-. done.
  - destruct (mkdirSync fs (dirname (resolve (cwd fs) [dir; f]))) as [fs1 | e] eqn:Hm.
    + apply mkdirSync_effect in Hm as (Hc1 & Hd1 & Hf1).
      destruct (writeFileSync fs1 (resolve (cwd fs) [dir; f]) c) as [fs2 | e] eqn:Hw.
      * injection H as <- <-.
        apply writeFileSync_effect in Hw as (Hc & Hd & Hf).
        rewrite Hc, Hd, Hf, Hf1. unfold canon. rewrite Hc1. done.
      * injection H as <- <-. done.
    + injection H as <- <-. done.
Qed.

Lemma write_each_app fs dir pre post :
  write_each fs dir (pre ++ post)
  = match write_each fs dir pre with
    | (true, fs1) => write_each fs1 dir post
    | (false, fs1) => (false, fs1)
    end.
Proof.
  revert fs. induction pre as [| [f c] pre IH]; intros fs; [done |].
  change (((f, c) :: pre) ++ post) with ((f, c) :: (pre ++ post)).
  rewrite (write_each_cons fs dir f c (pre ++ post)).
  rewrite (write_each_cons fs dir f c pre).
  destruct (write_each fs dir [(f, c)]) as [[|] fs1]; [apply IH | done].
Qed.


Lemma write_each_success fs dir files fs' :
  write_each fs dir files = (true, fs') →
  cwd fs' = cwd fs ∧ dirs fs ⊆ dirs fs'
  ∧ regular_files fs'
    = fold_left (λ m e, <[target fs dir e.1 := e.2]> m) files
        (regular_files fs).
Proof.
  revert fs. induction files as [| [f c] files IH]; intros fs.
  - simpl. intros H. injection H as <-. done.
  - rewrite write_each_cons.
    destruct (write_each fs dir [(f, c)]) as [[|] fs1] eqn:H1;
      [| discriminate].
    apply write_each_one in H1 as (Hc1 & Hd1 & Hf1).
    intros H. apply IH in H as (Hc & Hd & Hf).
    split; [congruence |]. split; [by etrans |].
    rewrite Hf, Hf1. simpl. unfold target, canon. rewrite Hc1. done.
Qed.

Lemma fold_insert_outside (m : gmap (list N) (list N))
    (files : list (list N * list N)) (key : list N * list N → list N) q :
  q ∉ map key files →
  fold_left (λ m e, <[key e := e.2]> m) files m !! q = m !! q.
Proof.
  revert m. induction files as [| e files IH]; intros m Hq; [done |].
  simpl in *. apply not_elem_of_cons in Hq as [Hne Hq].
  rewrite IH by done. by rewrite lookup_insert_ne.
Qed.

Lemma fold_insert_inside (m : gmap (list N) (list N))
    (files : list (list N * list N)) (key : list N * list N → list N) e :
  NoDup (map key files) → e ∈ files →
  fold_left (λ m e, <[key e := e.2]> m) files m !! key e = Some e.2.
Proof.
  revert m. induction files as [| e0 files IH]; intros m Hnd He.
  - by apply elem_of_nil in He.
  - simpl in *. apply NoDup_cons in Hnd as [Hnot Hnd].
    apply elem_of_cons in He as [-> | He].
    + rewrite fold_insert_outside by done. by rewrite lookup_insert_eq.
    + by apply IH.
Qed.

(** X6: [writeFixedFiles], success.  When [writeFixedFiles] reports success
    and no two keys resolve to the same path, every patch reads back from
    [path.resolve(pluginDir, filename)] with exactly its content, every
    other file is as before, and no directory has gone. *)
Theorem written_patches_read_back (fs fs' : filesys) (dir : list N)
    (fixedFiles : list (list N * list N)) :
  writeFixedFiles fs fixedFiles (VString dir) = (true, fs') →
  NoDup (map (λ e, target fs dir e.1) fixedFiles) →
  (∀ filename content, (filename, content) ∈ fixedFiles →
     readFileSync fs' (resolve (cwd fs') [dir; filename]) = Returns content)
  ∧ (∀ q, q ∉ map (λ e, target fs dir e.1) fixedFiles →
       regular_files fs' !! q = regular_files fs !! q)
  ∧ dirs fs ⊆ dirs fs'.
Proof.
  intros Hw Hnd.
  assert (write_each fs dir fixedFiles = (true, fs')) as Hwe.
  { destruct fixedFiles; [| exact Hw]. simpl in *. done. }
  apply write_each_success in Hwe as (Hc & Hd & Hf).
  split; [| split; [| done]].
  - intros filename content Hin. unfold readFileSync.
    rewrite Hf. unfold canon. rewrite Hc.
    change (resolve (cwd fs) [resolve (cwd fs) [dir; filename]])
      with (target fs dir (filename, content).1).
    rewrite (fold_insert_inside _ _ (λ e, target fs dir e.1) _ Hnd Hin).
    done.
  - intros q Hq. rewrite Hf. by apply fold_insert_outside.
Qed.

(** X7: [writeFixedFiles], failure.  Nothing is rolled back: when the
    patches before one have been written and that one cannot be, the call
    reports [false], the earlier patches stay on disk and the later ones
    are not tried. *)
Theorem failed_write_keeps_earlier_patches (fs fs1 fs2 : filesys)
    (dir filename content : list N) (pre rest : list (list N * list N)) :
  write_each fs dir pre = (true, fs1) →
  write_each fs1 dir [(filename, content)] = (false, fs2) →
  writeFixedFiles fs (pre ++ (filename, content) :: rest) (VString dir)
  = (false, fs2)
  ∧ regular_files fs2
    = fold_left (λ m e, <[target fs dir e.1 := e.2]> m) pre (regular_files fs).
Proof.
  intros Hpre Hbad.
  assert (writeFixedFiles fs (pre ++ (filename, content) :: rest) (VString dir)
          = write_each fs dir (pre ++ (filename, content) :: rest)) as ->.
  { by destruct pre. }
  rewrite write_each_app, Hpre, write_each_cons, Hbad.
  split; [done |].
  apply write_each_one in Hbad as (_ & _ & ->).
  by apply write_each_success in Hpre as (_ & _ & ->).
Qed.


Lemma write_each_effect fs dir files ok fs' :
  write_each fs dir files = (ok, fs') →
  ∃ pre post, files = pre ++ post
    ∧ regular_files fs'
      = fold_left (λ m e, <[target fs dir e.1 := e.2]> m) pre (regular_files fs).
Proof.
  revert fs. induction files as [| [f c] files IH]; intros fs.
  - simpl. intros H. injection H as <- <-. by exists [], [].
  - rewrite write_each_cons.
    destruct (write_each fs dir [(f, c)]) as [[|] fs1] eqn:H1.
    + apply write_each_one in H1 as (Hc1 & Hd1 & Hf1).
      intros H. apply IH in H as (pre & post & -> & Hf).
      exists ((f, c) :: pre), post. split; [done |].
      rewrite Hf, Hf1. simpl. unfold target, canon. rewrite Hc1. done.
    + apply write_each_one in H1 as (Hc1 & Hd1 & Hf1).
      intros H. injection H as <- <-.
      exists [], ((f, c) :: files). split; [done |]. by rewrite Hf1.
Qed.

Lemma target_resolve fs dir f : target fs dir f = resolve (cwd fs) [dir; f].
Proof. apply resolve_resolve. Qed.

Lemma fold_insert_changed (m : gmap (list N) (list N))
    (files : list (list N * list N)) (key : list N * list N → list N) q :
  fold_left (λ m e, <[key e := e.2]> m) files m !! q ≠ m !! q →
  q ∈ map key files.
Proof.
  intros Hne. destruct (decide (q ∈ map key files)) as [Hin | Hout]; [done |].
  by rewrite fold_insert_outside in Hne.
Qed.

(** X8: [writeFixedFiles], where it writes.  When every key of the patch
    set is relative and has no [..] segment, every file the call creates
    or changes, whether it ends in success or not, lies in the resolved
    project directory or below it. *)
Theorem safe_keys_written_inside (fs fs' : filesys) (dir : list N)
    (fixedFiles : list (list N * list N)) (ok : bool) :
  writeFixedFiles fs fixedFiles (VString dir) = (ok, fs') →
  (∀ f, f ∈ fixedFiles.*1 → safe_key f) →
  ∀ q, regular_files fs' !! q ≠ regular_files fs !! q →
       within (resolve (cwd fs) [dir]) q.
Proof.
  intros Hw Hsafe q Hq.
  assert (write_each fs dir fixedFiles = (ok, fs')) as Hwe.
  { destruct fixedFiles; [| exact Hw]. simpl in *. by injection Hw as <- <-. }
  apply write_each_effect in Hwe as (pre & post & -> & Hf).
  rewrite Hf in Hq. apply fold_insert_changed in Hq.
  apply list_elem_of_fmap in Hq as ([f c] & -> & Hin). simpl.
  rewrite target_resolve.
  destruct (Hsafe f) as [Hrel Hno].
  { apply list_elem_of_fmap. exists (f, c). split; [done |].
    apply elem_of_app. by left. }
  by apply resolve_within.
Qed.

End WriteFacts.


Lemma written_patches_read_back_witness :
  FileSystem.readFileSync
    (FixRoute.writeFixedFiles FixRouteExample.disk PatchExample.patches
       (JS.VString (JS.js "p"))).2
    (JS.js "/srv/app/p/src/A.java") = JS.Returns (JS.js "class A {}").
Proof.
  destruct (written_patches_read_back FixRouteExample.disk
              (FixRoute.writeFixedFiles FixRouteExample.disk
                 PatchExample.patches (JS.VString (JS.js "p"))).2
              (JS.js "p") PatchExample.patches) as (Hread & _ & _).
  - vm_compute. reflexivity.
  - apply (bool_decide_unpack _). vm_compute. exact I.
  - apply (Hread (JS.js "src/A.java") (JS.js "class A {}")).
    apply (bool_decide_unpack _). vm_compute. exact I.
Defined.

Lemma failed_write_keeps_earlier_patches_witness :
  FixRoute.writeFixedFiles PatchExample.project PatchExample.blocked
    (JS.VString (JS.js "p"))
  = (false,
     {| FileSystem.cwd := JS.js "/srv/app";
        FileSystem.dirs := FileSystem.dirs PatchExample.project;
        FileSystem.regular_files :=
          {[ JS.js "/srv/app/p/pom.xml" := JS.js "<project/>" ]} |}).
Proof.
  destruct (failed_write_keeps_earlier_patches PatchExample.project
              (FixRoute.write_each PatchExample.project (JS.js "p")
                 [(JS.js "pom.xml", JS.js "<project/>")]).2
              (FixRoute.write_each PatchExample.project (JS.js "p")
                 [(JS.js "pom.xml", JS.js "<project/>")]).2
              (JS.js "p") (JS.js "src") (JS.js "class A {}")
              [(JS.js "pom.xml", JS.js "<project/>")]
              [(JS.js "plugin.yml", JS.js "name: Demo")]) as [Hw _].
  - vm_compute. reflexivity.
  - vm_compute. reflexivity.
  - etrans; [exact Hw |]. vm_compute. reflexivity.
Defined.

Lemma safe_keys_written_inside_witness :
  Paths.within (JS.js "/srv/app/p") (JS.js "/srv/app/p/src/A.java").
Proof.
  apply (safe_keys_written_inside FixRouteExample.disk
           (FixRoute.writeFixedFiles FixRouteExample.disk
              PatchExample.patches (JS.VString (JS.js "p"))).2
           (JS.js "p") PatchExample.patches true).
  - vm_compute. reflexivity.
  - intros f Hf. revert f Hf. apply Forall_forall.
    repeat constructor;
      try (vm_compute; reflexivity);
      apply (bool_decide_unpack _); vm_compute; exact I.
  - vm_compute. discriminate.
Defined.

(* ===================================================================== *)
(** * Entries of a directory *)
(* ===================================================================== *)

Section ChildPaths.
Import JS Paths.


Lemma normalize_segments_Forall (P : list N → Prop) b acc segs :
  Forall P acc → Forall P segs → Forall P (normalize_segments b acc segs).
Proof.
  revert acc. induction segs as [| seg segs IH]; intros acc Hacc Hsegs;
    [done |].
  apply Forall_cons in Hsegs as [Hseg Hsegs]. simpl.
  destruct (bool_decide (seg = []) || bool_decide (seg = [46]));
    [by apply IH |].
  assert (Forall P (acc ++ [seg])) as Hpush.
  { rewrite Forall_app, Forall_singleton. done. }
  destruct (bool_decide (seg = [46; 46])); [| by apply IH].
  destruct (last acc) as [l |] eqn:Hlast.
  - destruct (bool_decide (l = [46; 46])); [by apply IH |].
    apply IH; [| done].
    apply last_Some in Hlast as [acc' ->].
    rewrite removelast_last. rewrite Forall_app in Hacc. apply Hacc.
  - destruct b; by apply IH.
Qed.

Lemma normalize_segments_kept b acc segs :
  Forall (λ seg, seg ≠ [] ∧ seg ≠ [46]) acc →
  Forall (λ seg, seg ≠ [] ∧ seg ≠ [46]) (normalize_segments b acc segs).
Proof.
  revert acc. induction segs as [| seg segs IH]; intros acc Hacc; [done |].
  simpl.
  destruct (bool_decide (seg = []) || bool_decide (seg = [46])) eqn:Hskip;
    [by apply IH |].
  apply orb_false_iff in Hskip as [H1 H2].
  apply bool_decide_eq_false in H1, H2.
  assert (Forall (λ seg, seg ≠ [] ∧ seg ≠ [46]) (acc ++ [seg])) as Hpush.
  { rewrite Forall_app, Forall_singleton. done. }
  destruct (bool_decide (seg = [46; 46])); [| by apply IH].
  destruct (last acc) as [l |] eqn:Hlast.
  - destruct (bool_decide (l = [46; 46])); [by apply IH |].
    apply IH.
    apply last_Some in Hlast as [acc' ->].
    rewrite removelast_last. rewrite Forall_app in Hacc. apply Hacc.
  - destruct b; by apply IH.
Qed.

Lemma normalize_segments_push b acc name :
  plain name → normalize_segments b acc [name] = acc ++ [name].
Proof.
  intros (_ & H1 & H2 & H3). simpl.
  by rewrite !bool_decide_eq_false_2 by done.
Qed.

Lemma normalize_segments_skip b acc seg :
  seg = [] ∨ seg = [46] → normalize_segments b acc [seg] = acc.
Proof. by intros [-> | ->]. Qed.

(** Normalising twice is normalising once, whatever the segments already
    collected. *)
Lemma normalize_segments_twice b acc segs :
  normalize_segments b acc (normalize_segments true [] segs)
  = normalize_segments b acc segs.
Proof.
  induction segs as [| seg segs IH] using rev_ind; [done |].
  rewrite !normalize_segments_app.
  set (R := normalize_segments true [] segs) in *.
  pose proof (normalize_segments_kept true [] segs (Forall_nil_2 _)) as HR.
  fold R in HR.
  destruct (decide (seg = [] ∨ seg = [46])) as [Hskip | Hkeep].
  { rewrite !normalize_segments_skip by done. exact IH. }
  assert (bool_decide (seg = []) || bool_decide (seg = [46]) = false)
    as Hb.
  { apply orb_false_iff.
    split; apply bool_decide_eq_false; intros ->; apply Hkeep; auto. }
  destruct (decide (seg = [46; 46])) as [-> | Hup].
  - (* [..] *)
    rewrite <- IH.
    destruct (last R) as [l |] eqn:Hlast.
    + apply last_Some in Hlast as [R0 HR0]. rewrite HR0 in *.
      rewrite Forall_app, Forall_singleton in HR.
      destruct HR as [_ [Hl1 Hl2]].
      destruct (decide (l = [46; 46])) as [-> | Hl].
      * assert (normalize_segments true (R0 ++ [[46; 46]]) [[46; 46]]
                = (R0 ++ [[46; 46]]) ++ [[46; 46]]) as ->.
        { simpl. rewrite last_snoc. simpl. done. }
        rewrite !normalize_segments_app. done.
      * assert (normalize_segments true (R0 ++ [l]) [[46; 46]] = R0) as ->.
        { simpl. rewrite last_snoc.
          rewrite bool_decide_eq_false_2 by done.
          by rewrite removelast_last. }
        rewrite normalize_segments_app.
        assert (normalize_segments b (normalize_segments b acc R0) [l]
                = normalize_segments b acc R0 ++ [l]) as ->.
        { simpl. rewrite !bool_decide_eq_false_2 by done. done. }
        simpl. rewrite last_snoc.
        rewrite bool_decide_eq_false_2 by done.
        by rewrite removelast_last.
    + apply last_None in Hlast. rewrite Hlast. done.
  - assert (∀ c a, normalize_segments c a [seg] = a ++ [seg]) as Hpush.
    { intros c a. simpl. rewrite Hb.
      by rewrite bool_decide_eq_false_2 by done. }
    rewrite !Hpush, normalize_segments_app, Hpush. by rewrite IH.
Qed.

Lemma plain_relative name : plain name → is_absolute name = false.
Proof.
  intros (H47 & Hne & _). destruct name as [| c name]; [done |].
  apply not_elem_of_cons in H47 as [Hc _].
  unfold is_absolute. destruct c as [| p]; [done |].
  do 6 (destruct p as [p | p |]; try done).
Qed.

Lemma resolve_parts_child cwd d name :
  plain name →
  resolve_parts cwd [d; name] = resolve_parts cwd [d] ++ [name].
Proof.
  intros Hn. change [d; name] with ([d] ++ [name]).
  unfold resolve_parts. rewrite fold_left_app. cbn [fold_left].
  rewrite (plain_relative name Hn).
  destruct Hn as (_ & Hne & _). by destruct name.
Qed.

Lemma join_with_nonempty (segs : list (list N)) :
  segs ≠ [] → Forall (λ seg, seg ≠ []) segs → join_with 47 segs ≠ [].
Proof.
  intros Hne Hall. destruct segs as [| p segs]; [done |].
  apply Forall_cons in Hall as [Hp _].
  destruct segs; simpl; [done |]. by destruct p.
Qed.

(** The path of an entry below a directory, resolved. *)
Lemma resolve_child cwd d name :
  plain name → resolve cwd [d; name] = child (resolve cwd [d]) name.
Proof.
  intros Hn. rewrite !resolve_eq. unfold resolve_segments.
  rewrite resolve_parts_child by done.
  rewrite map_app, concat_app.
  change (concat (map (split_on 47) [name])) with (split_on 47 name ++ []).
  rewrite app_nil_r, normalize_segments_app.
  rewrite (split_on_none 47 name) by apply Hn.
  rewrite normalize_segments_push by done.
  pose proof (normalize_segments_plain []
                (concat (map (split_on 47) (resolve_parts cwd [d])))
                (Forall_nil_2 _)) as Hplain.
  set (base := normalize_segments false []
                 (concat (map (split_on 47) (resolve_parts cwd [d])))) in *.
  assert (Forall plain base) as Hbase.
  { apply Hplain. apply Forall_concat, Forall_map, Forall_forall.
    intros p _. apply split_on_no_sep. }
  unfold child. destruct base as [| b base].
  - by rewrite bool_decide_eq_true_2.
  - rewrite bool_decide_eq_false_2.
    + by rewrite join_with_app.
    + intros H.
      assert (join_with 47 (b :: base) = []) as Hj by (by injection H).
      revert Hj. apply join_with_nonempty; [done |].
      eapply Forall_impl; [exact Hbase |]. by intros seg (_ & Hs & _).
Qed.

Lemma child_inj base a b : child base a = child base b → a = b.
Proof.
  unfold child. destruct (bool_decide (base = [47])); intros H.
  - by injection H.
  - apply app_inv_head in H. by injection H.
Qed.

Lemma join_child_text d name :
  d ≠ [] → plain name →
  join [d; name]
  = (if is_absolute d then [47] else [])
    ++ join_with 47
         (normalize_segments (negb (is_absolute d)) [] (split_on 47 d)
          ++ [name]).
Proof.
  intros Hd Hn. pose proof Hn as (H47 & Hne & _).
  unfold join.
  rewrite filter_cons_True by done. rewrite filter_cons_True by done.
  rewrite filter_nil.
  change (join_with 47 [d; name]) with (d ++ 47 :: name).
  unfold normalize.
  destruct (d ++ 47 :: name) as [| c p] eqn:HP; [by destruct d |].
  rewrite <- HP.
  assert (is_absolute (d ++ 47 :: name) = is_absolute d) as ->.
  { by destruct d. }
  rewrite split_on_app, (split_on_none 47 name) by done.
  rewrite normalize_segments_app, normalize_segments_push by done.
  set (A := normalize_segments _ [] (split_on 47 d)).
  assert (bool_decide (last (d ++ 47 :: name) = Some 47) = false) as ->.
  { apply bool_decide_eq_false.
    change (d ++ 47 :: name) with (d ++ [47] ++ name).
    rewrite !last_app.
    destruct (last name) as [x |] eqn:Hl.
    - intros [= ->]. apply H47. apply last_Some in Hl as [l' ->].
      apply elem_of_app. right. by left.
    - apply last_None in Hl. done. }
  destruct (join_with 47 (A ++ [name])) as [| x body] eqn:Hbody.
  - exfalso. revert Hbody. destruct A as [| a A]; simpl; [done |].
    destruct (A ++ [name]) eqn:HA; [by destruct A |]. by destruct a.
  - by rewrite app_nil_r.
Qed.

(** [path.join] under a directory, then resolved, is [path.resolve] of
    both. *)
Lemma resolve_join cwd d name :
  plain name → resolve cwd [join [d; name]] = resolve cwd [d; name].
Proof.
  intros Hn. pose proof Hn as (H47 & Hne & Hdot & Hdd).
  destruct (decide (d = [])) as [-> | Hd].
  { unfold join. rewrite filter_cons_False by (intros H; by apply H).
    rewrite filter_cons_True by done. rewrite filter_nil.
    change (join_with 47 [name]) with name.
    assert (normalize name = name) as ->; [| done].
    unfold normalize. destruct name as [| c rest] eqn:Hname; [done |].
    rewrite <- Hname in *.
    rewrite (plain_relative name Hn). simpl negb.
    rewrite (split_on_none 47 name) by done.
    rewrite normalize_segments_push by done. simpl.
    assert (bool_decide (last name = Some 47) = false) as ->.
    { apply bool_decide_eq_false. intros Hl.
      apply last_Some in Hl as [l' Hl]. apply H47. rewrite Hl.
      apply elem_of_app. right. by left. }
    rewrite Hname. by rewrite app_nil_r. }
  rewrite join_child_text by done.
  rewrite !resolve_eq. f_equal. f_equal. unfold resolve_segments.
  rewrite resolve_parts_child by done.
  set (A := normalize_segments (negb (is_absolute d)) [] (split_on 47 d)).
  assert (Forall (λ seg, 47 ∉ seg) A) as HA47.
  { apply normalize_segments_Forall; [done | apply split_on_no_sep]. }
  assert (Forall (λ seg, seg ≠ [] ∧ seg ≠ [46]) A) as HAne.
  { by apply normalize_segments_kept. }
  assert (Forall (λ seg, 47 ∉ seg) (A ++ [name])) as HAn47.
  { rewrite Forall_app, Forall_singleton. done. }
  assert (A ++ [name] ≠ []) as HAn.
  { by destruct A. }
  rewrite map_app, concat_app.
  change (concat (map (split_on 47) [name])) with (split_on 47 name ++ []).
  rewrite app_nil_r, (split_on_none 47 name) by done.
  rewrite (normalize_segments_app _ _ _ [name]).
  rewrite normalize_segments_push by done.
  destruct (is_absolute d) eqn:Habs.
  - (* absolute *)
    assert (resolve_parts cwd [d] = [d]) as ->.
    { unfold resolve_parts. simpl. rewrite Habs. by destruct d. }
    assert (resolve_parts cwd [[47] ++ join_with 47 (A ++ [name])]
            = [47 :: join_with 47 (A ++ [name])]) as ->.
    { reflexivity. }
    simpl map. simpl concat. rewrite !app_nil_r.
    change (split_on 47 (47 :: join_with 47 (A ++ [name])))
      with ([] :: split_on 47 (join_with 47 (A ++ [name]))).
    rewrite split_join by done.
    change (normalize_segments false [] ([] :: A ++ [name]))
      with (normalize_segments false [] (A ++ [name])).
    rewrite normalize_segments_app, normalize_segments_push by done.
    f_equal. unfold A. simpl negb.
    assert (Forall plain (normalize_segments false [] (split_on 47 d)))
      as Hplain.
    { apply normalize_segments_plain; [done | apply split_on_no_sep]. }
    rewrite normalize_segments_no_dotdot.
    + by rewrite plain_filter.
    + intros Hin. eapply Forall_forall in Hplain; [| exact Hin].
      by destruct Hplain as (_ & _ & _ & H).
  - (* relative *)
    simpl negb in A.
    assert (resolve_parts cwd [d] = [cwd; d]) as ->.
    { unfold resolve_parts. simpl. rewrite Habs. by destruct d. }
    assert (is_absolute (join_with 47 (A ++ [name])) = false) as Hrel.
    { destruct A as [| a A'].
      - simpl. by apply plain_relative.
      - apply Forall_cons in HA47 as [Ha _].
        apply Forall_cons in HAne as [[Hane _] _].
        change ((a :: A') ++ [name]) with (a :: (A' ++ [name])).
        destruct (A' ++ [name]) as [| x l] eqn:Hl; [by destruct A' |].
        change (join_with 47 (a :: x :: l))
          with (a ++ 47 :: join_with 47 (x :: l)).
        destruct a as [| c a]; [done |].
        apply not_elem_of_cons in Ha as [Hc _].
        simpl. destruct c as [| p]; [done |].
        do 6 (destruct p as [p | p |]; try done). }
    assert (resolve_parts cwd [[] ++ join_with 47 (A ++ [name])]
            = [cwd; join_with 47 (A ++ [name])]) as ->.
    { unfold resolve_parts. simpl. rewrite Hrel.
      destruct (join_with 47 (A ++ [name])) eqn:Hj; [| done].
      exfalso. revert Hj. apply join_with_nonempty; [done |].
      rewrite Forall_app, Forall_singleton. split; [| done].
      eapply Forall_impl; [exact HAne |]. by intros seg [H _]. }
    simpl map. simpl concat. rewrite !app_nil_r.
    rewrite split_join by done.
    rewrite app_assoc, normalize_segments_app.
    rewrite normalize_segments_push by done. f_equal.
    rewrite !normalize_segments_app. apply normalize_segments_twice.
Qed.

(** Where [path.join(dir, name)] lies on disk. *)
Lemma canon_join_child cwd d name :
  plain name → resolve cwd [join [d; name]] = child (resolve cwd [d]) name.
Proof. intros Hn. by rewrite resolve_join, resolve_child. Qed.

End ChildPaths.

(* ===================================================================== *)
(** * What a run of the script does and reports *)
(* ===================================================================== *)

Section Tallies.
Import Shell Accounting.
Local Open Scope Z_scope.

Lemma count_patches (p : event → bool) (ups : list event) :
  (∀ e, is_patch e = true → p e = false) →
  forallb is_patch ups = true → count p ups = 0%nat.
Proof.
  intros Hp. induction ups as [| e ups IH]; [done |].
  simpl. intros H. apply andb_true_iff in H as [He Hups].
  unfold count in *. simpl. rewrite (Hp e He). by apply IH.
Qed.

Lemma patch_not_maven e : is_patch e = true → is_maven e = false.
Proof. by destruct e. Qed.

Lemma patch_not_request e : is_patch e = true → is_fix_request e = false.
Proof. by destruct e. Qed.

Lemma patches_inner (ups : list event) :
  forallb is_patch ups = true → forallb inner ups = true.
Proof.
  induction ups as [| e ups IH]; [done |].
  simpl. intros H. apply andb_true_iff in H as [He Hups].
  rewrite (IH Hups), andb_true_r. by destruct e.
Qed.

Lemma apply_fixes_patches w n paths st :
  ∃ ups, trace (BashSh.apply_fixes w n paths st).2 = trace st ++ ups
    ∧ result_file (BashSh.apply_fixes w n paths st).2 = result_file st
    ∧ forallb is_patch ups = true
    ∧ ∀ p, Updated p ∈ ups → p ∈ paths.
Proof.
  revert st. induction paths as [| q paths IH]; intros st; simpl.
  - exists []. rewrite app_nil_r. split; [done |]. split; [done |].
    split; [done |]. intros p Hp. by apply elem_of_nil in Hp.
  - destruct (negb (write_status w n q =? 0)%nat).
    + exists []. rewrite app_nil_r. split; [done |]. split; [done |].
      split; [done |]. intros p Hp. by apply elem_of_nil in Hp.
    + destruct (IH (emit (Updated q) st)) as (ups & Ht & Hr & Hall & Hin).
      exists (Updated q :: ups). split; [| split; [| split]].
      * rewrite Ht. simpl. by rewrite <- app_assoc.
      * by rewrite Hr.
      * done.
      * intros p Hp. apply elem_of_cons in Hp as [[= ->] | Hp];
          [by left | right; by apply Hin].
Qed.

Ltac no_update :=
  let p := fresh "p" in let Hp := fresh "Hp" in
  intros p Hp;
  repeat (apply elem_of_cons in Hp as [Hp | Hp]; [discriminate Hp |]);
  by apply elem_of_nil in Hp.

Ltac short_branch :=
  eexists; split; [simpl; rewrite <- ?app_assoc; simpl; reflexivity |];
  split; [reflexivity |]; split; [unfold count; simpl; lia |];
  split; [unfold count; simpl; lia |];
  split; [no_update |].

Lemma nonzero_status (x : nat) : negb (x =? 0)%nat = true → x ≠ 0%nat.
Proof. intros H. apply negb_true_iff in H. by apply Nat.eqb_neq. Qed.

Lemma nonempty_name (s : string) : negb (s =? "")%string = true → s ≠ ""%string.
Proof. intros H. apply negb_true_iff in H. by apply String.eqb_neq. Qed.

Lemma iteration_adds :
  body_adds (λ w n p, p ∈ fixed_paths w n) BashSh.iteration.
Proof.
  intros w n st. unfold BashSh.iteration.
  destruct (negb (compile_only w n =? 0)%nat) eqn:H1.
  { short_branch. split; [by apply nonzero_status | done]. }
  destruct (VERBOSE w && negb (curl w n =? 0)%nat) eqn:H2.
  { apply andb_true_iff in H2 as [_ H2].
    short_branch. split; [by apply nonzero_status | done]. }
  destruct (negb (status_success w n)).
  { destruct (negb (message_status w n =? 0)%nat) eqn:H3.
    - short_branch. split; [by apply nonzero_status | done].
    - short_branch. done. }
  destruct (negb ((fixed_count w n).1 =? 0)%nat) eqn:H4.
  { short_branch. split; [by apply nonzero_status | done]. }
  destruct (apply_fixes_patches w n (fixed_paths w n)
              (emit (FixRequest n)
                 (emit (Build CompileOnly) (emit (Attempt n) st))))
    as (ups & Ht & Hr & Hall & Hin).
  pose proof (apply_fixes_abort w n (fixed_paths w n)
                (emit (FixRequest n)
                   (emit (Build CompileOnly) (emit (Attempt n) st)))) as Hab.
  destruct (BashSh.apply_fixes w n (fixed_paths w n) _) as [[status |] st1];
    simpl in Ht, Hr, Hab.
  - exists ([Build CompileOnly; FixRequest n] ++ ups).
    split; [simpl; rewrite Ht, <- !app_assoc; done |].
    split; [simpl; by apply patches_inner |].
    split; [rewrite count_app, (count_patches is_maven ups patch_not_maven Hall);
            unfold count; simpl; lia |].
    split; [rewrite count_app,
              (count_patches is_fix_request ups patch_not_request Hall);
            unfold count; simpl; lia |].
    split.
    { intros p Hp. do 2 (apply elem_of_cons in Hp as [Hp | Hp];
                          [discriminate Hp |]). by apply Hin. }
    split; [by apply Hab | done].
  - assert (Hgo : ∀ tail st2,
               trace st2 = trace st1 ++ Build Normal :: tail →
               forallb is_write_result tail = true →
               ∃ new, trace st2 = trace st ++ Attempt n :: new
                 ∧ forallb inner new = true
                 ∧ (count is_maven new ≤ 2)%nat
                 ∧ (count is_fix_request new ≤ 1)%nat
                 ∧ (∀ p, Updated p ∈ new → p ∈ fixed_paths w n)).
    { intros tail st2 Hst2 Htail.
      exists ([Build CompileOnly; FixRequest n] ++ ups ++ Build Normal :: tail).
      split; [rewrite Hst2, Ht, <- !app_assoc; done |].
      assert (forallb inner tail = true ∧ count is_maven tail = 0%nat
              ∧ count is_fix_request tail = 0%nat
              ∧ ∀ p, Updated p ∉ tail) as (Hi & Hm & Hf & Hu).
      { clear Hst2. induction tail as [| e tail IH]; [repeat split; try done; intros p Hp; by apply elem_of_nil in Hp |].
        simpl in Htail. apply andb_true_iff in Htail as [He Htail].
        destruct (IH Htail) as (Hi & Hm & Hf & Hu).
        destruct e; try discriminate He.
        repeat split; try done.
        intros p Hp. apply elem_of_cons in Hp as [Hp | Hp]; [done |].
        by apply (Hu p). }
      split.
      { simpl. rewrite forallb_app. simpl.
        by rewrite (patches_inner ups Hall), Hi. }
      split.
      { change ([Build CompileOnly; FixRequest n] ++ ups ++ Build Normal :: tail)
          with ([Build CompileOnly; FixRequest n] ++ ups ++ [Build Normal] ++ tail).
        rewrite !count_app, Hm.
        rewrite (count_patches is_maven ups patch_not_maven Hall).
        unfold count. simpl. lia. }
      split.
      { change ([Build CompileOnly; FixRequest n] ++ ups ++ Build Normal :: tail)
          with ([Build CompileOnly; FixRequest n] ++ ups ++ [Build Normal] ++ tail).
        rewrite !count_app, Hf.
        rewrite (count_patches is_fix_request ups patch_not_request Hall).
        unfold count. simpl. lia. }
      intros p Hp.
      do 2 (apply elem_of_cons in Hp as [Hp | Hp]; [discriminate Hp |]).
      apply elem_of_app in Hp as [Hp | Hp]; [by apply Hin |].
      apply elem_of_cons in Hp as [Hp | Hp]; [discriminate Hp |].
      by destruct (Hu p). }
    destruct (rebuild w n =? 0)%nat.
    2:{ destruct (Hgo [] (emit (Build Normal) st1)) as (new & Hn);
          [done | done |]. exists new. by destruct Hn as (? & ? & ? & ? & ?). }
    destruct (negb (rebuilt_jar w n =? "")%string) eqn:Hjar.
    2:{ destruct (Hgo [] (emit (Build Normal) st1)) as (new & Hn);
          [done | done |]. exists new. by destruct Hn as (? & ? & ? & ? & ?). }
    destruct (rebuilt_verify w n =? 0)%nat.
    2:{ destruct (Hgo [] (emit (Build Normal) st1)) as (new & Hn);
          [done | done |]. exists new. by destruct Hn as (? & ? & ? & ? & ?). }
    destruct (Hgo [WriteResult (succeeded (rebuilt_jar w n) (Some n) false)]
                (write_result (succeeded (rebuilt_jar w n) (Some n) false)
                   (emit (Build Normal) st1))) as (new & Hn).
    { simpl. by rewrite <- app_assoc. }
    { done. }
    exists new. destruct Hn as (? & ? & ? & ? & ?).
    repeat (split; [done |]).
    exists (rebuilt_jar w n). split; [by apply nonempty_name | done].
Qed.

Section Loop.

Variable ok : world → Z → string → Prop.
Variable iteration : world → Z → run_state → iteration_end * run_state.
Hypothesis body : body_adds ok iteration.

Lemma count_cons p (e : event) (l : list event) :
  count p (e :: l) = ((if p e then 1 else 0) + count p l)%nat.
Proof. unfold count. simpl. by destruct (p e). Qed.

Lemma count_inner p (l : list event) :
  (∀ e, inner e = true → p e = false) →
  forallb inner l = true → count p l = 0%nat.
Proof.
  intros Hp. induction l as [| e l IH]; [done |].
  simpl. intros H. apply andb_true_iff in H as [He Hl].
  rewrite count_cons, (Hp e He). by apply IH.
Qed.

Lemma inner_not_attempt e : inner e = true → is_attempt e = false.
Proof. by destruct e. Qed.

Lemma inner_not_noshade e : inner e = true → is_build NoShade e = false.
Proof. destruct e as [| [] | | | |]; done. Qed.

Lemma fix_loop_adds w fuel a st :
  (Z.to_nat (MAX_AI_FIX_ATTEMPTS w - a) < fuel)%nat →
  ∃ (k : nat) new,
    trace (fix_loop iteration w fuel a st).2 = trace st ++ new
    ∧ count is_attempt new = k
    ∧ (k ≤ Z.to_nat (MAX_AI_FIX_ATTEMPTS w - a))%nat
    ∧ (count is_maven new ≤ 2 * k)%nat
    ∧ (count is_fix_request new ≤ k)%nat
    ∧ count (is_build NoShade) new = 0%nat
    ∧ (∀ p, Updated p ∈ new → ∃ n, a < n ≤ a + Z.of_nat k ∧ ok w n p)
    ∧ match (fix_loop iteration w fuel a st).1 with
      | OutOfFuel => False
      | LoopDone j false =>
          j = a + Z.of_nat k
          ∧ k = Z.to_nat (MAX_AI_FIX_ATTEMPTS w - a)
          ∧ result_file (fix_loop iteration w fuel a st).2 = result_file st
      | LoopDone j true =>
          j = a + Z.of_nat k ∧ (1 ≤ k)%nat
          ∧ ∃ jar, jar ≠ ""%string
                   ∧ result_file (fix_loop iteration w fuel a st).2
                     = Some (succeeded jar (Some j) false)
      | Errexit status =>
          status ≠ 0%nat
          ∧ result_file (fix_loop iteration w fuel a st).2 = result_file st
      end.
Proof.
  revert a st. induction fuel as [| fuel IH]; intros a st Hfuel; [lia |].
  simpl. destruct (a <? MAX_AI_FIX_ATTEMPTS w) eqn:Hlt.
  - apply Z.ltb_lt in Hlt.
    destruct (body w (a + 1) st) as (new & Ht & Hin & Hm & Hf & Hu & Hend).
    assert (Hone : ∀ tail,
              count is_attempt (Attempt (a + 1) :: new ++ tail)
              = S (count is_attempt tail)).
    { intros tail. rewrite count_cons, count_app.
      rewrite (count_inner is_attempt new inner_not_attempt Hin). done. }
    destruct (iteration w (a + 1) st) as [[| | status] st1] eqn:Hit;
      simpl in Ht, Hend.
    + destruct (IH (a + 1) st1) as (k & more & Ht' & Hk & Hle & Hm' & Hf' & Hn' & Hu' & Hend'); [lia |].
      exists (S k), (Attempt (a + 1) :: new ++ more).
      split; [rewrite Ht', Ht, <- app_assoc; done |].
      split; [by rewrite Hone, Hk |].
      split; [lia |].
      split; [rewrite count_cons, count_app; simpl; lia |].
      split; [rewrite count_cons, count_app; simpl; lia |].
      split.
      { rewrite count_cons, count_app, Hn'.
        by rewrite (count_inner _ new inner_not_noshade Hin). }
      split.
      { intros p Hp. apply elem_of_cons in Hp as [Hp | Hp]; [done |].
        apply elem_of_app in Hp as [Hp | Hp].
        - exists (a + 1). split; [lia | by apply Hu].
        - destruct (Hu' p Hp) as (n & Hn & Hok). exists n. split; [lia | done]. }
      destruct (fix_loop iteration w fuel (a + 1) st1) as [[j [|] | status |] st2];
        simpl in *.
      * destruct Hend' as (-> & Hk1 & jar & Hjar & Hres).
        split; [lia |]. split; [lia |]. by exists jar.
      * destruct Hend' as (-> & Hk1 & Hres).
        split; [lia |]. split; [lia |]. congruence.
      * destruct Hend' as (Hs & Hres). split; [done | congruence].
      * done.
    + exists 1%nat, (Attempt (a + 1) :: new).
      split; [done |].
      split; [rewrite <- (app_nil_r new), Hone; done |].
      split; [lia |].
      split; [rewrite count_cons; simpl; lia |].
      split; [rewrite count_cons; simpl; lia |].
      split.
      { rewrite count_cons. simpl.
        by rewrite (count_inner _ new inner_not_noshade Hin). }
      split.
      { intros p Hp. apply elem_of_cons in Hp as [Hp | Hp]; [done |].
        exists (a + 1). split; [lia | by apply Hu]. }
      simpl. destruct Hend as (jar & Hjar & Hres).
      split; [lia |]. split; [lia |]. by exists jar.
    + exists 1%nat, (Attempt (a + 1) :: new).
      split; [done |].
      split; [rewrite <- (app_nil_r new), Hone; done |].
      split; [lia |].
      split; [rewrite count_cons; simpl; lia |].
      split; [rewrite count_cons; simpl; lia |].
      split.
      { rewrite count_cons. simpl.
        by rewrite (count_inner _ new inner_not_noshade Hin). }
      split.
      { intros p Hp. apply elem_of_cons in Hp as [Hp | Hp]; [done |].
        exists (a + 1). split; [lia | by apply Hu]. }
      simpl. done.
  - apply Z.ltb_ge in Hlt. exists 0%nat, [].
    rewrite app_nil_r. repeat split; try done; try lia.
    intros p Hp. by apply elem_of_nil in Hp.
Qed.

End Loop.

End Tallies.

Section Runs.
Import Shell Accounting.
Local Open Scope Z_scope.

Lemma count_cons' p (e : event) (l : list event) :
  count p (e :: l) = ((if p e then 1 else 0) + count p l)%nat.
Proof. unfold count. simpl. by destruct (p e). Qed.

(** The runs of the script, by the way the loop is left. *)
Lemma fix_phase_adds ok iteration w :
  body_adds ok iteration →
  ∃ (k : nat) new,
    trace (fix_phase iteration w).2 = Build Normal :: new
    ∧ count is_attempt new = k
    ∧ (k ≤ Z.to_nat (MAX_AI_FIX_ATTEMPTS w))%nat
    ∧ (count is_maven new ≤ 2 * k)%nat
    ∧ (count is_fix_request new ≤ k)%nat
    ∧ (∀ p, Updated p ∈ new → ∃ n, 1 ≤ n ≤ Z.of_nat k ∧ ok w n p)
    ∧ match (fix_phase iteration w).1 with
      | OutOfFuel => False
      | LoopDone j false =>
          k = Z.to_nat (MAX_AI_FIX_ATTEMPTS w)
          ∧ result_file (fix_phase iteration w).2 = previous_result w
      | LoopDone j true =>
          j = Z.of_nat k ∧ (1 ≤ k)%nat
          ∧ ∃ jar, jar ≠ ""%string
                   ∧ result_file (fix_phase iteration w).2
                     = Some (succeeded jar (Some j) false)
      | Errexit status =>
          status ≠ 0%nat
          ∧ result_file (fix_phase iteration w).2 = previous_result w
      end.
Proof.
  intros Hbody. unfold fix_phase.
  destruct (fix_loop_adds ok iteration Hbody w
              (S (Z.to_nat (MAX_AI_FIX_ATTEMPTS w))) 0
              (started (previous_result w)))
    as (k & new & Ht & Hk & Hle & Hm & Hf & Hn & Hu & Hend).
  { rewrite Z.sub_0_r. lia. }
  rewrite Z.sub_0_r in Hle.
  exists k, new. split; [exact Ht |]. split; [exact Hk |].
  split; [exact Hle |]. split; [exact Hm |]. split; [exact Hf |].
  split.
  { intros p Hp. destruct (Hu p Hp) as (n & Hn' & Hok).
    exists n. split; [lia | done]. }
  destruct (fix_loop iteration w _ 0 (started (previous_result w)))
    as [[j [|] | status |] st]; simpl in *.
  - destruct Hend as (-> & Hk1 & jar & Hjar & Hres).
    split; [lia |]. split; [done |]. by exists jar.
  - destruct Hend as (_ & Hk1 & Hres). rewrite Z.sub_0_r in Hk1. done.
  - exact Hend.
  - exact Hend.
Qed.

(** The results the loop of [bash.sh] writes: one, by the attempt that
    ends it with a verified jar, and none otherwise. *)
Lemma apply_fixes_results w n paths st :
  results (trace (BashSh.apply_fixes w n paths st).2) = results (trace st).
Proof.
  destruct (apply_fixes_patches w n paths st) as (ups & -> & _ & Hall & _).
  rewrite results_app.
  assert (results ups = []) as ->; [| by rewrite app_nil_r].
  induction ups as [| e ups IH]; [done |].
  simpl in Hall. apply andb_true_iff in Hall as [He Hall].
  destruct e; try discriminate He; by apply IH.
Qed.

Lemma results_emit e st :
  is_write_result e = false → results (trace (emit e st)) = results (trace st).
Proof.
  intros He. rewrite emit_trace, results_app.
  destruct e; try discriminate He; by rewrite app_nil_r.
Qed.

Lemma iteration_results w n st :
  match (BashSh.iteration w n st).1 with
  | Break =>
      results (trace (BashSh.iteration w n st).2)
      = results (trace st) ++ [succeeded (rebuilt_jar w n) (Some n) false]
      ∧ result_file (BashSh.iteration w n st).2
        = Some (succeeded (rebuilt_jar w n) (Some n) false)
  | _ =>
      results (trace (BashSh.iteration w n st).2) = results (trace st)
      ∧ result_file (BashSh.iteration w n st).2 = result_file st
  end.
Proof.
  assert (Hquiet : ∀ e st0,
            is_write_result e = false →
            results (trace st0) = results (trace st)
            ∧ result_file st0 = result_file st →
            results (trace (emit e st0)) = results (trace st)
            ∧ result_file (emit e st0) = result_file st).
  { intros e st0 He [Hr Hf]. by rewrite results_emit. }
  assert (H1 : results (trace (emit (Build CompileOnly) (emit (Attempt n) st)))
               = results (trace st)
               ∧ result_file (emit (Build CompileOnly) (emit (Attempt n) st))
                 = result_file st).
  { apply Hquiet; [done |]. by apply Hquiet. }
  pose proof (Hquiet (FixRequest n) _ eq_refl H1) as H2.
  unfold BashSh.iteration.
  destruct (negb (compile_only w n =? 0)%nat); [exact H1 |].
  destruct (VERBOSE w && negb (curl w n =? 0)%nat); [exact H2 |].
  destruct (negb (status_success w n)).
  { destruct (negb (message_status w n =? 0)%nat); exact H2. }
  destruct (negb ((fixed_count w n).1 =? 0)%nat); [exact H2 |].
  pose proof (apply_fixes_results w n (fixed_paths w n)
                (emit (FixRequest n)
                   (emit (Build CompileOnly) (emit (Attempt n) st)))) as Hres.
  destruct (apply_fixes_patches w n (fixed_paths w n)
              (emit (FixRequest n)
                 (emit (Build CompileOnly) (emit (Attempt n) st))))
    as (ups & _ & Hfile & _).
  destruct H2 as [H2r H2f]. rewrite H2r in Hres. rewrite H2f in Hfile.
  destruct (BashSh.apply_fixes w n (fixed_paths w n) _) as [[status |] st1];
    simpl in Hres, Hfile; [done |].
  pose proof (Hquiet (Build Normal) st1 eq_refl (conj Hres Hfile)) as H3.
  destruct (rebuild w n =? 0)%nat; [| exact H3].
  destruct (negb (rebuilt_jar w n =? "")%string); [| exact H3].
  destruct (rebuilt_verify w n =? 0)%nat; [| exact H3].
  simpl. split; [| done].
  rewrite !results_app. simpl. by rewrite app_nil_r, Hres.
Qed.

Lemma fix_loop_results w fuel a st :
  match (fix_loop BashSh.iteration w fuel a st).1 with
  | LoopDone j true =>
      results (trace (fix_loop BashSh.iteration w fuel a st).2)
      = results (trace st) ++ [succeeded (rebuilt_jar w j) (Some j) false]
      ∧ result_file (fix_loop BashSh.iteration w fuel a st).2
        = Some (succeeded (rebuilt_jar w j) (Some j) false)
  | _ =>
      results (trace (fix_loop BashSh.iteration w fuel a st).2)
      = results (trace st)
      ∧ result_file (fix_loop BashSh.iteration w fuel a st).2
        = result_file st
  end.
Proof.
  revert a st. induction fuel as [| fuel IH]; intros a st; [done |].
  simpl. destruct (a <? MAX_AI_FIX_ATTEMPTS w); [| done].
  pose proof (iteration_results w (a + 1) st) as Hit.
  destruct (BashSh.iteration w (a + 1) st) as [[| | status] st1];
    simpl in Hit |- *; [| exact Hit | exact Hit].
  destruct Hit as [Hres Hfile].
  specialize (IH (a + 1) st1). rewrite Hres, Hfile in IH. exact IH.
Qed.

Lemma run_ending (w : world) (o : outcome) :
  BashSh.run w = Some o → ending w o.
Proof.
  unfold BashSh.run, script.
  destruct (first_build w =? 0)%nat eqn:Hfirst.
  { apply Nat.eqb_eq in Hfirst.
    destruct (negb (first_jar w =? "")%string) eqn:Hjar.
    - pose proof (nonempty_name _ Hjar) as Hname.
      destruct (first_verify w =? 0)%nat eqn:Hver; intros [= <-].
      + apply Nat.eqb_eq in Hver.
        by apply (FirstBuild _ _ (succeeded (first_jar w) None false)).
      + apply Nat.eqb_neq in Hver.
        apply (FirstBuild _ _ (failed "JAR verification failed"
                                 (Some (first_jar w)))); try done.
        intros _. by right.
    - apply negb_false_iff, String.eqb_eq in Hjar. intros [= <-].
      apply (FirstBuild _ _ (failed "JAR file not found" None)); try done.
      intros _. by left. }
  apply Nat.eqb_neq in Hfirst.
  destruct (fix_phase_adds _ _ w iteration_adds)
    as (k & new & Ht & Hk & Hle & _ & _ & _ & Hend).
  pose proof (fix_loop_results w (S (Z.to_nat (MAX_AI_FIX_ATTEMPTS w))) 0
                (started (previous_result w))) as Hres.
  fold (fix_phase BashSh.iteration w) in Hres.
  destruct (fix_phase BashSh.iteration w) as [[j [|] | status |] st] eqn:Hphase;
    simpl in Ht, Hend, Hres; [| | | done].
  - destruct Hend as (-> & Hk1 & _). destruct Hres as [Hres Hfile].
    intros [= <-]. apply (Fixed _ _ (Z.of_nat k)); try done.
    + by rewrite Hphase.
    + lia.
    + simpl. rewrite Ht, count_cons', Hk. simpl. lia.
  - destruct Hend as (-> & _). destruct Hres as [Hres Hfile].
    intros [= <-]. apply (Fallback _ _ j st); try done.
    rewrite Ht, count_cons', Hk. simpl. lia.
  - destruct Hend as (Hs & _). destruct Hres as [Hres Hfile].
    intros [= <-]. apply (Cut _ _ status); try done.
    by rewrite Hphase.
Qed.




(** X11: the [fixes] field in [bash.sh].  A result with [fixes: n] that a
    run writes is written by the attempt numbered [n]: [n] lies between 1
    and [MAX_AI_FIX_ATTEMPTS], exactly [n] attempts were started, it is
    the only result of the run and the content of [build_result.json] at
    its end, it says success without [noShade], and the script, which
    then runs to its last line, ends with status 1. *)
Theorem fixes_field_counts_attempts (w : world) (o : outcome)
    (r : build_result) (n : Z) :
  BashSh.run w = Some o →
  r ∈ results (trace (final o)) → fixes r = Some n →
  1 ≤ n ≤ MAX_AI_FIX_ATTEMPTS w
  ∧ count is_attempt (trace (final o)) = Z.to_nat n
  ∧ r = succeeded (rebuilt_jar w n) (Some n) false
  ∧ results (trace (final o)) = [r]
  ∧ result_file (final o) = Some r
  ∧ exit_status o = 1%nat.
Proof.
  intros Hrun Hin Hfix.
  destruct (run_ending w o Hrun)
    as [r' _ Hnone _ _ Hfinal _
       | status _ _ _ Hres _ _
       | j _ _ Hj Hcount Hres Hfile Hexit
       | j st _ _ _ Hres _ ->].
  - rewrite Hfinal in Hin. simpl in Hin.
    apply list_elem_of_singleton in Hin as ->. congruence.
  - rewrite Hres in Hin. by apply elem_of_nil in Hin.
  - rewrite Hres in Hin. apply list_elem_of_singleton in Hin as ->.
    simpl in Hfix. injection Hfix as <-. done.
  - destruct (fallback_result w st) as [_ Hfall].
    destruct (BashSh.fallback_succeeds w).
    + rewrite Hfall, write_result_trace, emit_trace, !results_app, Hres in Hin.
      apply list_elem_of_singleton in Hin as ->. discriminate Hfix.
    + destruct Hfall as [(error & jar & Hfall) | Hfall]; rewrite Hfall in Hin.
      * rewrite write_result_trace, emit_trace, !results_app, Hres in Hin.
        apply list_elem_of_singleton in Hin as ->. discriminate Hfix.
      * rewrite emit_trace, results_app, Hres in Hin.
        by apply elem_of_nil in Hin.
Qed.

Lemma write_results_tally (post : list event) :
  forallb is_write_result post = true →
  count is_maven post = 0%nat ∧ count is_fix_request post = 0%nat
  ∧ ∀ p, Updated p ∉ post.
Proof.
  induction post as [| e post IH]; intros H.
  - repeat split. intros p Hp. by apply elem_of_nil in Hp.
  - simpl in H. apply andb_true_iff in H as [He Hpost].
    destruct (IH Hpost) as (Hm & Hf & Hu).
    destruct e; try discriminate He.
    rewrite !count_cons'. simpl. repeat split; try done.
    intros p Hp. apply elem_of_cons in Hp as [Hp | Hp]; [done |].
    by apply (Hu p).
Qed.

Lemma script_tally ok iteration fallback w o :
  body_adds ok iteration →
  (∀ w st, ∃ post,
     trace (final (fallback w st)) = trace st ++ Build NoShade :: post
     ∧ forallb is_write_result post = true) →
  script iteration fallback w = Some o →
  (count is_maven (trace (final o))
   ≤ 2 * Z.to_nat (MAX_AI_FIX_ATTEMPTS w) + 2)%nat
  ∧ (count is_fix_request (trace (final o))
     ≤ Z.to_nat (MAX_AI_FIX_ATTEMPTS w))%nat
  ∧ ∀ p, Updated p ∈ trace (final o) →
         ∃ n, 1 ≤ n ≤ MAX_AI_FIX_ATTEMPTS w ∧ ok w n p.
Proof.
  intros Hbody Hfall. unfold script.
  assert (Hshort : ∀ r,
            (count is_maven
               (trace (write_result r (started (previous_result w))))
             ≤ 2 * Z.to_nat (MAX_AI_FIX_ATTEMPTS w) + 2)%nat
            ∧ (count is_fix_request
                 (trace (write_result r (started (previous_result w))))
               ≤ Z.to_nat (MAX_AI_FIX_ATTEMPTS w))%nat
            ∧ ∀ p, Updated p
                   ∈ trace (write_result r (started (previous_result w))) →
                   ∃ n, 1 ≤ n ≤ MAX_AI_FIX_ATTEMPTS w ∧ ok w n p).
  { intros r. unfold count. simpl. split; [lia |]. split; [lia |].
    intros p Hp.
    do 2 (apply elem_of_cons in Hp as [Hp | Hp]; [discriminate Hp |]).
    by apply elem_of_nil in Hp. }
  destruct (first_build w =? 0)%nat.
  { destruct (negb (first_jar w =? "")%string).
    - destruct (first_verify w =? 0)%nat; intros [= <-]; apply Hshort.
    - intros [= <-]; apply Hshort. }
  destruct (fix_phase_adds _ _ w Hbody)
    as (k & new & Ht & Hk & Hle & Hm & Hf & Hu & Hend).
  assert (Hup : ∀ p, Updated p ∈ new →
                     ∃ n, 1 ≤ n ≤ MAX_AI_FIX_ATTEMPTS w ∧ ok w n p).
  { intros p Hp. destruct (Hu p Hp) as (n & Hn & Hok).
    exists n. split; [lia | done]. }
  assert (Hloop : (count is_maven (Build Normal :: new)
                   ≤ 2 * Z.to_nat (MAX_AI_FIX_ATTEMPTS w) + 1)%nat
                  ∧ (count is_fix_request (Build Normal :: new)
                     ≤ Z.to_nat (MAX_AI_FIX_ATTEMPTS w))%nat
                  ∧ ∀ p, Updated p ∈ Build Normal :: new →
                         ∃ n, 1 ≤ n ≤ MAX_AI_FIX_ATTEMPTS w ∧ ok w n p).
  { rewrite !count_cons'. simpl. split; [lia |]. split; [lia |].
    intros p Hp. apply elem_of_cons in Hp as [Hp | Hp]; [done |].
    by apply Hup. }
  destruct Hloop as (Hm1 & Hf1 & Hu1).
  destruct (fix_phase iteration w) as [[j [|] | status |] st];
    simpl in Ht, Hend; [| | | done].
  - intros [= <-]. simpl. rewrite Ht. split; [lia |]. done.
  - intros [= <-]. destruct (Hfall w st) as (post & Hpost & Hwr).
    destruct (write_results_tally post Hwr) as (Hm2 & Hf2 & Hu2).
    rewrite Hpost, Ht.
    change (Build Normal :: new) with ([Build Normal] ++ new).
    rewrite <- app_assoc.
    change ([Build Normal] ++ new ++ Build NoShade :: post)
      with (Build Normal :: new ++ [Build NoShade] ++ post).
    rewrite !count_cons', !count_app, Hm2, Hf2.
    rewrite !count_cons' in Hm1, Hf1. unfold count at 2 4. simpl.
    split; [simpl in Hm1; lia |]. split; [simpl in Hf1; lia |].
    intros p Hp. apply elem_of_cons in Hp as [Hp | Hp]; [done |].
    apply elem_of_app in Hp as [Hp | Hp]; [by apply Hup |].
    apply elem_of_cons in Hp as [Hp | Hp]; [done |].
    by destruct (Hu2 p).
  - intros [= <-]. simpl. rewrite Ht. split; [lia |]. done.
Qed.

(** X12: the work of one run of [bash.sh].  A run starts Maven at most
    [2 * MAX_AI_FIX_ATTEMPTS + 2] times, the first build, two builds per
    attempt and the fallback, and sends at most [MAX_AI_FIX_ATTEMPTS]
    requests to the fix API. *)
Theorem maven_runs_bounded (w : world) (o : outcome) :
  BashSh.run w = Some o →
  (count is_maven (trace (final o))
   ≤ 2 * Z.to_nat (MAX_AI_FIX_ATTEMPTS w) + 2)%nat
  ∧ (count is_fix_request (trace (final o))
     ≤ Z.to_nat (MAX_AI_FIX_ATTEMPTS w))%nat.
Proof.
  intros Hrun.
  destruct (script_tally _ BashSh.iteration BashSh.fallback w o
              iteration_adds (λ w st, fallback_trace w st) Hrun)
    as (Hm & Hf & _).
  split; [exact Hm | exact Hf].
Qed.

End Runs.



Lemma fixes_field_counts_attempts_witness :
  ∃ o, BashSh.run FurtherScripts.rerun = Some o
       ∧ Shell.count Shell.is_attempt (Shell.trace (Shell.final o)) = 2%nat
       ∧ Shell.result_file (Shell.final o)
         = Some (Shell.succeeded "target/demo-1.0.jar" (Some 2%Z) false)
       ∧ Shell.exit_status o = 1%nat.
Proof.
  eexists. split; [vm_compute; reflexivity |].
  destruct (fixes_field_counts_attempts FurtherScripts.rerun _
              (Shell.succeeded "target/demo-1.0.jar" (Some 2%Z) false) 2
              eq_refl)
    as (_ & Hcount & _ & _ & Hfile & Hexit).
  - vm_compute. apply list_elem_of_singleton. reflexivity.
  - reflexivity.
  - split; [exact Hcount |]. split; [exact Hfile | exact Hexit].
Defined.

Lemma maven_runs_bounded_witness :
  ∃ o, BashSh.run ScriptExample.stubborn = Some o
       ∧ (Shell.count Accounting.is_maven (Shell.trace (Shell.final o))
          ≤ 12)%nat
       ∧ (Shell.count Accounting.is_fix_request
            (Shell.trace (Shell.final o)) ≤ 5)%nat.
Proof.
  eexists. split; [vm_compute; reflexivity |].
  refine (maven_runs_bounded ScriptExample.stubborn _ eq_refl).
Defined.

(* ===================================================================== *)
(** * Isolation of the log streams *)
(* ===================================================================== *)

Section StreamIsolation.
Import JS FileSystem LogStream Streams.

Variable now : nat → list N.

Lemma received_broadcast_outside st p m sid :
  (∀ streams, activeStreams st !! p = Some streams → sid ∉ streams) →
  received (broadcastLogMessage now st p m) sid = received st sid.
Proof.
  intros Hout. unfold broadcastLogMessage, received.
  destruct (activeStreams st !! p) as [streams |] eqn:Hp; [| done].
  destruct (0 <? length streams)%nat; [| done]. simpl.
  rewrite write_all_outside by (by apply Hout). done.
Qed.

(** X14: [broadcastLogMessage], isolation.  In a state the handlers can
    reach, a message broadcast under one plugin name adds nothing to a
    stream registered under another name. *)
Theorem broadcast_stays_in_project (evs : list (filesys * event))
    (p q : list N) (streams : list nat) (sid : nat) (m : list N) :
  let st := run now initial evs in
  activeStreams st !! q = Some streams → sid ∈ streams → p ≠ q →
  received (broadcastLogMessage now st p m) sid = received st sid.
Proof.
  intros st Hq Hin Hpq.
  pose proof (run_well_formed now initial evs initial_well_formed) as Hwf.
  fold st in Hwf.
  apply received_broadcast_outside. intros ps Hp Hsid.
  destruct (wf_live st Hwf q streams sid Hq Hin) as [_ Hhq].
  destruct (wf_live st Hwf p ps sid Hp Hsid) as [_ Hhp].
  congruence.
Qed.


Lemma closed_after_close st sid p :
  well_formed st → handlers st !! sid = Some p →
  closed_with sid (received st sid) (on_close st sid).
Proof.
  intros Hwf Hh.
  split; [by apply close_well_formed |].
  split.
  { unfold on_close. rewrite Hh. simpl. apply (wf_fresh st Hwf).
    by rewrite Hh. }
  split.
  - unfold on_close. rewrite Hh. simpl. intros q qs Hq Hin.
    destruct (activeStreams st !! p) as [streams |] eqn:Hp.
    + destruct (length (set_delete sid streams) =? 0)%nat.
      * destruct (decide (p = q)) as [-> | Hpq];
          [by rewrite lookup_delete_eq in Hq |].
        rewrite lookup_delete_ne in Hq by done.
        destruct (wf_live st Hwf q qs sid Hq Hin) as [_ Hhq]. congruence.
      * destruct (decide (p = q)) as [-> | Hpq].
        -- rewrite lookup_insert_eq in Hq. injection Hq as <-.
           apply (set_delete_subset now) in Hin as [_ Hne]. by apply Hne.
        -- rewrite lookup_insert_ne in Hq by done.
           destruct (wf_live st Hwf q qs sid Hq Hin) as [_ Hhq]. congruence.
    + destruct (wf_live st Hwf q qs sid Hq Hin) as [_ Hhq]. congruence.
  - unfold on_close, received. rewrite Hh. simpl.
    rewrite lookup_alter_eq. by destruct (heap st !! sid).
Qed.

Lemma closed_step sid W fs st ev :
  closed_with sid W st → closed_with sid W (step now fs st ev).
Proof.
  intros (Hwf & Hlt & Hout & Hrec).
  split; [by apply step_well_formed |].
  destruct ev as [p | sid' | p m]; simpl.
  - (* connect *)
    unfold connect.
    destruct (negb (existsSync fs (resolve (cwd fs) [p]))); [done |].
    set (new := next_stream st) in *.
    assert (sid ≠ new) as Hne by lia.
    match goal with
    | |- context [let '(h2, t2) := ?e in _] => destruct e as [h2 t2] eqn:He
    end.
    simpl. split; [lia |]. split.
    + intros q qs Hq Hin. destruct (decide (p = q)) as [-> | Hpq].
      * rewrite lookup_insert_eq in Hq. injection Hq as <-.
        apply (elem_of_set_add now) in Hin as [Hin | Hin]; [done |].
        destruct (activeStreams st !! q) as [streams |] eqn:Hs; simpl in Hin.
        -- by apply (Hout q streams).
        -- by apply elem_of_nil in Hin.
      * rewrite lookup_insert_ne in Hq by done. by apply (Hout q qs).
    + unfold received. simpl.
      assert (h2 !! sid = heap st !! sid) as ->; [| exact Hrec].
      destruct (existsSync fs _) in He.
      * destruct (readFileSync fs _) as [text | e] in He.
        -- pose proof (replay_other now (split_on 10 text) new
                         (stream_write
                            {| timestamp := now (ticks st);
                               message := js "Connected to log stream" |}
                            new
                            (<[new := {| written := []; ended := false |}]>
                               (heap st)))
                         (S (ticks st)) sid Hne) as Ho.
           rewrite He in Ho. simpl in Ho. rewrite Ho.
           rewrite stream_write_ne by done. by rewrite lookup_insert_ne.
        -- injection He as <- <-.
           rewrite stream_write_ne by done. by rewrite lookup_insert_ne.
      * injection He as <- <-.
        rewrite stream_write_ne by done. by rewrite lookup_insert_ne.
  - (* close *)
    unfold on_close.
    destruct (handlers st !! sid') as [p |] eqn:Hh; [| done]. simpl.
    split; [done |]. split.
    + intros q qs Hq Hin.
      destruct (activeStreams st !! p) as [streams |] eqn:Hp.
      * destruct (length (set_delete sid' streams) =? 0)%nat.
        -- destruct (decide (p = q)) as [-> | Hpq];
             [by rewrite lookup_delete_eq in Hq |].
           rewrite lookup_delete_ne in Hq by done. by apply (Hout q qs).
        -- destruct (decide (p = q)) as [-> | Hpq].
           ++ rewrite lookup_insert_eq in Hq. injection Hq as <-.
              apply (set_delete_subset now) in Hin as [Hin _].
              by apply (Hout q streams).
           ++ rewrite lookup_insert_ne in Hq by done. by apply (Hout q qs).
      * by apply (Hout q qs).
    + unfold received in *. simpl.
      destruct (decide (sid = sid')) as [<- | Hne].
      * rewrite lookup_alter_eq. by destruct (heap st !! sid).
      * by rewrite lookup_alter_ne.
  - (* broadcast *)
    split.
    { unfold broadcastLogMessage.
      destruct (activeStreams st !! p) as [streams |]; [| done].
      by destruct (0 <? length streams)%nat. }
    split.
    { unfold broadcastLogMessage.
      destruct (activeStreams st !! p) as [streams |]; [| done].
      by destruct (0 <? length streams)%nat. }
    rewrite received_broadcast_outside; [done |].
    intros streams Hp. by apply (Hout p).
Qed.

Lemma closed_run sid W st evs :
  closed_with sid W st → closed_with sid W (run now st evs).
Proof.
  revert st. induction evs as [| [fs ev] evs IH]; intros st H; [done |].
  simpl. apply IH. by apply closed_step.
Qed.

(** X15: the ['close'] handler of the log route.  Once the handler of a
    connection has run, whatever is connected, closed or broadcast later,
    the stream of that connection receives nothing more and is in no set
    of the registry. *)
Theorem closed_stream_stays_silent (evs later : list (filesys * event))
    (sid : nat) :
  let st := run now initial evs in
  is_Some (handlers st !! sid) →
  let st' := run now (on_close st sid) later in
  received st' sid = received st sid
  ∧ ∀ p streams, activeStreams st' !! p = Some streams → sid ∉ streams.
Proof.
  intros st [p Hh] st'.
  pose proof (run_well_formed now initial evs initial_well_formed) as Hwf.
  fold st in Hwf.
  pose proof (closed_run sid _ _ later (closed_after_close st sid p Hwf Hh))
    as (_ & _ & Hout & Hrec).
  split; [exact Hrec | exact Hout].
Qed.

End StreamIsolation.

Lemma broadcast_stays_in_project_witness :
  LogStream.received
    (LogStream.broadcastLogMessage LogExample.clock
       (LogStream.run LogExample.clock LogStream.initial LogExample.history)
       (JS.js "other") (JS.js "compiling")) 1%nat
  = LogStream.received
      (LogStream.run LogExample.clock LogStream.initial LogExample.history)
      1%nat.
Proof.
  apply (broadcast_stays_in_project LogExample.clock LogExample.history
           (JS.js "other") (JS.js "demo") [1%nat]).
  - vm_compute. reflexivity.
  - apply list_elem_of_singleton. reflexivity.
  - apply (bool_decide_unpack _). vm_compute. exact I.
Defined.

Lemma closed_stream_stays_silent_witness :
  LogStream.received
    (LogStream.run LogExample.clock
       (LogStream.on_close
          (LogStream.run LogExample.clock LogStream.initial
             (take 2 LogExample.history)) 0%nat)
       [(StatusExample.fresh,
         LogStream.Broadcast (JS.js "demo") LogExample.announcement)]) 0%nat
  = LogStream.received
      (LogStream.run LogExample.clock LogStream.initial
         (take 2 LogExample.history)) 0%nat.
Proof.
  apply (closed_stream_stays_silent LogExample.clock
           (take 2 LogExample.history)
           [(StatusExample.fresh,
             LogStream.Broadcast (JS.js "demo") LogExample.announcement)]
           0%nat).
  vm_compute. eexists. reflexivity.
Defined.

(* ===================================================================== *)
(** * Properties of the token middleware and of [attemptFix] *)
(* ===================================================================== *)

Section AuthFacts.
Import JS Auth.



Lemma bearer_second_word (h : list N) :
  bearer (Some h)
  = match h with [] => Some [] | _ => split_on 32 h !! 1%nat end.
Proof. by destruct h. Qed.

(** X16: [authenticateToken].  The middleware reads the header as words
    separated by single spaces and judges the second one only: 401 when it
    is missing or empty, [next()] when it is one of [VALID_TOKENS], 403
    otherwise.  The first word, the scheme, and the words after the second
    play no part. *)
Theorem verdict_by_second_word (API_TOKEN : option (list N))
    (words : list (list N)) :
  words ≠ [] → Forall (λ w, 32 ∉ w) words →
  authenticateToken API_TOKEN (Some (join_with 32 words))
  = match words !! 1%nat with
    | None | Some [] => Unauthorized
    | Some token =>
        if bool_decide (token ∈ VALID_TOKENS API_TOKEN) then Next
        else Forbidden
    end.
Proof.
  intros Hne Hall. unfold authenticateToken.
  rewrite bearer_second_word.
  destruct (join_with 32 words) as [| c h] eqn:Hj.
  - destruct words as [| w [| w' ws]]; [done | done |].
    simpl in Hj. by destruct w.
  - rewrite <- Hj, split_join by done.
    destruct (words !! 1%nat) as [[| d t] |]; done.
Qed.

Lemma second_word (scheme token : list N) :
  32 ∉ scheme → 32 ∉ token →
  bearer (Some (scheme ++ 32 :: token)) = Some token.
Proof.
  intros Hs Ht. rewrite bearer_second_word.
  destruct (scheme ++ 32 :: token) as [| c h] eqn:Hj; [by destruct scheme |].
  rewrite <- Hj, split_on_app, !split_on_none by done. done.
Qed.

(** X17: [VALID_TOKENS].  Whatever [API_TOKEN] is set to, and whatever
    scheme word precedes it, [local-build-token] is let through.
    [default-token] is let through exactly when [API_TOKEN] is unset,
    empty or that very word. *)
Theorem build_token_always_accepted (API_TOKEN : option (list N))
    (scheme : list N) :
  32 ∉ scheme →
  authenticateToken API_TOKEN (Some (scheme ++ 32 :: js "local-build-token"))
  = Next
  ∧ (authenticateToken API_TOKEN (Some (scheme ++ 32 :: js "default-token"))
     = Next
     ↔ API_TOKEN = None ∨ API_TOKEN = Some []
       ∨ API_TOKEN = Some (js "default-token")).
Proof.
  intros Hs. unfold authenticateToken.
  rewrite !second_word
    by (done || (apply (bool_decide_unpack _); vm_compute; exact I)).
  split.
  - change (js "local-build-token") with (108 :: js "ocal-build-token").
    cbv iota beta. rewrite bool_decide_eq_true_2; [done |].
    unfold VALID_TOKENS. apply elem_of_cons. right.
    apply elem_of_cons. by left.
  - change (js "default-token") with (100 :: js "efault-token") at 1.
    cbv iota beta.
    change (100 :: js "efault-token") with (js "default-token").
    destruct (bool_decide (js "default-token" ∈ VALID_TOKENS API_TOKEN))
      eqn:Hin.
    + split; [intros _ | done].
      apply bool_decide_eq_true in Hin. unfold VALID_TOKENS in Hin.
      apply elem_of_cons in Hin as [Hin | Hin].
      * destruct API_TOKEN as [[| c t] |]; [by right; left | | by left].
        right. right. by rewrite Hin.
      * apply elem_of_cons in Hin as [Hin | Hin]; [| by inversion Hin].
        exfalso. revert Hin. vm_compute. discriminate.
    + split; [done |]. intros Hapi. exfalso.
      apply bool_decide_eq_false in Hin. apply Hin.
      unfold VALID_TOKENS. apply elem_of_cons. left.
      destruct Hapi as [-> | [-> | ->]]; reflexivity.
Qed.

End AuthFacts.

Lemma verdict_by_second_word_witness :
  Auth.authenticateToken (Some (JS.js "s3cret"))
    (Some (JS.join_with 32
             [JS.js "Basic"; JS.js "local-build-token"; JS.js "trailing"]))
  = Auth.Next.
Proof.
  rewrite (verdict_by_second_word (Some (JS.js "s3cret"))
             [JS.js "Basic"; JS.js "local-build-token"; JS.js "trailing"]).
  - vm_compute. reflexivity.
  - discriminate.
  - apply (bool_decide_unpack _). vm_compute. exact I.
Defined.

Lemma build_token_always_accepted_witness :
  Auth.authenticateToken (Some (JS.js "s3cret"))
    (Some (JS.js "Bearer" ++ 32 :: JS.js "local-build-token"))
  = Auth.Next.
Proof.
  apply (build_token_always_accepted (Some (JS.js "s3cret")) (JS.js "Bearer")).
  apply (bool_decide_unpack _). vm_compute. exact I.
Defined.

Section AttemptFixFacts.
Import JS FileSystem FixRoute Auth App.

Variable getAllFiles : filesys → list N → completion (list (list N)).

(** X18: [attemptFix] against the application.  Sent to a route mounted
    behind [authenticateToken], the request of [attemptFix] carries no
    [Authorization] header, is answered 401 whatever the route is, and
    [attemptFix] returns [false] with the disk untouched.  Sent to the fix
    route itself, it returns [true] exactly when the route answers with
    status 200. *)
Theorem attemptFix_never_authenticated (API_TOKEN : option (list N))
    (fixer : nat → prompt → completion (list N))
    (fs : filesys) (pluginDir buildErrors : list N) :
  (∀ route,
     attemptFix getAllFiles (λ fs req, Some (guarded API_TOKEN route fs req))
       fs pluginDir buildErrors = (false, fs))
  ∧ attemptFix getAllFiles (λ fs req, Some (fix_route fixer fs (body req)))
      fs pluginDir buildErrors
    = match getAllFiles fs pluginDir with
      | Throws _ => (false, fs)
      | Returns allFiles =>
          let '(r, fs') :=
            post_fix fixer fs
              {| buildErrors := VString buildErrors;
                 files := VObject (read_all fs pluginDir allFiles []);
                 pluginDir := VString pluginDir |} in
          (match r with Fixed _ _ => true | _ => false end, fs')
      end.
Proof.
  split.
  - intros route. unfold attemptFix.
    destruct (getAllFiles fs pluginDir) as [allFiles | e]; [| done].
    reflexivity.
  - unfold attemptFix.
    destruct (getAllFiles fs pluginDir) as [allFiles | e]; [| done].
    unfold fix_route. cbn [body].
    change (field "buildErrors" (VObject ?l)) with (VString buildErrors).
    change (field "pluginDir" (VObject ?l)) with (VString pluginDir).
    match goal with
    | |- context [field "files" (VObject ?l)] =>
        change (field "files" (VObject l))
          with (VObject (read_all fs pluginDir allFiles []))
    end.
    destruct (post_fix fixer fs _) as [[| w data | e] fs']; reflexivity.
Qed.

End AttemptFixFacts.

Section RelativeKeys.
Import JS FileSystem FixRoute App Paths.

Lemma segments_of_resolve cwd p :
  segments_of cwd p = resolve_segments cwd [p].
Proof.
  unfold segments_of, resolve_segments, resolve_parts. simpl.
  destruct p as [| c p]; [done |]. by destruct (is_absolute (c :: p)).
Qed.

Lemma common_prefix_take (a b : list (list N)) :
  take (common_prefix a b) a = take (common_prefix a b) b
  ∧ (common_prefix a b ≤ length a)%nat.
Proof.
  revert b. induction a as [| x a IH]; intros b; [by destruct b |].
  destruct b as [| y b]; [simpl; split; [done | lia] |]. simpl.
  case_bool_decide as Hxy; [| simpl; split; [done | lia]].
  subst y. destruct (IH b) as [Ht Hl]. simpl. split; [by rewrite Ht | lia].
Qed.

(** [..] as often as the plain segments last collected. *)
Lemma normalize_segments_ups (acc gone : list (list N)) :
  Forall plain gone →
  normalize_segments false (acc ++ gone)
    (replicate (length gone) [46; 46])
  = acc.
Proof.
  induction gone as [| g gone IH] using rev_ind; intros Hplain.
  - by rewrite app_nil_r.
  - rewrite Forall_app, Forall_singleton in Hplain.
    destruct Hplain as [Hgone (_ & _ & _ & Hg)].
    rewrite length_app. simpl length.
    replace (length gone + 1)%nat with (S (length gone)) by lia.
    cbn [replicate]. cbn [normalize_segments].
    rewrite (bool_decide_eq_false_2 ([46; 46] = [])) by done.
    rewrite (bool_decide_eq_false_2 ([46; 46] = [46])) by done.
    rewrite (bool_decide_eq_true_2 ([46; 46] = [46; 46])) by done.
    cbn [orb]. rewrite app_assoc, last_snoc.
    rewrite bool_decide_eq_false_2 by done.
    rewrite removelast_last. by apply IH.
Qed.

Lemma normalize_segments_pushes acc segs :
  Forall plain segs → normalize_segments false acc segs = acc ++ segs.
Proof.
  intros Hplain. rewrite normalize_segments_no_dotdot.
  - by rewrite plain_filter.
  - intros Hin. eapply Forall_forall in Hplain; [| exact Hin].
    by destruct Hplain as (_ & _ & _ & H).
Qed.

Lemma plain_no_sep (segs : list (list N)) :
  Forall plain segs → Forall (λ seg, 47 ∉ seg) segs.
Proof.
  intros H. eapply Forall_impl; [exact H |]. by intros seg [H47 _].
Qed.

Lemma relative_cases cwd from to :
  let f := resolve_segments cwd [from] in
  let t := resolve_segments cwd [to] in
  let n := common_prefix f t in
  (f = t ∧ relative cwd from to = [])
  ∨ (replicate (length f - n) [46; 46] ++ drop n t ≠ []
     ∧ is_absolute (relative cwd from to) = false
     ∧ relative cwd from to ≠ []
     ∧ split_on 47 (relative cwd from to)
       = replicate (length f - n) [46; 46] ++ drop n t).
Proof.
  intros f t n. unfold relative. rewrite !segments_of_resolve.
  fold f t n. change (js "..") with [46; 46].
  pose proof (resolve_segments_plain cwd [from]) as Hf.
  pose proof (resolve_segments_plain cwd [to]) as Ht.
  fold f in Hf. fold t in Ht.
  destruct (common_prefix_take f t) as [Htake Hle]. fold n in Htake, Hle.
  set (segs := replicate (length f - n) [46; 46] ++ drop n t).
  assert (Forall (λ seg, (47 ∉ seg) ∧ seg ≠ []) segs) as Hsegs.
  { apply Forall_app. split.
    - apply Forall_replicate. split; [| done].
      apply (bool_decide_unpack _). vm_compute. exact I.
    - apply Forall_drop. eapply Forall_impl; [exact Ht |].
      by intros seg (H1 & H2 & _). }
  destruct segs as [| s segs'] eqn:Hs.
  - left. split; [| done].
    apply app_eq_nil in Hs as [Hrep Hdrop].
    assert (length f = n) as Hlen.
    { destruct (length f - n)%nat eqn:Hd; [lia | done]. }
    rewrite <- (take_drop n t), Hdrop, app_nil_r, <- Htake.
    rewrite <- Hlen. by rewrite firstn_all.
  - right. split; [done |]. pose proof Hsegs as Hhead.
    rewrite <- Hs in Hsegs |- *.
    assert (segs ≠ []) as Hne by (by rewrite Hs).
    split; [| split].
    + rewrite Hs. apply Forall_cons in Hhead as [[Hs47 Hsne] _].
      destruct s as [| c s]; [done |].
      apply not_elem_of_cons in Hs47 as [Hc _].
      assert (∀ l, is_absolute (c :: l) = false) as Habs.
      { intros l. unfold is_absolute. destruct c as [| p]; [done |].
        do 6 (destruct p as [p | p |]; try done). }
      destruct segs' as [| x l]; [exact (Habs s) |].
      exact (Habs (s ++ 47 :: join_with 47 (x :: l))).
    + apply join_with_nonempty; [done |].
      eapply Forall_impl; [exact Hsegs |]. by intros seg [_ H].
    + apply split_join; [done |].
      eapply Forall_impl; [exact Hsegs |]. by intros seg [H _].
Qed.

(** [path.resolve(from, path.relative(from, to))] is [path.resolve(to)]. *)
Lemma resolve_relative cwd from to :
  resolve cwd [from; relative cwd from to] = resolve cwd [to].
Proof.
  rewrite !resolve_eq. f_equal. f_equal.
  pose proof (resolve_segments_plain cwd [from]) as Hf.
  pose proof (resolve_segments_plain cwd [to]) as Ht.
  destruct (common_prefix_take (resolve_segments cwd [from])
              (resolve_segments cwd [to])) as [Htake Hle].
  destruct (relative_cases cwd from to)
    as [[Heq Hrel] | (_ & Habs & Hne & Hsplit)].
  - rewrite Hrel, <- Heq. reflexivity.
  - unfold resolve_segments at 1.
    assert (resolve_parts cwd [from; relative cwd from to]
            = resolve_parts cwd [from] ++ [relative cwd from to]) as ->.
    { change [from; relative cwd from to]
        with ([from] ++ [relative cwd from to]).
      unfold resolve_parts. rewrite fold_left_app. cbn [fold_left].
      rewrite Habs. by destruct (relative cwd from to). }
    rewrite map_app, concat_app.
    change (concat (map (split_on 47) [relative cwd from to]))
      with (split_on 47 (relative cwd from to) ++ []).
    rewrite app_nil_r, normalize_segments_app, Hsplit.
    fold (resolve_segments cwd [from]).
    set (f := resolve_segments cwd [from]) in *.
    set (t := resolve_segments cwd [to]) in *.
    set (n := common_prefix f t) in *.
    rewrite normalize_segments_app.
    rewrite <- (take_drop n f) at 1.
    replace (length f - n)%nat with (length (drop n f))
      by (rewrite length_drop; lia).
    rewrite normalize_segments_ups by (by apply Forall_drop).
    rewrite normalize_segments_pushes by (by apply Forall_drop).
    by rewrite Htake, take_drop.
Qed.

Lemma assign_elem {A} (key : list N) (v : A) (obj : list (list N * A)) e :
  e ∈ assign key v obj → e = (key, v) ∨ e ∈ obj.
Proof.
  induction obj as [| [k0 x] rest IH]; simpl.
  - intros He. apply list_elem_of_singleton in He. by left.
  - case_bool_decide as Hk; intros He; apply elem_of_cons in He.
    + destruct He as [-> | He]; [left; by subst | right; by right].
    + destruct He as [-> | He]; [right; by left |].
      destruct (IH He) as [-> | Hin]; [by left | right; by right].
Qed.


Lemma read_all_entries fs pluginDir allFiles acc e :
  e ∈ read_all fs pluginDir allFiles acc →
  e ∈ acc
  ∨ ∃ filePath content,
      filePath ∈ allFiles
      ∧ readFileSync fs filePath = Returns content
      ∧ e = (relative (cwd fs) pluginDir filePath, VString content).
Proof.
  revert acc. induction allFiles as [| filePath rest IH]; intros acc He.
  - by left.
  - simpl in He.
    destruct (readFileSync fs filePath) as [content | err] eqn:Hread.
    + apply IH in He as [He | (p & c & Hp & Hc & ->)].
      * apply assign_elem in He as [-> | He]; [| by left].
        right. exists filePath, content. split; [by left | done].
      * right. exists p, c. split; [by right | done].
    + apply IH in He as [He | (p & c & Hp & Hc & ->)]; [by left |].
      right. exists p, c. split; [by right | done].
Qed.

(** X24: the request of [attemptFix] against [writeFixedFiles].  Every
    entry of the [files] object that [attemptFix] sends holds the content
    of one of the files listed, under a key that
    [path.resolve(pluginDir, key)], the path [writeFixedFiles] writes a
    patch to, leads back to that very file. *)
Theorem sent_keys_resolve_back (fs : filesys) (pluginDir : list N)
    (allFiles : list (list N)) (key : list N) (v : jsvalue) :
  (key, v) ∈ read_all fs pluginDir allFiles [] →
  ∃ filePath content,
    filePath ∈ allFiles
    ∧ v = VString content
    ∧ readFileSync fs filePath = Returns content
    ∧ key = relative (cwd fs) pluginDir filePath
    ∧ resolve (cwd fs) [pluginDir; key] = canon fs filePath.
Proof.
  intros He. apply read_all_entries in He as [He | (p & c & Hp & Hc & He)].
  - by apply elem_of_nil in He.
  - injection He as -> ->. exists p, c.
    repeat split; try done. apply resolve_relative.
Qed.

End RelativeKeys.

Lemma sent_keys_resolve_back_witness :
  ∃ filePath content,
    filePath ∈ [JS.js "demo/pom.xml"]
    ∧ JS.VString (JS.js "<project/>") = JS.VString content
    ∧ FileSystem.readFileSync StatusExample.fresh filePath
      = JS.Returns content
    ∧ JS.js "pom.xml"
      = App.relative (FileSystem.cwd StatusExample.fresh) (JS.js "demo")
          filePath
    ∧ JS.resolve (FileSystem.cwd StatusExample.fresh)
        [JS.js "demo"; JS.js "pom.xml"]
      = FileSystem.canon StatusExample.fresh filePath.
Proof.
  apply (sent_keys_resolve_back StatusExample.fresh (JS.js "demo")
           [JS.js "demo/pom.xml"] (JS.js "pom.xml")
           (JS.VString (JS.js "<project/>"))).
  replace (App.read_all StatusExample.fresh (JS.js "demo")
             [JS.js "demo/pom.xml"] [])
    with [(JS.js "pom.xml", JS.VString (JS.js "<project/>"))]
    by (vm_compute; reflexivity).
  apply list_elem_of_singleton. reflexivity.
Defined.

(* ===================================================================== *)
(** * The build route and the status route together *)
(* ===================================================================== *)

Section BuildRouteFacts.
Import JS FileSystem StatusRoute LogStream BuildRoute Paths.

Variable JSON_stringify : jsvalue → list N.
Variable readdirSync : filesys → list N → completion (list (list N)).
Variable JSON_parse : list N → option jsvalue.
Variable now : nat → list N.


Lemma existsSync_other fs fs' q x :
  one_written fs fs' q → canon fs x ≠ q → existsSync fs' x = existsSync fs x.
Proof.
  intros (Hc & Hd & text & Hf) Hne.
  unfold existsSync, is_dir, is_file, canon in *.
  rewrite Hc, Hd, Hf. by rewrite lookup_insert_ne.
Qed.

Lemma existsSync_kept fs fs' q x :
  one_written fs fs' q → existsSync fs x = true → existsSync fs' x = true.
Proof.
  intros (Hc & Hd & text & Hf). by apply (existsSync_insert fs fs' q text).
Qed.

Lemma readFileSync_other fs fs' q x :
  one_written fs fs' q → canon fs x ≠ q →
  readFileSync fs' x = readFileSync fs x.
Proof.
  intros (Hc & Hd & text & Hf) Hne.
  unfold readFileSync, is_dir, canon in *.
  rewrite Hc, Hd, Hf. by rewrite lookup_insert_ne.
Qed.

Lemma writeFileSync_one fs p content fs' :
  writeFileSync fs p content = Returns fs' →
  one_written fs fs' (canon fs p)
  ∧ regular_files fs' !! canon fs p = Some content.
Proof.
  intros Hw. apply writeFileSync_returns in Hw as (Hc & Hd & Hf).
  split; [split; [done | split; [done | by exists content]] |].
  rewrite Hf. apply lookup_insert_eq.
Qed.

Lemma plain_name (name : string) :
  bool_decide (plain (js name)) = true → plain (js name).
Proof. apply bool_decide_eq_true. Qed.

Lemma plain_result : plain (js "build_result.json").
Proof.
  repeat split; try discriminate.
  apply (bool_decide_unpack _). vm_compute. exact I.
Qed.

Lemma plain_status : plain (js "build_status.json").
Proof.
  repeat split; try discriminate.
  apply (bool_decide_unpack _). vm_compute. exact I.
Qed.

Lemma plain_log : plain (js "build.log").
Proof.
  repeat split; try discriminate.
  apply (bool_decide_unpack _). vm_compute. exact I.
Qed.

(** Two entries of one directory lie at different paths. *)
Lemma entries_apart fs d a b :
  plain a → plain b → a ≠ b →
  canon fs (join [d; a]) ≠ canon fs (join [d; b]).
Proof.
  intros Ha Hb Hne. unfold canon.
  rewrite !canon_join_child by done. intros H. by apply child_inj in H.
Qed.

(** The status route looks at the entries of the directory its name
    resolves to. *)
Lemma status_paths fs pluginName d name :
  resolve (cwd fs) [pluginName] = resolve (cwd fs) [d] → plain name →
  canon fs (join [resolve (cwd fs) [pluginName]; name])
  = canon fs (join [d; name]).
Proof.
  intros Hsame Hn. unfold canon.
  rewrite !canon_join_child by done. by rewrite resolve_resolve, Hsame.
Qed.

(** What the answer of the status route depends on. *)
Lemma get_status_same fs fs' pluginName :
  cwd fs' = cwd fs →
  let pluginDir := resolve (cwd fs) [pluginName] in
  existsSync fs' pluginDir = existsSync fs pluginDir →
  existsSync fs' (join [pluginDir; js "build_result.json"])
  = existsSync fs (join [pluginDir; js "build_result.json"]) →
  readFileSync fs' (join [pluginDir; js "build_result.json"])
  = readFileSync fs (join [pluginDir; js "build_result.json"]) →
  (existsSync fs (join [pluginDir; js "build_result.json"]) = false →
   existsSync fs' (join [pluginDir; js "build.log"])
   = existsSync fs (join [pluginDir; js "build.log"])) →
  get_status JSON_parse fs' pluginName = get_status JSON_parse fs pluginName.
Proof.
  intros Hc pluginDir Hdir Hres Hread Hlog. unfold get_status.
  rewrite Hc. fold pluginDir. rewrite Hdir, Hres, Hread.
  destruct (negb (existsSync fs pluginDir)); [done |].
  destruct (existsSync fs (join [pluginDir; js "build_result.json"]));
    [done |].
  by rewrite Hlog.
Qed.

(** Writing another entry of the project leaves the answer alone. *)
Lemma get_status_other_entry fs fs' pluginName d name :
  resolve (cwd fs) [pluginName] = resolve (cwd fs) [d] →
  plain name → name ≠ js "build_result.json" →
  existsSync fs d = true →
  one_written fs fs' (canon fs (join [d; name])) →
  existsSync fs (join [d; js "build_result.json"]) = true →
  get_status JSON_parse fs' pluginName = get_status JSON_parse fs pluginName.
Proof.
  intros Hsame Hn Hne Hd Hw Hres.
  pose proof Hw as (Hc & _).
  assert (canon fs (join [resolve (cwd fs) [pluginName];
                          js "build_result.json"])
          ≠ canon fs (join [d; name])) as Hapart.
  { rewrite (status_paths fs pluginName d) by (done || apply plain_result).
    apply entries_apart; [apply plain_result | done | done]. }
  assert (existsSync fs (join [resolve (cwd fs) [pluginName];
                               js "build_result.json"]) = true) as Hres'.
  { unfold existsSync, is_dir, is_file in *.
    by rewrite (status_paths fs pluginName d)
      by (done || apply plain_result). }
  apply get_status_same; [done | | | |].
  - assert (existsSync fs (resolve (cwd fs) [pluginName]) = true) as He.
    { unfold existsSync, is_dir, is_file, canon in *.
      by rewrite resolve_resolve, Hsame. }
    rewrite He. by apply (existsSync_kept fs fs' (canon fs (join [d; name]))).
  - by apply (existsSync_other fs fs' (canon fs (join [d; name]))).
  - by apply (readFileSync_other fs fs' (canon fs (join [d; name]))).
  - intros Hno. congruence.
Qed.


Lemma existsSync_written fs fs' p :
  one_written fs fs' (canon fs p) → existsSync fs' p = true.
Proof.
  intros (Hc & Hd & text & Hf). unfold existsSync, is_file, canon in *.
  rewrite Hc, Hf, lookup_insert_eq. apply orb_true_iff. right.
  by apply bool_decide_eq_true.
Qed.

Lemma existsSync_dir_same fs pluginName d :
  resolve (cwd fs) [pluginName] = resolve (cwd fs) [d] →
  existsSync fs (resolve (cwd fs) [pluginName]) = existsSync fs d.
Proof.
  intros Hsame. unfold existsSync, is_dir, is_file, canon.
  by rewrite resolve_resolve, Hsame.
Qed.

Lemma existsSync_entry_same fs pluginName d name :
  resolve (cwd fs) [pluginName] = resolve (cwd fs) [d] → plain name →
  existsSync fs (join [resolve (cwd fs) [pluginName]; name])
  = existsSync fs (join [d; name]).
Proof.
  intros Hsame Hn. unfold existsSync, is_dir, is_file.
  by rewrite (status_paths fs pluginName d).
Qed.

Lemma one_written_canon fs fs' q x :
  one_written fs fs' q → canon fs' x = canon fs x.
Proof. intros (Hc & _). unfold canon. by rewrite Hc. Qed.

(** X19: the ['close'] handler of the build route, seen through the status
    route.  Let [JSON.parse] read back the result that [JSON.stringify]
    writes, and let a [build_result.json] that is there be a file whose
    content parses.  Then, after the handler has run, the status route
    answers with a complete build and its result.  If a
    [build_result.json] was there, the handler leaves it alone and the
    answer is what it was before, whatever the exit code; if none was
    there, the result is the minimal one the handler writes for that exit
    code. *)
Theorem finished_build_is_reported (fs fs' : filesys)
    (pluginName dir : list N) (code : option Z) (time : list N) :
  resolve (cwd fs) [pluginName] = resolve (cwd fs) [dir] →
  existsSync fs dir = true →
  on_close JSON_stringify readdirSync fs dir code time
  = {| escaped := None; disk := fs' |} →
  (∀ jarPath,
     JSON_parse (JSON_stringify (minimal_result dir code jarPath))
     = Some (minimal_result dir code jarPath)) →
  (existsSync fs (join [dir; js "build_result.json"]) = true →
   ∃ text earlier,
     readFileSync fs (join [dir; js "build_result.json"]) = Returns text
     ∧ JSON_parse text = Some earlier) →
  ∃ buildResult,
    get_status JSON_parse fs' pluginName = BuildComplete buildResult
    ∧ if existsSync fs (join [dir; js "build_result.json"])
      then get_status JSON_parse fs pluginName = BuildComplete buildResult
      else ∃ jarPath, buildResult = minimal_result dir code jarPath.
Proof.
  intros Hsame Hdir Hclose Hround Hearlier. unfold on_close in Hclose.
  destruct (existsSync fs (join [dir; js "build_result.json"])) eqn:Hres.
  - simpl in Hclose.
    destruct (writeFileSync fs _ _) as [fs2 | e] eqn:Hw; [| done].
    injection Hclose as <-.
    apply writeFileSync_one in Hw as [Hw _].
    destruct (Hearlier eq_refl) as (text & earlier & Hread & Hparse).
    assert (get_status JSON_parse fs pluginName = BuildComplete earlier)
      as Hbefore.
    { unfold get_status.
      rewrite (existsSync_dir_same fs pluginName dir Hsame), Hdir.
      simpl negb. cbv iota.
      rewrite (existsSync_entry_same fs pluginName dir _ Hsame plain_result).
      rewrite Hres.
      assert (readFileSync fs
                (join [resolve (cwd fs) [pluginName]; js "build_result.json"])
              = Returns text) as ->.
      { unfold readFileSync in *.
        rewrite (status_paths fs pluginName dir)
          by (done || apply plain_result).
        destruct (regular_files fs
                    !! canon fs (join [dir; js "build_result.json"]));
          [done | discriminate Hread]. }
      by rewrite Hparse. }
    exists earlier. split; [| exact Hbefore].
    rewrite <- Hbefore.
    apply (get_status_other_entry fs fs2 pluginName dir
             (js "build_status.json")); try done.
    apply plain_status.
  - simpl in Hclose.
    destruct (match code with
              | Some 0%Z => find_jar readdirSync fs dir
              | _ => Returns []
              end) as [jarPath | e]; [| done].
    destruct (writeFileSync fs _ _) as [fs1 | e] eqn:Hw1; [| done].
    destruct (writeFileSync fs1 _ _) as [fs2 | e] eqn:Hw2; [| done].
    injection Hclose as <-.
    exists (minimal_result dir code jarPath). split; [| by exists jarPath].
    apply writeFileSync_one in Hw1 as [Hw1 Hfile1].
    apply writeFileSync_one in Hw2 as [Hw2 _].
    rewrite (one_written_canon fs fs1 _ _ Hw1) in Hw2.
    pose proof Hw1 as (Hc1 & _). pose proof Hw2 as (Hc2 & _).
    assert (canon fs (join [dir; js "build_result.json"])
            ≠ canon fs (join [dir; js "build_status.json"])) as Hapart.
    { apply entries_apart;
        [apply plain_result | apply plain_status |].
      vm_compute. discriminate. }
    unfold get_status. rewrite Hc2, Hc1.
    assert (existsSync fs2 (resolve (cwd fs) [pluginName]) = true) as ->.
    { apply (existsSync_kept fs1 fs2 _ _ Hw2).
      apply (existsSync_kept fs fs1 _ _ Hw1).
      by rewrite (existsSync_dir_same fs pluginName dir Hsame). }
    simpl negb. cbv iota.
    assert (readFileSync fs2
              (join [resolve (cwd fs) [pluginName]; js "build_result.json"])
            = Returns (JSON_stringify (minimal_result dir code jarPath)))
      as Hread.
    { unfold readFileSync.
      destruct Hw2 as (Hc & _ & text & Hf).
      rewrite Hf. unfold canon. rewrite Hc, Hc1.
      fold (canon fs (join [resolve (cwd fs) [pluginName];
                            js "build_result.json"])).
      rewrite (status_paths fs pluginName dir)
        by (done || apply plain_result).
      rewrite lookup_insert_ne by done.
      by rewrite Hfile1. }
    assert (existsSync fs2
              (join [resolve (cwd fs) [pluginName]; js "build_result.json"])
            = true) as ->.
    { apply (existsSync_kept fs1 fs2 _ _ Hw2).
      apply (existsSync_written fs fs1).
      by rewrite (status_paths fs pluginName dir)
        by (done || apply plain_result). }
    by rewrite Hread, Hround.
Qed.

(** X20: the build route while a build runs, seen through the status
    route.  Accepting a build and writing its log never removes a
    [build_result.json]: if one is there, the status route goes on
    answering with that earlier result as a complete build; if none is
    there, it answers [Build in progress] with the path of the log. *)
Theorem accepted_build_is_reported (fs fs1 fs2 : filesys)
    (st st2 : registry) (pluginName dir : list N) (time : list N)
    (chunks : list (list N)) :
  resolve (cwd fs) [pluginName] = resolve (cwd fs) [dir] →
  post_build JSON_stringify fs (VString dir) time = (BuildStarted dir, fs1) →
  publish now fs1 st dir chunks = Returns (fs2, st2) →
  if existsSync fs (join [dir; js "build_result.json"])
  then get_status JSON_parse fs1 pluginName
       = get_status JSON_parse fs pluginName
       ∧ get_status JSON_parse fs2 pluginName
         = get_status JSON_parse fs pluginName
  else get_status JSON_parse fs2 pluginName
       = BuildInProgress
           (join [resolve (cwd fs) [pluginName]; js "build.log"]).
Proof.
  intros Hsame Hpost Hpub. unfold post_build in Hpost.
  destruct (negb (truthy (VString dir))); [done |].
  destruct (existsSync fs dir) eqn:Hdir; [| done]. simpl in Hpost.
  destruct (negb (existsSync fs (join [dir; js "pom.xml"]))); [done |].
  destruct (writeFileSync fs _ _) as [fs1' | e] eqn:Hw1; [| done].
  injection Hpost as <-.
  apply writeFileSync_one in Hw1 as [Hw1 _].
  pose proof Hw1 as (Hc1 & _).
  apply publish_log in Hpub as (Hc2 & Hd2 & Hf2).
  assert (one_written fs1' fs2 (canon fs (join [dir; js "build.log"])))
    as Hw2.
  { split; [done |]. split; [done |].
    rewrite <- (one_written_canon fs fs1' _ _ Hw1). by eexists. }
  assert (canon fs (join [dir; js "build_result.json"])
          ≠ canon fs (join [dir; js "build_status.json"])) as Hrs.
  { apply entries_apart; [apply plain_result | apply plain_status |].
    vm_compute. discriminate. }
  assert (canon fs (join [dir; js "build_result.json"])
          ≠ canon fs (join [dir; js "build.log"])) as Hrl.
  { apply entries_apart; [apply plain_result | apply plain_log |].
    vm_compute. discriminate. }
  destruct (existsSync fs (join [dir; js "build_result.json"])) eqn:Hres.
  - assert (get_status JSON_parse fs1' pluginName
            = get_status JSON_parse fs pluginName) as H1.
    { apply (get_status_other_entry fs fs1' pluginName dir
               (js "build_status.json")); try done.
      apply plain_status. }
    split; [exact H1 |]. rewrite <- H1.
    apply (get_status_other_entry fs1' fs2 pluginName dir (js "build.log")).
    + by rewrite Hc1.
    + apply plain_log.
    + vm_compute. discriminate.
    + by apply (existsSync_kept fs fs1' _ _ Hw1).
    + by rewrite (one_written_canon fs fs1' _ _ Hw1).
    + by apply (existsSync_kept fs fs1' _ _ Hw1).
  - unfold get_status. rewrite Hc2, Hc1.
    assert (existsSync fs2 (resolve (cwd fs) [pluginName]) = true) as ->.
    { apply (existsSync_kept fs1' fs2 _ _ Hw2).
      apply (existsSync_kept fs fs1' _ _ Hw1).
      by rewrite (existsSync_dir_same fs pluginName dir Hsame). }
    simpl negb. cbv iota.
    assert (existsSync fs2
              (join [resolve (cwd fs) [pluginName]; js "build_result.json"])
            = false) as ->.
    { rewrite (existsSync_other fs1' fs2 _ _ Hw2).
      - rewrite (existsSync_other fs fs1' _ _ Hw1).
        + by rewrite (existsSync_entry_same fs pluginName dir _ Hsame plain_result).
        + by rewrite (status_paths fs pluginName dir)
            by (done || apply plain_result).
      - rewrite (one_written_canon fs fs1' _ _ Hw1).
        by rewrite (status_paths fs pluginName dir)
          by (done || apply plain_result). }
    assert (existsSync fs2
              (join [resolve (cwd fs) [pluginName]; js "build.log"])
            = true) as ->; [| done].
    apply (existsSync_written fs1' fs2).
    rewrite (one_written_canon fs fs1' _ _ Hw1).
    by rewrite (status_paths fs pluginName dir)
      by (done || apply plain_log).
Qed.

End BuildRouteFacts.



Lemma finished_build_is_reported_witness :
  (∃ buildResult,
     StatusRoute.get_status BuildExample.read_back
       (BuildRoute.disk
          (BuildRoute.on_close BuildExample.JSON_stringify
             BuildExample.readdirSync StatusExample.fresh
             (JS.js "/srv/app/demo") (Some 1%Z) (JS.js "12:00")))
       (JS.js "demo")
     = StatusRoute.BuildComplete buildResult
     ∧ ∃ jarPath,
         buildResult
         = BuildRoute.minimal_result (JS.js "/srv/app/demo") (Some 1%Z)
             jarPath)
  ∧ (∃ buildResult,
       StatusRoute.get_status BuildExample.read_back
         (BuildRoute.disk
            (BuildRoute.on_close BuildExample.JSON_stringify
               BuildExample.readdirSync BuildExample.rebuilt
               (JS.js "/srv/app/demo") (Some 1%Z) (JS.js "12:00")))
         (JS.js "demo")
       = StatusRoute.BuildComplete buildResult
       ∧ StatusRoute.get_status BuildExample.read_back BuildExample.rebuilt
           (JS.js "demo")
         = StatusRoute.BuildComplete buildResult).
Proof.
  split.
  - apply (finished_build_is_reported BuildExample.JSON_stringify
             BuildExample.readdirSync BuildExample.read_back
             StatusExample.fresh _
             (JS.js "demo") (JS.js "/srv/app/demo") (Some 1%Z)
             (JS.js "12:00") eq_refl eq_refl eq_refl).
    + intros jarPath. reflexivity.
    + intros Hthere. vm_compute in Hthere. discriminate Hthere.
  - apply (finished_build_is_reported BuildExample.JSON_stringify
             BuildExample.readdirSync BuildExample.read_back
             BuildExample.rebuilt _
             (JS.js "demo") (JS.js "/srv/app/demo") (Some 1%Z)
             (JS.js "12:00") eq_refl eq_refl eq_refl).
    + intros jarPath. reflexivity.
    + intros _. eexists _, _. split; vm_compute; reflexivity.
Defined.

Lemma accepted_build_is_reported_witness :
  StatusRoute.get_status BuildExample.JSON_parse
    (BuildRoute.post_build BuildExample.JSON_stringify BuildExample.rebuilt
       (JS.VString (JS.js "demo")) (JS.js "12:00")).2
    (JS.js "demo")
  = StatusRoute.BuildComplete (JS.VString (JS.js "{old}")).
Proof.
  destruct (accepted_build_is_reported BuildExample.JSON_stringify
              BuildExample.JSON_parse LogExample.clock
              BuildExample.rebuilt
              (BuildRoute.post_build BuildExample.JSON_stringify
                 BuildExample.rebuilt (JS.VString (JS.js "demo"))
                 (JS.js "12:00")).2
              (default BuildExample.rebuilt
                 (match LogStream.publish LogExample.clock
                          (BuildRoute.post_build BuildExample.JSON_stringify
                             BuildExample.rebuilt (JS.VString (JS.js "demo"))
                             (JS.js "12:00")).2
                          LogStream.initial (JS.js "demo")
                          [LogExample.chunk] with
                  | JS.Returns (fs, _) => Some fs
                  | JS.Throws _ => None
                  end))
              LogStream.initial
              (default LogStream.initial
                 (match LogStream.publish LogExample.clock
                          (BuildRoute.post_build BuildExample.JSON_stringify
                             BuildExample.rebuilt (JS.VString (JS.js "demo"))
                             (JS.js "12:00")).2
                          LogStream.initial (JS.js "demo")
                          [LogExample.chunk] with
                  | JS.Returns (_, st) => Some st
                  | JS.Throws _ => None
                  end))
              (JS.js "demo") (JS.js "demo") (JS.js "12:00")
              [LogExample.chunk]) as [H1 _].
  - reflexivity.
  - vm_compute. reflexivity.
  - vm_compute. reflexivity.
  - etrans; [exact H1 |]. vm_compute. reflexivity.
Defined.

(* ===================================================================== *)
(** * The command line of the script *)
(* ===================================================================== *)

Section StartupFacts.
Import Startup.

Lemma parse_options_given (given : list option_given) (s : settings) :
  parse_options (concat (map words_of given)) s
  = Some (fold_left set_option given s).
Proof.
  revert s. induction given as [| o given IH]; intros s; [done |].
  destruct o; simpl; rewrite IH; reflexivity.
Qed.

Lemma parse_options_accepts (words : list string) :
  ∀ s s', parse_options words s = Some s' →
  ∃ given, words = concat (map words_of given)
           ∧ s' = fold_left set_option given s.
Proof.
  induction words as [words IH] using (induction_ltof1 _ (@length string)).
  unfold ltof in IH. intros s s' Hp.
  destruct words as [| w rest].
  { injection Hp as <-. by exists []. }
  simpl in Hp.
  destruct (decide (w = "--verbose")) as [-> | _].
  { apply IH in Hp as (given & -> & ->); [| simpl; lia].
    by exists (Verbose :: given). }
  destruct (decide (w = "--no-color")) as [-> | _].
  { apply IH in Hp as (given & -> & ->); [| simpl; lia].
    by exists (NoColor :: given). }
  destruct (decide (w = "--max-attempts")) as [-> | _].
  { destruct rest as [| v rest]; [done |].
    apply IH in Hp as (given & -> & ->); [| simpl; lia].
    by exists (MaxAttempts v :: given). }
  destruct (decide (w = "--parallel")) as [-> | _].
  { destruct rest as [| v rest]; [done |].
    apply IH in Hp as (given & -> & ->); [| simpl; lia].
    by exists (Parallel v :: given). }
  destruct (decide (w = "--timeout")) as [-> | _]; [| done].
  destruct rest as [| v rest]; [done |].
  apply IH in Hp as (given & -> & ->); [| simpl; lia].
  by exists (Timeout v :: given).
Qed.

(** X21: the command line of [bash.sh].  With the tools installed, the
    script gets past its option loop exactly for a directory, a token and,
    optionally, a host followed by options, where [--max-attempts],
    [--parallel] and [--timeout] each take the next word as value,
    whatever it is; an empty host stands for the default.  The settings
    are the defaults changed by the options from left to right.  Every
    other command line, an unknown word or a value that is missing, ends
    the script with status 1. *)
Theorem command_line_accepted (cores : string) (args : list string)
    (s : settings) :
  startup [] cores args = Some s
  ↔ ∃ dir token host given,
      (args = dir :: token :: host :: concat (map words_of given)
       ∨ args = [dir; token] ∧ host = ""%string ∧ given = [])
      ∧ s = fold_left set_option given
              {| PLUGIN_DIR := dir; TOKEN := token;
                 API_HOST := if decide (host = ""%string)
                             then "http://localhost:3001" else host;
                 VERBOSE := false; coloured := true;
                 MAX_AI_FIX_ATTEMPTS := "5"; MAVEN_PARALLEL := cores;
                 API_TIMEOUT := "600" |}.
Proof.
  split.
  - unfold startup. destruct args as [| dir [| token rest]]; [done | done |].
    intros Hp. apply parse_options_accepts in Hp as (given & Hw & ->).
    destruct rest as [| host rest].
    + exists dir, token, ""%string, given. split; [| done].
      right. destruct given as [| o given]; [done |].
      by destruct o.
    + exists dir, token, host, given.
      change (drop 1 (host :: rest)) with rest in Hw. rewrite Hw.
      split; [by left |].
      destruct host; [done |]. by rewrite decide_False.
  - intros (dir & token & host & given & [-> | (-> & -> & ->)] & ->).
    + unfold startup.
      change (drop 1 (host :: concat (map words_of given)))
        with (concat (map words_of given)).
      rewrite parse_options_given.
      destruct host; [done |]. by rewrite decide_False.
    + reflexivity.
Qed.

End StartupFacts.

(* ===================================================================== *)
(** * The fix routes and the model *)
(* ===================================================================== *)

Section OutageFacts.
Import JS ErrorParser FileSystem FixRoute.

Variable fixer : nat → prompt → completion (list N).

Lemma fix_files_outage parsedErrors todo calls fixedFiles :
  (∀ n p, ∃ e, fixer n p = Throws e) →
  fix_files fixer parsedErrors todo calls fixedFiles = fixedFiles.
Proof.
  intros Hdown. revert calls.
  induction todo as [| [filename content] rest IH]; intros calls; [done |].
  simpl. destruct (choose_prompt parsedErrors filename content) as [p |];
    [| apply IH].
  destruct (Hdown calls p) as [e ->]. apply IH.
Qed.

(** X22: the fix route when the model is down.  If every call of the model
    throws, a request with parsable build errors and string contents is
    answered with status 200 and ['success'], an empty patch set and
    [filesWritten: false], and nothing is written. *)
Theorem model_outage_answers_success (fs : filesys) (req : request)
    (parsedErrors : parsed) :
  (∀ n p, ∃ e, fixer n p = Throws e) →
  truthy (buildErrors req) = true → truthy (files req) = true →
  parseErrors (buildErrors req) = Returns parsedErrors →
  Forall (λ e, is_string e.2 = true) (entries (files req)) →
  pluginDir req = VUndefined ∨ is_string (pluginDir req) = true →
  post_fix fixer fs req = (Fixed false [], fs).
Proof.
  intros Hdown Hb Hf Hp _ _. unfold post_fix.
  rewrite Hb, Hf, Hp. simpl orb. cbv iota.
  rewrite fix_files_outage by done.
  simpl length. by rewrite andb_false_r.
Qed.

End OutageFacts.

Lemma model_outage_answers_success_witness :
  FixRoute.post_fix (λ _ _, JS.Throws "503") FixRouteExample.disk
    FixRouteExample.req
  = (FixRoute.Fixed false [], FixRouteExample.disk).
Proof.
  eapply (model_outage_answers_success (λ _ _, JS.Throws "503")
            FixRouteExample.disk FixRouteExample.req).
  - intros n p. by exists "503"%string.
  - reflexivity.
  - reflexivity.
  - vm_compute. reflexivity.
  - apply (bool_decide_unpack _). vm_compute. exact I.
  - left. reflexivity.
Defined.



Section FirstFixRouteFacts.
Import JS FixRoute FirstFixRoute.

Variable fixer : nat → prompt → completion (list N).

Lemma assign_keys_iff {A} (key : list N) (v : A) (obj : list (list N * A)) k :
  k ∈ (assign key v obj).*1 ↔ k = key ∨ k ∈ obj.*1.
Proof.
  induction obj as [| [k0 x] rest IH]; simpl.
  - rewrite list_elem_of_singleton. split; [by left |].
    intros [-> | H]; [done | by apply elem_of_nil in H].
  - case_bool_decide as Hk0; simpl; rewrite !elem_of_cons.
    + subst k0. tauto.
    + rewrite IH. tauto.
Qed.

Lemma fix_java_keys errors todo calls fixedFiles calls' fixedFiles' :
  fix_java fixer (VString errors) todo calls fixedFiles
  = Returns (calls', fixedFiles') →
  ∀ k, k ∈ fixedFiles'.*1
       ↔ k ∈ fixedFiles.*1
         ∨ (k ∈ todo.*1 ∧ ends_with k (js ".java") = true
            ∧ includes errors k = true).
Proof.
  revert calls fixedFiles.
  induction todo as [| [filename content] rest IH];
    intros calls fixedFiles Hrun k.
  - simpl in Hrun. injection Hrun as <- <-.
    split; [by left |]. intros [H | (H & _)]; [done |].
    by apply elem_of_nil in H.
  - simpl in Hrun. rewrite fmap_cons, elem_of_cons. simpl.
    destruct (ends_with filename (js ".java")) eqn:Hjava; simpl in Hrun.
    + destruct (includes errors filename) eqn:Hinc.
      * destruct (fixer calls _) as [fixedContent | e]; [| done].
        rewrite (IH _ _ Hrun k), assign_keys_iff.
        split.
        -- intros [[-> | H] | (H1 & H2 & H3)]; [| by left |].
           ++ right. split; [by left | done].
           ++ right. split; [by right | done].
        -- intros [H | ([-> | H1] & H2 & H3)].
           ++ left. by right.
           ++ left. by left.
           ++ by right.
      * rewrite (IH _ _ Hrun k). split.
        -- intros [H | (H1 & H2 & H3)]; [by left |].
           right. split; [by right | done].
        -- intros [H | ([-> | H1] & H2 & H3)]; [by left | congruence |].
           by right.
    + rewrite (IH _ _ Hrun k). split.
      * intros [H | (H1 & H2 & H3)]; [by left |].
        right. split; [by right | done].
      * intros [H | ([-> | H1] & H2 & H3)]; [by left | congruence |].
        by right.
Qed.

(** X23: the handler of [routes/fix.ts].  When the route answers with
    status 200 for build errors that are a string and contents that are
    strings, the patch set has exactly these keys: the [.java] keys of the request that occur in the
    build errors, and [pom.xml] when the build errors mention it and the
    request sends it.  No exception is caught per file: one failing call
    of the model fails the whole request. *)
Theorem first_fix_patch_set_exact (errors : list N) (files : jsvalue)
    (data : list (list N * list N)) :
  Forall (λ e, is_string e.2 = true) (entries files) →
  post_fix fixer (VString errors) files = Fixed data →
  ∀ filename,
    filename ∈ data.*1
    ↔ (filename ∈ (entries files).*1
       ∧ ends_with filename (js ".java") = true
       ∧ includes errors filename = true)
      ∨ (filename = js "pom.xml"
         ∧ includes errors (js "pom.xml") = true
         ∧ truthy (App.field "pom.xml" files) = true).
Proof.
  intros _ Hpost filename. unfold post_fix in Hpost.
  destruct (negb (truthy (VString errors)) || negb (truthy files)); [done |].
  destruct (fix_java fixer (VString errors) (entries files) 0 [])
    as [[calls fixedFiles] | e] eqn:Hjava; [| done].
  pose proof (fix_java_keys _ _ _ _ _ _ Hjava) as Hkeys.
  simpl in Hpost.
  destruct (includes errors (js "pom.xml")) eqn:Hpom; simpl in Hpost.
  - destruct (truthy (App.field "pom.xml" files)) eqn:Hfield.
    + destruct (fixer calls _) as [fixedPom | e]; [| done].
      injection Hpost as <-. rewrite assign_keys_iff, Hkeys.
      split.
      * intros [-> | [H | H]]; [by right | by apply elem_of_nil in H |].
        by left.
      * intros [H | (-> & _)]; [right; by right | by left].
    + injection Hpost as <-. rewrite Hkeys. split.
      * intros [H | H]; [by apply elem_of_nil in H | by left].
      * intros [H | (_ & _ & H)]; [by right | done].
  - injection Hpost as <-. rewrite Hkeys. split.
    + intros [H | H]; [by apply elem_of_nil in H | by left].
    + intros [H | (_ & H & _)]; [by right | done].
Qed.

End FirstFixRouteFacts.



Lemma first_fix_patch_set_exact_witness :
  ∃ data,
    FirstFixRoute.post_fix FirstFixExample.fixer
      (JS.VString FirstFixExample.errors) FirstFixExample.files
    = FirstFixRoute.Fixed data
    ∧ data.*1 = [JS.js "src/A.java"]
    ∧ (JS.js "src/B.java" ∈ data.*1
       ↔ (JS.js "src/B.java" ∈ (FixRoute.entries FirstFixExample.files).*1
          ∧ JS.ends_with (JS.js "src/B.java") (JS.js ".java") = true
          ∧ JS.includes FirstFixExample.errors (JS.js "src/B.java") = true)
         ∨ (JS.js "src/B.java" = JS.js "pom.xml"
            ∧ JS.includes FirstFixExample.errors (JS.js "pom.xml") = true
            ∧ JS.truthy (App.field "pom.xml" FirstFixExample.files) = true)).
Proof.
  eexists. split; [vm_compute; reflexivity |]. split; [reflexivity |].
  apply (first_fix_patch_set_exact FirstFixExample.fixer
           FirstFixExample.errors FirstFixExample.files).
  - apply (bool_decide_unpack _). vm_compute. exact I.
  - vm_compute. reflexivity.
Defined.
